(** * news-hotspots-webcams: the ingestion pipeline of [src/index.js]

    A shallow embedding of the pipeline (record parser, category classifier,
    place aggregator, ranker, camera enricher, snapshot builder) and the
    properties proved about it.

    Conventions of the embedding.
    - A JavaScript string is a [string] holding the UTF-8 bytes of its
      text.  An ASCII character is one byte and no byte of another character
      is in the ASCII range, so splitting at an ASCII separator, looking for
      a keyword and reading a numeral go byte by byte; trimming and
      upper-casing read whole characters, with the white space and the case
      mapping of Unicode.  A lone surrogate, which the decoded text of a
      response never holds, has no counterpart.
    - A JavaScript number is an IEEE 754 binary64 value, [spec_float] with
      [prec = 53] and [emax = 1024].
    - A [Map] and a plain object used as a dictionary are association lists
      in insertion order, the order in which JavaScript enumerates them.
    - Network calls are functions on an abstract state of the outside
      world; a call either returns a value or throws. *)

From Stdlib Require Import List String Ascii Bool Arith ZArith Lia.
From Stdlib Require Import DecimalString Sorted Permutation.
From Stdlib Require Import Floats.SpecFloat.
Import ListNotations.
Local Open Scope string_scope.
Local Open Scope list_scope.
Local Open Scope nat_scope.

(* ===================================================================== *)
(** * Part I: the program *)
(* ===================================================================== *)

(** ** Strings *)

Module JsString.

(** [s.split(sep)] for a one-character separator. *)
Fixpoint split (sep : ascii) (s : string) : list string :=
  match s with
  | EmptyString => [EmptyString]
  | String c rest =>
      if Ascii.eqb c sep then EmptyString :: split sep rest
      else match split sep rest with
           | [] => [String c EmptyString]
           | hd :: tl => String c hd :: tl
           end
  end.

(** [Boolean(s)] for a string: the empty string is the only falsy one. *)
Definition truthy (s : string) : bool :=
  match s with EmptyString => false | _ => true end.

(** [a || b] on strings. *)
Definition or_else (a b : string) : string := if truthy a then a else b.

(** The UTF-8 bytes of the character with code point [cp]. *)
Definition utf8 (cp : N) : string :=
  let byte (n : N) := ascii_of_N n in
  let cont (n : N) := byte (128 + n mod 64)%N in
  if (cp <? 128)%N then String (byte cp) EmptyString
  else if (cp <? 2048)%N then
    String (byte (192 + cp / 64)%N) (String (cont cp) EmptyString)
  else if (cp <? 65536)%N then
    String (byte (224 + cp / 4096)%N)
      (String (cont (cp / 64)%N) (String (cont cp) EmptyString))
  else
    String (byte (240 + cp / 262144)%N)
      (String (cont (cp / 4096)%N)
         (String (cont (cp / 64)%N) (String (cont cp) EmptyString))).

(** The code point that the bytes [k] of one character carry. *)
Definition codePoint (k : string) : N :=
  let low (b : ascii) (m : N) := (N_of_ascii b mod m)%N in
  match k with
  | String b1 EmptyString => N_of_ascii b1
  | String b1 (String b2 EmptyString) => (low b1 32 * 64 + low b2 64)%N
  | String b1 (String b2 (String b3 EmptyString)) =>
      (low b1 16 * 4096 + low b2 64 * 64 + low b3 64)%N
  | String b1 (String b2 (String b3 (String b4 EmptyString))) =>
      (low b1 8 * 262144 + low b2 64 * 4096 + low b3 64 * 64 + low b4 64)%N
  | _ => 0%N
  end.

(** WhiteSpace and LineTerminator of ECMAScript: TAB, LF, VT, FF, CR,
    SPACE, NO-BREAK SPACE, the other space separators (category Zs),
    LINE SEPARATOR, PARAGRAPH SEPARATOR and ZERO WIDTH NO-BREAK SPACE. *)
Definition whiteSpace : list N :=
  [ 0x9; 0xA; 0xB; 0xC; 0xD; 0x20; 0xA0; 0x1680;
    0x2000; 0x2001; 0x2002; 0x2003; 0x2004; 0x2005; 0x2006; 0x2007;
    0x2008; 0x2009; 0x200A; 0x2028; 0x2029; 0x202F; 0x205F; 0x3000;
    0xFEFF ]%N.

(** The bytes [k] are one white-space character. *)
Definition isWhiteSpace (k : string) : bool :=
  existsb (fun cp => String.eqb (utf8 cp) k) whiteSpace.

(** [s.trimStart()]: a white-space character takes one, two or three
    bytes. *)
Fixpoint trimStart (s : string) : string :=
  match s with
  | EmptyString => EmptyString
  | String b1 r1 =>
      if isWhiteSpace (String b1 EmptyString) then trimStart r1
      else
        match r1 with
        | String b2 r2 =>
            if isWhiteSpace (String b1 (String b2 EmptyString))
            then trimStart r2
            else
              match r2 with
              | String b3 r3 =>
                  if isWhiteSpace (String b1 (String b2 (String b3 EmptyString)))
                  then trimStart r3
                  else s
              | EmptyString => s
              end
        | EmptyString => s
        end
  end.

(** [s] holds white space only. *)
Definition isBlank (s : string) : bool :=
  match trimStart s with EmptyString => true | _ => false end.

(** [s.trimEnd()]: the text is cut where only white space follows. *)
Fixpoint trimEnd (s : string) : string :=
  match s with
  | EmptyString => EmptyString
  | String c rest => if isBlank s then EmptyString else String c (trimEnd rest)
  end.

(** [s.trim()] *)
Definition trim (s : string) : string := trimEnd (trimStart s).

Definition isLower (c : ascii) : bool :=
  let n := N_of_ascii c in N.leb 97 n && N.leb n 122.

(** The upper-case form of an ASCII character. *)
Definition upperChar (c : ascii) : ascii :=
  if isLower c then ascii_of_N (N_of_ascii c - 32) else c.

(** The characters outside the ASCII range that upper-casing changes,
    each with the characters of its upper-case form: the full case mapping
    of the Unicode Character Database 14.0 (the simple upper-case mappings
    of UnicodeData.txt and the unconditional ones of SpecialCasing.txt),
    which is locale-independent and context-free. *)
Definition upperCaseTable : list (N * list N) :=
  [
    (0xB5, [0x39C]); (0xDF, [0x53; 0x53]); (0xE0, [0xC0]); (0xE1, [0xC1]);
    (0xE2, [0xC2]); (0xE3, [0xC3]); (0xE4, [0xC4]); (0xE5, [0xC5]);
    (0xE6, [0xC6]); (0xE7, [0xC7]); (0xE8, [0xC8]); (0xE9, [0xC9]);
    (0xEA, [0xCA]); (0xEB, [0xCB]); (0xEC, [0xCC]); (0xED, [0xCD]);
    (0xEE, [0xCE]); (0xEF, [0xCF]); (0xF0, [0xD0]); (0xF1, [0xD1]);
    (0xF2, [0xD2]); (0xF3, [0xD3]); (0xF4, [0xD4]); (0xF5, [0xD5]);
    (0xF6, [0xD6]); (0xF8, [0xD8]); (0xF9, [0xD9]); (0xFA, [0xDA]);
    (0xFB, [0xDB]); (0xFC, [0xDC]); (0xFD, [0xDD]); (0xFE, [0xDE]);
    (0xFF, [0x178]); (0x101, [0x100]); (0x103, [0x102]); (0x105, [0x104]);
    (0x107, [0x106]); (0x109, [0x108]); (0x10B, [0x10A]); (0x10D, [0x10C]);
    (0x10F, [0x10E]); (0x111, [0x110]); (0x113, [0x112]); (0x115, [0x114]);
    (0x117, [0x116]); (0x119, [0x118]); (0x11B, [0x11A]); (0x11D, [0x11C]);
    (0x11F, [0x11E]); (0x121, [0x120]); (0x123, [0x122]); (0x125, [0x124]);
    (0x127, [0x126]); (0x129, [0x128]); (0x12B, [0x12A]); (0x12D, [0x12C]);
    (0x12F, [0x12E]); (0x131, [0x49]); (0x133, [0x132]); (0x135, [0x134]);
    (0x137, [0x136]); (0x13A, [0x139]); (0x13C, [0x13B]); (0x13E, [0x13D]);
    (0x140, [0x13F]); (0x142, [0x141]); (0x144, [0x143]); (0x146, [0x145]);
    (0x148, [0x147]); (0x149, [0x2BC; 0x4E]); (0x14B, [0x14A]);
    (0x14D, [0x14C]); (0x14F, [0x14E]); (0x151, [0x150]); (0x153, [0x152]);
    (0x155, [0x154]); (0x157, [0x156]); (0x159, [0x158]); (0x15B, [0x15A]);
    (0x15D, [0x15C]); (0x15F, [0x15E]); (0x161, [0x160]); (0x163, [0x162]);
    (0x165, [0x164]); (0x167, [0x166]); (0x169, [0x168]); (0x16B, [0x16A]);
    (0x16D, [0x16C]); (0x16F, [0x16E]); (0x171, [0x170]); (0x173, [0x172]);
    (0x175, [0x174]); (0x177, [0x176]); (0x17A, [0x179]); (0x17C, [0x17B]);
    (0x17E, [0x17D]); (0x17F, [0x53]); (0x180, [0x243]); (0x183, [0x182]);
    (0x185, [0x184]); (0x188, [0x187]); (0x18C, [0x18B]); (0x192, [0x191]);
    (0x195, [0x1F6]); (0x199, [0x198]); (0x19A, [0x23D]); (0x19E, [0x220]);
    (0x1A1, [0x1A0]); (0x1A3, [0x1A2]); (0x1A5, [0x1A4]); (0x1A8, [0x1A7]);
    (0x1AD, [0x1AC]); (0x1B0, [0x1AF]); (0x1B4, [0x1B3]); (0x1B6, [0x1B5]);
    (0x1B9, [0x1B8]); (0x1BD, [0x1BC]); (0x1BF, [0x1F7]); (0x1C5, [0x1C4]);
    (0x1C6, [0x1C4]); (0x1C8, [0x1C7]); (0x1C9, [0x1C7]); (0x1CB, [0x1CA]);
    (0x1CC, [0x1CA]); (0x1CE, [0x1CD]); (0x1D0, [0x1CF]); (0x1D2, [0x1D1]);
    (0x1D4, [0x1D3]); (0x1D6, [0x1D5]); (0x1D8, [0x1D7]); (0x1DA, [0x1D9]);
    (0x1DC, [0x1DB]); (0x1DD, [0x18E]); (0x1DF, [0x1DE]); (0x1E1, [0x1E0]);
    (0x1E3, [0x1E2]); (0x1E5, [0x1E4]); (0x1E7, [0x1E6]); (0x1E9, [0x1E8]);
    (0x1EB, [0x1EA]); (0x1ED, [0x1EC]); (0x1EF, [0x1EE]);
    (0x1F0, [0x4A; 0x30C]); (0x1F2, [0x1F1]); (0x1F3, [0x1F1]);
    (0x1F5, [0x1F4]); (0x1F9, [0x1F8]); (0x1FB, [0x1FA]); (0x1FD, [0x1FC]);
    (0x1FF, [0x1FE]); (0x201, [0x200]); (0x203, [0x202]); (0x205, [0x204]);
    (0x207, [0x206]); (0x209, [0x208]); (0x20B, [0x20A]); (0x20D, [0x20C]);
    (0x20F, [0x20E]); (0x211, [0x210]); (0x213, [0x212]); (0x215, [0x214]);
    (0x217, [0x216]); (0x219, [0x218]); (0x21B, [0x21A]); (0x21D, [0x21C]);
    (0x21F, [0x21E]); (0x223, [0x222]); (0x225, [0x224]); (0x227, [0x226]);
    (0x229, [0x228]); (0x22B, [0x22A]); (0x22D, [0x22C]); (0x22F, [0x22E]);
    (0x231, [0x230]); (0x233, [0x232]); (0x23C, [0x23B]); (0x23F, [0x2C7E]);
    (0x240, [0x2C7F]); (0x242, [0x241]); (0x247, [0x246]); (0x249, [0x248]);
    (0x24B, [0x24A]); (0x24D, [0x24C]); (0x24F, [0x24E]); (0x250, [0x2C6F]);
    (0x251, [0x2C6D]); (0x252, [0x2C70]); (0x253, [0x181]); (0x254, [0x186]);
    (0x256, [0x189]); (0x257, [0x18A]); (0x259, [0x18F]); (0x25B, [0x190]);
    (0x25C, [0xA7AB]); (0x260, [0x193]); (0x261, [0xA7AC]); (0x263, [0x194]);
    (0x265, [0xA78D]); (0x266, [0xA7AA]); (0x268, [0x197]); (0x269, [0x196]);
    (0x26A, [0xA7AE]); (0x26B, [0x2C62]); (0x26C, [0xA7AD]); (0x26F, [0x19C]);
    (0x271, [0x2C6E]); (0x272, [0x19D]); (0x275, [0x19F]); (0x27D, [0x2C64]);
    (0x280, [0x1A6]); (0x282, [0xA7C5]); (0x283, [0x1A9]); (0x287, [0xA7B1]);
    (0x288, [0x1AE]); (0x289, [0x244]); (0x28A, [0x1B1]); (0x28B, [0x1B2]);
    (0x28C, [0x245]); (0x292, [0x1B7]); (0x29D, [0xA7B2]); (0x29E, [0xA7B0]);
    (0x345, [0x399]); (0x371, [0x370]); (0x373, [0x372]); (0x377, [0x376]);
    (0x37B, [0x3FD]); (0x37C, [0x3FE]); (0x37D, [0x3FF]);
    (0x390, [0x399; 0x308; 0x301]); (0x3AC, [0x386]); (0x3AD, [0x388]);
    (0x3AE, [0x389]); (0x3AF, [0x38A]); (0x3B0, [0x3A5; 0x308; 0x301]);
    (0x3B1, [0x391]); (0x3B2, [0x392]); (0x3B3, [0x393]); (0x3B4, [0x394]);
    (0x3B5, [0x395]); (0x3B6, [0x396]); (0x3B7, [0x397]); (0x3B8, [0x398]);
    (0x3B9, [0x399]); (0x3BA, [0x39A]); (0x3BB, [0x39B]); (0x3BC, [0x39C]);
    (0x3BD, [0x39D]); (0x3BE, [0x39E]); (0x3BF, [0x39F]); (0x3C0, [0x3A0]);
    (0x3C1, [0x3A1]); (0x3C2, [0x3A3]); (0x3C3, [0x3A3]); (0x3C4, [0x3A4]);
    (0x3C5, [0x3A5]); (0x3C6, [0x3A6]); (0x3C7, [0x3A7]); (0x3C8, [0x3A8]);
    (0x3C9, [0x3A9]); (0x3CA, [0x3AA]); (0x3CB, [0x3AB]); (0x3CC, [0x38C]);
    (0x3CD, [0x38E]); (0x3CE, [0x38F]); (0x3D0, [0x392]); (0x3D1, [0x398]);
    (0x3D5, [0x3A6]); (0x3D6, [0x3A0]); (0x3D7, [0x3CF]); (0x3D9, [0x3D8]);
    (0x3DB, [0x3DA]); (0x3DD, [0x3DC]); (0x3DF, [0x3DE]); (0x3E1, [0x3E0]);
    (0x3E3, [0x3E2]); (0x3E5, [0x3E4]); (0x3E7, [0x3E6]); (0x3E9, [0x3E8]);
    (0x3EB, [0x3EA]); (0x3ED, [0x3EC]); (0x3EF, [0x3EE]); (0x3F0, [0x39A]);
    (0x3F1, [0x3A1]); (0x3F2, [0x3F9]); (0x3F3, [0x37F]); (0x3F5, [0x395]);
    (0x3F8, [0x3F7]); (0x3FB, [0x3FA]); (0x430, [0x410]); (0x431, [0x411]);
    (0x432, [0x412]); (0x433, [0x413]); (0x434, [0x414]); (0x435, [0x415]);
    (0x436, [0x416]); (0x437, [0x417]); (0x438, [0x418]); (0x439, [0x419]);
    (0x43A, [0x41A]); (0x43B, [0x41B]); (0x43C, [0x41C]); (0x43D, [0x41D]);
    (0x43E, [0x41E]); (0x43F, [0x41F]); (0x440, [0x420]); (0x441, [0x421]);
    (0x442, [0x422]); (0x443, [0x423]); (0x444, [0x424]); (0x445, [0x425]);
    (0x446, [0x426]); (0x447, [0x427]); (0x448, [0x428]); (0x449, [0x429]);
    (0x44A, [0x42A]); (0x44B, [0x42B]); (0x44C, [0x42C]); (0x44D, [0x42D]);
    (0x44E, [0x42E]); (0x44F, [0x42F]); (0x450, [0x400]); (0x451, [0x401]);
    (0x452, [0x402]); (0x453, [0x403]); (0x454, [0x404]); (0x455, [0x405]);
    (0x456, [0x406]); (0x457, [0x407]); (0x458, [0x408]); (0x459, [0x409]);
    (0x45A, [0x40A]); (0x45B, [0x40B]); (0x45C, [0x40C]); (0x45D, [0x40D]);
    (0x45E, [0x40E]); (0x45F, [0x40F]); (0x461, [0x460]); (0x463, [0x462]);
    (0x465, [0x464]); (0x467, [0x466]); (0x469, [0x468]); (0x46B, [0x46A]);
    (0x46D, [0x46C]); (0x46F, [0x46E]); (0x471, [0x470]); (0x473, [0x472]);
    (0x475, [0x474]); (0x477, [0x476]); (0x479, [0x478]); (0x47B, [0x47A]);
    (0x47D, [0x47C]); (0x47F, [0x47E]); (0x481, [0x480]); (0x48B, [0x48A]);
    (0x48D, [0x48C]); (0x48F, [0x48E]); (0x491, [0x490]); (0x493, [0x492]);
    (0x495, [0x494]); (0x497, [0x496]); (0x499, [0x498]); (0x49B, [0x49A]);
    (0x49D, [0x49C]); (0x49F, [0x49E]); (0x4A1, [0x4A0]); (0x4A3, [0x4A2]);
    (0x4A5, [0x4A4]); (0x4A7, [0x4A6]); (0x4A9, [0x4A8]); (0x4AB, [0x4AA]);
    (0x4AD, [0x4AC]); (0x4AF, [0x4AE]); (0x4B1, [0x4B0]); (0x4B3, [0x4B2]);
    (0x4B5, [0x4B4]); (0x4B7, [0x4B6]); (0x4B9, [0x4B8]); (0x4BB, [0x4BA]);
    (0x4BD, [0x4BC]); (0x4BF, [0x4BE]); (0x4C2, [0x4C1]); (0x4C4, [0x4C3]);
    (0x4C6, [0x4C5]); (0x4C8, [0x4C7]); (0x4CA, [0x4C9]); (0x4CC, [0x4CB]);
    (0x4CE, [0x4CD]); (0x4CF, [0x4C0]); (0x4D1, [0x4D0]); (0x4D3, [0x4D2]);
    (0x4D5, [0x4D4]); (0x4D7, [0x4D6]); (0x4D9, [0x4D8]); (0x4DB, [0x4DA]);
    (0x4DD, [0x4DC]); (0x4DF, [0x4DE]); (0x4E1, [0x4E0]); (0x4E3, [0x4E2]);
    (0x4E5, [0x4E4]); (0x4E7, [0x4E6]); (0x4E9, [0x4E8]); (0x4EB, [0x4EA]);
    (0x4ED, [0x4EC]); (0x4EF, [0x4EE]); (0x4F1, [0x4F0]); (0x4F3, [0x4F2]);
    (0x4F5, [0x4F4]); (0x4F7, [0x4F6]); (0x4F9, [0x4F8]); (0x4FB, [0x4FA]);
    (0x4FD, [0x4FC]); (0x4FF, [0x4FE]); (0x501, [0x500]); (0x503, [0x502]);
    (0x505, [0x504]); (0x507, [0x506]); (0x509, [0x508]); (0x50B, [0x50A]);
    (0x50D, [0x50C]); (0x50F, [0x50E]); (0x511, [0x510]); (0x513, [0x512]);
    (0x515, [0x514]); (0x517, [0x516]); (0x519, [0x518]); (0x51B, [0x51A]);
    (0x51D, [0x51C]); (0x51F, [0x51E]); (0x521, [0x520]); (0x523, [0x522]);
    (0x525, [0x524]); (0x527, [0x526]); (0x529, [0x528]); (0x52B, [0x52A]);
    (0x52D, [0x52C]); (0x52F, [0x52E]); (0x561, [0x531]); (0x562, [0x532]);
    (0x563, [0x533]); (0x564, [0x534]); (0x565, [0x535]); (0x566, [0x536]);
    (0x567, [0x537]); (0x568, [0x538]); (0x569, [0x539]); (0x56A, [0x53A]);
    (0x56B, [0x53B]); (0x56C, [0x53C]); (0x56D, [0x53D]); (0x56E, [0x53E]);
    (0x56F, [0x53F]); (0x570, [0x540]); (0x571, [0x541]); (0x572, [0x542]);
    (0x573, [0x543]); (0x574, [0x544]); (0x575, [0x545]); (0x576, [0x546]);
    (0x577, [0x547]); (0x578, [0x548]); (0x579, [0x549]); (0x57A, [0x54A]);
    (0x57B, [0x54B]); (0x57C, [0x54C]); (0x57D, [0x54D]); (0x57E, [0x54E]);
    (0x57F, [0x54F]); (0x580, [0x550]); (0x581, [0x551]); (0x582, [0x552]);
    (0x583, [0x553]); (0x584, [0x554]); (0x585, [0x555]); (0x586, [0x556]);
    (0x587, [0x535; 0x552]); (0x10D0, [0x1C90]); (0x10D1, [0x1C91]);
    (0x10D2, [0x1C92]); (0x10D3, [0x1C93]); (0x10D4, [0x1C94]);
    (0x10D5, [0x1C95]); (0x10D6, [0x1C96]); (0x10D7, [0x1C97]);
    (0x10D8, [0x1C98]); (0x10D9, [0x1C99]); (0x10DA, [0x1C9A]);
    (0x10DB, [0x1C9B]); (0x10DC, [0x1C9C]); (0x10DD, [0x1C9D]);
    (0x10DE, [0x1C9E]); (0x10DF, [0x1C9F]); (0x10E0, [0x1CA0]);
    (0x10E1, [0x1CA1]); (0x10E2, [0x1CA2]); (0x10E3, [0x1CA3]);
    (0x10E4, [0x1CA4]); (0x10E5, [0x1CA5]); (0x10E6, [0x1CA6]);
    (0x10E7, [0x1CA7]); (0x10E8, [0x1CA8]); (0x10E9, [0x1CA9]);
    (0x10EA, [0x1CAA]); (0x10EB, [0x1CAB]); (0x10EC, [0x1CAC]);
    (0x10ED, [0x1CAD]); (0x10EE, [0x1CAE]); (0x10EF, [0x1CAF]);
    (0x10F0, [0x1CB0]); (0x10F1, [0x1CB1]); (0x10F2, [0x1CB2]);
    (0x10F3, [0x1CB3]); (0x10F4, [0x1CB4]); (0x10F5, [0x1CB5]);
    (0x10F6, [0x1CB6]); (0x10F7, [0x1CB7]); (0x10F8, [0x1CB8]);
    (0x10F9, [0x1CB9]); (0x10FA, [0x1CBA]); (0x10FD, [0x1CBD]);
    (0x10FE, [0x1CBE]); (0x10FF, [0x1CBF]); (0x13F8, [0x13F0]);
    (0x13F9, [0x13F1]); (0x13FA, [0x13F2]); (0x13FB, [0x13F3]);
    (0x13FC, [0x13F4]); (0x13FD, [0x13F5]); (0x1C80, [0x412]);
    (0x1C81, [0x414]); (0x1C82, [0x41E]); (0x1C83, [0x421]); (0x1C84, [0x422]);
    (0x1C85, [0x422]); (0x1C86, [0x42A]); (0x1C87, [0x462]);
    (0x1C88, [0xA64A]); (0x1D79, [0xA77D]); (0x1D7D, [0x2C63]);
    (0x1D8E, [0xA7C6]); (0x1E01, [0x1E00]); (0x1E03, [0x1E02]);
    (0x1E05, [0x1E04]); (0x1E07, [0x1E06]); (0x1E09, [0x1E08]);
    (0x1E0B, [0x1E0A]); (0x1E0D, [0x1E0C]); (0x1E0F, [0x1E0E]);
    (0x1E11, [0x1E10]); (0x1E13, [0x1E12]); (0x1E15, [0x1E14]);
    (0x1E17, [0x1E16]); (0x1E19, [0x1E18]); (0x1E1B, [0x1E1A]);
    (0x1E1D, [0x1E1C]); (0x1E1F, [0x1E1E]); (0x1E21, [0x1E20]);
    (0x1E23, [0x1E22]); (0x1E25, [0x1E24]); (0x1E27, [0x1E26]);
    (0x1E29, [0x1E28]); (0x1E2B, [0x1E2A]); (0x1E2D, [0x1E2C]);
    (0x1E2F, [0x1E2E]); (0x1E31, [0x1E30]); (0x1E33, [0x1E32]);
    (0x1E35, [0x1E34]); (0x1E37, [0x1E36]); (0x1E39, [0x1E38]);
    (0x1E3B, [0x1E3A]); (0x1E3D, [0x1E3C]); (0x1E3F, [0x1E3E]);
    (0x1E41, [0x1E40]); (0x1E43, [0x1E42]); (0x1E45, [0x1E44]);
    (0x1E47, [0x1E46]); (0x1E49, [0x1E48]); (0x1E4B, [0x1E4A]);
    (0x1E4D, [0x1E4C]); (0x1E4F, [0x1E4E]); (0x1E51, [0x1E50]);
    (0x1E53, [0x1E52]); (0x1E55, [0x1E54]); (0x1E57, [0x1E56]);
    (0x1E59, [0x1E58]); (0x1E5B, [0x1E5A]); (0x1E5D, [0x1E5C]);
    (0x1E5F, [0x1E5E]); (0x1E61, [0x1E60]); (0x1E63, [0x1E62]);
    (0x1E65, [0x1E64]); (0x1E67, [0x1E66]); (0x1E69, [0x1E68]);
    (0x1E6B, [0x1E6A]); (0x1E6D, [0x1E6C]); (0x1E6F, [0x1E6E]);
    (0x1E71, [0x1E70]); (0x1E73, [0x1E72]); (0x1E75, [0x1E74]);
    (0x1E77, [0x1E76]); (0x1E79, [0x1E78]); (0x1E7B, [0x1E7A]);
    (0x1E7D, [0x1E7C]); (0x1E7F, [0x1E7E]); (0x1E81, [0x1E80]);
    (0x1E83, [0x1E82]); (0x1E85, [0x1E84]); (0x1E87, [0x1E86]);
    (0x1E89, [0x1E88]); (0x1E8B, [0x1E8A]); (0x1E8D, [0x1E8C]);
    (0x1E8F, [0x1E8E]); (0x1E91, [0x1E90]); (0x1E93, [0x1E92]);
    (0x1E95, [0x1E94]); (0x1E96, [0x48; 0x331]); (0x1E97, [0x54; 0x308]);
    (0x1E98, [0x57; 0x30A]); (0x1E99, [0x59; 0x30A]); (0x1E9A, [0x41; 0x2BE]);
    (0x1E9B, [0x1E60]); (0x1EA1, [0x1EA0]); (0x1EA3, [0x1EA2]);
    (0x1EA5, [0x1EA4]); (0x1EA7, [0x1EA6]); (0x1EA9, [0x1EA8]);
    (0x1EAB, [0x1EAA]); (0x1EAD, [0x1EAC]); (0x1EAF, [0x1EAE]);
    (0x1EB1, [0x1EB0]); (0x1EB3, [0x1EB2]); (0x1EB5, [0x1EB4]);
    (0x1EB7, [0x1EB6]); (0x1EB9, [0x1EB8]); (0x1EBB, [0x1EBA]);
    (0x1EBD, [0x1EBC]); (0x1EBF, [0x1EBE]); (0x1EC1, [0x1EC0]);
    (0x1EC3, [0x1EC2]); (0x1EC5, [0x1EC4]); (0x1EC7, [0x1EC6]);
    (0x1EC9, [0x1EC8]); (0x1ECB, [0x1ECA]); (0x1ECD, [0x1ECC]);
    (0x1ECF, [0x1ECE]); (0x1ED1, [0x1ED0]); (0x1ED3, [0x1ED2]);
    (0x1ED5, [0x1ED4]); (0x1ED7, [0x1ED6]); (0x1ED9, [0x1ED8]);
    (0x1EDB, [0x1EDA]); (0x1EDD, [0x1EDC]); (0x1EDF, [0x1EDE]);
    (0x1EE1, [0x1EE0]); (0x1EE3, [0x1EE2]); (0x1EE5, [0x1EE4]);
    (0x1EE7, [0x1EE6]); (0x1EE9, [0x1EE8]); (0x1EEB, [0x1EEA]);
    (0x1EED, [0x1EEC]); (0x1EEF, [0x1EEE]); (0x1EF1, [0x1EF0]);
    (0x1EF3, [0x1EF2]); (0x1EF5, [0x1EF4]); (0x1EF7, [0x1EF6]);
    (0x1EF9, [0x1EF8]); (0x1EFB, [0x1EFA]); (0x1EFD, [0x1EFC]);
    (0x1EFF, [0x1EFE]); (0x1F00, [0x1F08]); (0x1F01, [0x1F09]);
    (0x1F02, [0x1F0A]); (0x1F03, [0x1F0B]); (0x1F04, [0x1F0C]);
    (0x1F05, [0x1F0D]); (0x1F06, [0x1F0E]); (0x1F07, [0x1F0F]);
    (0x1F10, [0x1F18]); (0x1F11, [0x1F19]); (0x1F12, [0x1F1A]);
    (0x1F13, [0x1F1B]); (0x1F14, [0x1F1C]); (0x1F15, [0x1F1D]);
    (0x1F20, [0x1F28]); (0x1F21, [0x1F29]); (0x1F22, [0x1F2A]);
    (0x1F23, [0x1F2B]); (0x1F24, [0x1F2C]); (0x1F25, [0x1F2D]);
    (0x1F26, [0x1F2E]); (0x1F27, [0x1F2F]); (0x1F30, [0x1F38]);
    (0x1F31, [0x1F39]); (0x1F32, [0x1F3A]); (0x1F33, [0x1F3B]);
    (0x1F34, [0x1F3C]); (0x1F35, [0x1F3D]); (0x1F36, [0x1F3E]);
    (0x1F37, [0x1F3F]); (0x1F40, [0x1F48]); (0x1F41, [0x1F49]);
    (0x1F42, [0x1F4A]); (0x1F43, [0x1F4B]); (0x1F44, [0x1F4C]);
    (0x1F45, [0x1F4D]); (0x1F50, [0x3A5; 0x313]); (0x1F51, [0x1F59]);
    (0x1F52, [0x3A5; 0x313; 0x300]); (0x1F53, [0x1F5B]);
    (0x1F54, [0x3A5; 0x313; 0x301]); (0x1F55, [0x1F5D]);
    (0x1F56, [0x3A5; 0x313; 0x342]); (0x1F57, [0x1F5F]); (0x1F60, [0x1F68]);
    (0x1F61, [0x1F69]); (0x1F62, [0x1F6A]); (0x1F63, [0x1F6B]);
    (0x1F64, [0x1F6C]); (0x1F65, [0x1F6D]); (0x1F66, [0x1F6E]);
    (0x1F67, [0x1F6F]); (0x1F70, [0x1FBA]); (0x1F71, [0x1FBB]);
    (0x1F72, [0x1FC8]); (0x1F73, [0x1FC9]); (0x1F74, [0x1FCA]);
    (0x1F75, [0x1FCB]); (0x1F76, [0x1FDA]); (0x1F77, [0x1FDB]);
    (0x1F78, [0x1FF8]); (0x1F79, [0x1FF9]); (0x1F7A, [0x1FEA]);
    (0x1F7B, [0x1FEB]); (0x1F7C, [0x1FFA]); (0x1F7D, [0x1FFB]);
    (0x1F80, [0x1F08; 0x399]); (0x1F81, [0x1F09; 0x399]);
    (0x1F82, [0x1F0A; 0x399]); (0x1F83, [0x1F0B; 0x399]);
    (0x1F84, [0x1F0C; 0x399]); (0x1F85, [0x1F0D; 0x399]);
    (0x1F86, [0x1F0E; 0x399]); (0x1F87, [0x1F0F; 0x399]);
    (0x1F88, [0x1F08; 0x399]); (0x1F89, [0x1F09; 0x399]);
    (0x1F8A, [0x1F0A; 0x399]); (0x1F8B, [0x1F0B; 0x399]);
    (0x1F8C, [0x1F0C; 0x399]); (0x1F8D, [0x1F0D; 0x399]);
    (0x1F8E, [0x1F0E; 0x399]); (0x1F8F, [0x1F0F; 0x399]);
    (0x1F90, [0x1F28; 0x399]); (0x1F91, [0x1F29; 0x399]);
    (0x1F92, [0x1F2A; 0x399]); (0x1F93, [0x1F2B; 0x399]);
    (0x1F94, [0x1F2C; 0x399]); (0x1F95, [0x1F2D; 0x399]);
    (0x1F96, [0x1F2E; 0x399]); (0x1F97, [0x1F2F; 0x399]);
    (0x1F98, [0x1F28; 0x399]); (0x1F99, [0x1F29; 0x399]);
    (0x1F9A, [0x1F2A; 0x399]); (0x1F9B, [0x1F2B; 0x399]);
    (0x1F9C, [0x1F2C; 0x399]); (0x1F9D, [0x1F2D; 0x399]);
    (0x1F9E, [0x1F2E; 0x399]); (0x1F9F, [0x1F2F; 0x399]);
    (0x1FA0, [0x1F68; 0x399]); (0x1FA1, [0x1F69; 0x399]);
    (0x1FA2, [0x1F6A; 0x399]); (0x1FA3, [0x1F6B; 0x399]);
    (0x1FA4, [0x1F6C; 0x399]); (0x1FA5, [0x1F6D; 0x399]);
    (0x1FA6, [0x1F6E; 0x399]); (0x1FA7, [0x1F6F; 0x399]);
    (0x1FA8, [0x1F68; 0x399]); (0x1FA9, [0x1F69; 0x399]);
    (0x1FAA, [0x1F6A; 0x399]); (0x1FAB, [0x1F6B; 0x399]);
    (0x1FAC, [0x1F6C; 0x399]); (0x1FAD, [0x1F6D; 0x399]);
    (0x1FAE, [0x1F6E; 0x399]); (0x1FAF, [0x1F6F; 0x399]); (0x1FB0, [0x1FB8]);
    (0x1FB1, [0x1FB9]); (0x1FB2, [0x1FBA; 0x399]); (0x1FB3, [0x391; 0x399]);
    (0x1FB4, [0x386; 0x399]); (0x1FB6, [0x391; 0x342]);
    (0x1FB7, [0x391; 0x342; 0x399]); (0x1FBC, [0x391; 0x399]);
    (0x1FBE, [0x399]); (0x1FC2, [0x1FCA; 0x399]); (0x1FC3, [0x397; 0x399]);
    (0x1FC4, [0x389; 0x399]); (0x1FC6, [0x397; 0x342]);
    (0x1FC7, [0x397; 0x342; 0x399]); (0x1FCC, [0x397; 0x399]);
    (0x1FD0, [0x1FD8]); (0x1FD1, [0x1FD9]); (0x1FD2, [0x399; 0x308; 0x300]);
    (0x1FD3, [0x399; 0x308; 0x301]); (0x1FD6, [0x399; 0x342]);
    (0x1FD7, [0x399; 0x308; 0x342]); (0x1FE0, [0x1FE8]); (0x1FE1, [0x1FE9]);
    (0x1FE2, [0x3A5; 0x308; 0x300]); (0x1FE3, [0x3A5; 0x308; 0x301]);
    (0x1FE4, [0x3A1; 0x313]); (0x1FE5, [0x1FEC]); (0x1FE6, [0x3A5; 0x342]);
    (0x1FE7, [0x3A5; 0x308; 0x342]); (0x1FF2, [0x1FFA; 0x399]);
    (0x1FF3, [0x3A9; 0x399]); (0x1FF4, [0x38F; 0x399]);
    (0x1FF6, [0x3A9; 0x342]); (0x1FF7, [0x3A9; 0x342; 0x399]);
    (0x1FFC, [0x3A9; 0x399]); (0x214E, [0x2132]); (0x2170, [0x2160]);
    (0x2171, [0x2161]); (0x2172, [0x2162]); (0x2173, [0x2163]);
    (0x2174, [0x2164]); (0x2175, [0x2165]); (0x2176, [0x2166]);
    (0x2177, [0x2167]); (0x2178, [0x2168]); (0x2179, [0x2169]);
    (0x217A, [0x216A]); (0x217B, [0x216B]); (0x217C, [0x216C]);
    (0x217D, [0x216D]); (0x217E, [0x216E]); (0x217F, [0x216F]);
    (0x2184, [0x2183]); (0x24D0, [0x24B6]); (0x24D1, [0x24B7]);
    (0x24D2, [0x24B8]); (0x24D3, [0x24B9]); (0x24D4, [0x24BA]);
    (0x24D5, [0x24BB]); (0x24D6, [0x24BC]); (0x24D7, [0x24BD]);
    (0x24D8, [0x24BE]); (0x24D9, [0x24BF]); (0x24DA, [0x24C0]);
    (0x24DB, [0x24C1]); (0x24DC, [0x24C2]); (0x24DD, [0x24C3]);
    (0x24DE, [0x24C4]); (0x24DF, [0x24C5]); (0x24E0, [0x24C6]);
    (0x24E1, [0x24C7]); (0x24E2, [0x24C8]); (0x24E3, [0x24C9]);
    (0x24E4, [0x24CA]); (0x24E5, [0x24CB]); (0x24E6, [0x24CC]);
    (0x24E7, [0x24CD]); (0x24E8, [0x24CE]); (0x24E9, [0x24CF]);
    (0x2C30, [0x2C00]); (0x2C31, [0x2C01]); (0x2C32, [0x2C02]);
    (0x2C33, [0x2C03]); (0x2C34, [0x2C04]); (0x2C35, [0x2C05]);
    (0x2C36, [0x2C06]); (0x2C37, [0x2C07]); (0x2C38, [0x2C08]);
    (0x2C39, [0x2C09]); (0x2C3A, [0x2C0A]); (0x2C3B, [0x2C0B]);
    (0x2C3C, [0x2C0C]); (0x2C3D, [0x2C0D]); (0x2C3E, [0x2C0E]);
    (0x2C3F, [0x2C0F]); (0x2C40, [0x2C10]); (0x2C41, [0x2C11]);
    (0x2C42, [0x2C12]); (0x2C43, [0x2C13]); (0x2C44, [0x2C14]);
    (0x2C45, [0x2C15]); (0x2C46, [0x2C16]); (0x2C47, [0x2C17]);
    (0x2C48, [0x2C18]); (0x2C49, [0x2C19]); (0x2C4A, [0x2C1A]);
    (0x2C4B, [0x2C1B]); (0x2C4C, [0x2C1C]); (0x2C4D, [0x2C1D]);
    (0x2C4E, [0x2C1E]); (0x2C4F, [0x2C1F]); (0x2C50, [0x2C20]);
    (0x2C51, [0x2C21]); (0x2C52, [0x2C22]); (0x2C53, [0x2C23]);
    (0x2C54, [0x2C24]); (0x2C55, [0x2C25]); (0x2C56, [0x2C26]);
    (0x2C57, [0x2C27]); (0x2C58, [0x2C28]); (0x2C59, [0x2C29]);
    (0x2C5A, [0x2C2A]); (0x2C5B, [0x2C2B]); (0x2C5C, [0x2C2C]);
    (0x2C5D, [0x2C2D]); (0x2C5E, [0x2C2E]); (0x2C5F, [0x2C2F]);
    (0x2C61, [0x2C60]); (0x2C65, [0x23A]); (0x2C66, [0x23E]);
    (0x2C68, [0x2C67]); (0x2C6A, [0x2C69]); (0x2C6C, [0x2C6B]);
    (0x2C73, [0x2C72]); (0x2C76, [0x2C75]); (0x2C81, [0x2C80]);
    (0x2C83, [0x2C82]); (0x2C85, [0x2C84]); (0x2C87, [0x2C86]);
    (0x2C89, [0x2C88]); (0x2C8B, [0x2C8A]); (0x2C8D, [0x2C8C]);
    (0x2C8F, [0x2C8E]); (0x2C91, [0x2C90]); (0x2C93, [0x2C92]);
    (0x2C95, [0x2C94]); (0x2C97, [0x2C96]); (0x2C99, [0x2C98]);
    (0x2C9B, [0x2C9A]); (0x2C9D, [0x2C9C]); (0x2C9F, [0x2C9E]);
    (0x2CA1, [0x2CA0]); (0x2CA3, [0x2CA2]); (0x2CA5, [0x2CA4]);
    (0x2CA7, [0x2CA6]); (0x2CA9, [0x2CA8]); (0x2CAB, [0x2CAA]);
    (0x2CAD, [0x2CAC]); (0x2CAF, [0x2CAE]); (0x2CB1, [0x2CB0]);
    (0x2CB3, [0x2CB2]); (0x2CB5, [0x2CB4]); (0x2CB7, [0x2CB6]);
    (0x2CB9, [0x2CB8]); (0x2CBB, [0x2CBA]); (0x2CBD, [0x2CBC]);
    (0x2CBF, [0x2CBE]); (0x2CC1, [0x2CC0]); (0x2CC3, [0x2CC2]);
    (0x2CC5, [0x2CC4]); (0x2CC7, [0x2CC6]); (0x2CC9, [0x2CC8]);
    (0x2CCB, [0x2CCA]); (0x2CCD, [0x2CCC]); (0x2CCF, [0x2CCE]);
    (0x2CD1, [0x2CD0]); (0x2CD3, [0x2CD2]); (0x2CD5, [0x2CD4]);
    (0x2CD7, [0x2CD6]); (0x2CD9, [0x2CD8]); (0x2CDB, [0x2CDA]);
    (0x2CDD, [0x2CDC]); (0x2CDF, [0x2CDE]); (0x2CE1, [0x2CE0]);
    (0x2CE3, [0x2CE2]); (0x2CEC, [0x2CEB]); (0x2CEE, [0x2CED]);
    (0x2CF3, [0x2CF2]); (0x2D00, [0x10A0]); (0x2D01, [0x10A1]);
    (0x2D02, [0x10A2]); (0x2D03, [0x10A3]); (0x2D04, [0x10A4]);
    (0x2D05, [0x10A5]); (0x2D06, [0x10A6]); (0x2D07, [0x10A7]);
    (0x2D08, [0x10A8]); (0x2D09, [0x10A9]); (0x2D0A, [0x10AA]);
    (0x2D0B, [0x10AB]); (0x2D0C, [0x10AC]); (0x2D0D, [0x10AD]);
    (0x2D0E, [0x10AE]); (0x2D0F, [0x10AF]); (0x2D10, [0x10B0]);
    (0x2D11, [0x10B1]); (0x2D12, [0x10B2]); (0x2D13, [0x10B3]);
    (0x2D14, [0x10B4]); (0x2D15, [0x10B5]); (0x2D16, [0x10B6]);
    (0x2D17, [0x10B7]); (0x2D18, [0x10B8]); (0x2D19, [0x10B9]);
    (0x2D1A, [0x10BA]); (0x2D1B, [0x10BB]); (0x2D1C, [0x10BC]);
    (0x2D1D, [0x10BD]); (0x2D1E, [0x10BE]); (0x2D1F, [0x10BF]);
    (0x2D20, [0x10C0]); (0x2D21, [0x10C1]); (0x2D22, [0x10C2]);
    (0x2D23, [0x10C3]); (0x2D24, [0x10C4]); (0x2D25, [0x10C5]);
    (0x2D27, [0x10C7]); (0x2D2D, [0x10CD]); (0xA641, [0xA640]);
    (0xA643, [0xA642]); (0xA645, [0xA644]); (0xA647, [0xA646]);
    (0xA649, [0xA648]); (0xA64B, [0xA64A]); (0xA64D, [0xA64C]);
    (0xA64F, [0xA64E]); (0xA651, [0xA650]); (0xA653, [0xA652]);
    (0xA655, [0xA654]); (0xA657, [0xA656]); (0xA659, [0xA658]);
    (0xA65B, [0xA65A]); (0xA65D, [0xA65C]); (0xA65F, [0xA65E]);
    (0xA661, [0xA660]); (0xA663, [0xA662]); (0xA665, [0xA664]);
    (0xA667, [0xA666]); (0xA669, [0xA668]); (0xA66B, [0xA66A]);
    (0xA66D, [0xA66C]); (0xA681, [0xA680]); (0xA683, [0xA682]);
    (0xA685, [0xA684]); (0xA687, [0xA686]); (0xA689, [0xA688]);
    (0xA68B, [0xA68A]); (0xA68D, [0xA68C]); (0xA68F, [0xA68E]);
    (0xA691, [0xA690]); (0xA693, [0xA692]); (0xA695, [0xA694]);
    (0xA697, [0xA696]); (0xA699, [0xA698]); (0xA69B, [0xA69A]);
    (0xA723, [0xA722]); (0xA725, [0xA724]); (0xA727, [0xA726]);
    (0xA729, [0xA728]); (0xA72B, [0xA72A]); (0xA72D, [0xA72C]);
    (0xA72F, [0xA72E]); (0xA733, [0xA732]); (0xA735, [0xA734]);
    (0xA737, [0xA736]); (0xA739, [0xA738]); (0xA73B, [0xA73A]);
    (0xA73D, [0xA73C]); (0xA73F, [0xA73E]); (0xA741, [0xA740]);
    (0xA743, [0xA742]); (0xA745, [0xA744]); (0xA747, [0xA746]);
    (0xA749, [0xA748]); (0xA74B, [0xA74A]); (0xA74D, [0xA74C]);
    (0xA74F, [0xA74E]); (0xA751, [0xA750]); (0xA753, [0xA752]);
    (0xA755, [0xA754]); (0xA757, [0xA756]); (0xA759, [0xA758]);
    (0xA75B, [0xA75A]); (0xA75D, [0xA75C]); (0xA75F, [0xA75E]);
    (0xA761, [0xA760]); (0xA763, [0xA762]); (0xA765, [0xA764]);
    (0xA767, [0xA766]); (0xA769, [0xA768]); (0xA76B, [0xA76A]);
    (0xA76D, [0xA76C]); (0xA76F, [0xA76E]); (0xA77A, [0xA779]);
    (0xA77C, [0xA77B]); (0xA77F, [0xA77E]); (0xA781, [0xA780]);
    (0xA783, [0xA782]); (0xA785, [0xA784]); (0xA787, [0xA786]);
    (0xA78C, [0xA78B]); (0xA791, [0xA790]); (0xA793, [0xA792]);
    (0xA794, [0xA7C4]); (0xA797, [0xA796]); (0xA799, [0xA798]);
    (0xA79B, [0xA79A]); (0xA79D, [0xA79C]); (0xA79F, [0xA79E]);
    (0xA7A1, [0xA7A0]); (0xA7A3, [0xA7A2]); (0xA7A5, [0xA7A4]);
    (0xA7A7, [0xA7A6]); (0xA7A9, [0xA7A8]); (0xA7B5, [0xA7B4]);
    (0xA7B7, [0xA7B6]); (0xA7B9, [0xA7B8]); (0xA7BB, [0xA7BA]);
    (0xA7BD, [0xA7BC]); (0xA7BF, [0xA7BE]); (0xA7C1, [0xA7C0]);
    (0xA7C3, [0xA7C2]); (0xA7C8, [0xA7C7]); (0xA7CA, [0xA7C9]);
    (0xA7D1, [0xA7D0]); (0xA7D7, [0xA7D6]); (0xA7D9, [0xA7D8]);
    (0xA7F6, [0xA7F5]); (0xAB53, [0xA7B3]); (0xAB70, [0x13A0]);
    (0xAB71, [0x13A1]); (0xAB72, [0x13A2]); (0xAB73, [0x13A3]);
    (0xAB74, [0x13A4]); (0xAB75, [0x13A5]); (0xAB76, [0x13A6]);
    (0xAB77, [0x13A7]); (0xAB78, [0x13A8]); (0xAB79, [0x13A9]);
    (0xAB7A, [0x13AA]); (0xAB7B, [0x13AB]); (0xAB7C, [0x13AC]);
    (0xAB7D, [0x13AD]); (0xAB7E, [0x13AE]); (0xAB7F, [0x13AF]);
    (0xAB80, [0x13B0]); (0xAB81, [0x13B1]); (0xAB82, [0x13B2]);
    (0xAB83, [0x13B3]); (0xAB84, [0x13B4]); (0xAB85, [0x13B5]);
    (0xAB86, [0x13B6]); (0xAB87, [0x13B7]); (0xAB88, [0x13B8]);
    (0xAB89, [0x13B9]); (0xAB8A, [0x13BA]); (0xAB8B, [0x13BB]);
    (0xAB8C, [0x13BC]); (0xAB8D, [0x13BD]); (0xAB8E, [0x13BE]);
    (0xAB8F, [0x13BF]); (0xAB90, [0x13C0]); (0xAB91, [0x13C1]);
    (0xAB92, [0x13C2]); (0xAB93, [0x13C3]); (0xAB94, [0x13C4]);
    (0xAB95, [0x13C5]); (0xAB96, [0x13C6]); (0xAB97, [0x13C7]);
    (0xAB98, [0x13C8]); (0xAB99, [0x13C9]); (0xAB9A, [0x13CA]);
    (0xAB9B, [0x13CB]); (0xAB9C, [0x13CC]); (0xAB9D, [0x13CD]);
    (0xAB9E, [0x13CE]); (0xAB9F, [0x13CF]); (0xABA0, [0x13D0]);
    (0xABA1, [0x13D1]); (0xABA2, [0x13D2]); (0xABA3, [0x13D3]);
    (0xABA4, [0x13D4]); (0xABA5, [0x13D5]); (0xABA6, [0x13D6]);
    (0xABA7, [0x13D7]); (0xABA8, [0x13D8]); (0xABA9, [0x13D9]);
    (0xABAA, [0x13DA]); (0xABAB, [0x13DB]); (0xABAC, [0x13DC]);
    (0xABAD, [0x13DD]); (0xABAE, [0x13DE]); (0xABAF, [0x13DF]);
    (0xABB0, [0x13E0]); (0xABB1, [0x13E1]); (0xABB2, [0x13E2]);
    (0xABB3, [0x13E3]); (0xABB4, [0x13E4]); (0xABB5, [0x13E5]);
    (0xABB6, [0x13E6]); (0xABB7, [0x13E7]); (0xABB8, [0x13E8]);
    (0xABB9, [0x13E9]); (0xABBA, [0x13EA]); (0xABBB, [0x13EB]);
    (0xABBC, [0x13EC]); (0xABBD, [0x13ED]); (0xABBE, [0x13EE]);
    (0xABBF, [0x13EF]); (0xFB00, [0x46; 0x46]); (0xFB01, [0x46; 0x49]);
    (0xFB02, [0x46; 0x4C]); (0xFB03, [0x46; 0x46; 0x49]);
    (0xFB04, [0x46; 0x46; 0x4C]); (0xFB05, [0x53; 0x54]);
    (0xFB06, [0x53; 0x54]); (0xFB13, [0x544; 0x546]); (0xFB14, [0x544; 0x535]);
    (0xFB15, [0x544; 0x53B]); (0xFB16, [0x54E; 0x546]);
    (0xFB17, [0x544; 0x53D]); (0xFF41, [0xFF21]); (0xFF42, [0xFF22]);
    (0xFF43, [0xFF23]); (0xFF44, [0xFF24]); (0xFF45, [0xFF25]);
    (0xFF46, [0xFF26]); (0xFF47, [0xFF27]); (0xFF48, [0xFF28]);
    (0xFF49, [0xFF29]); (0xFF4A, [0xFF2A]); (0xFF4B, [0xFF2B]);
    (0xFF4C, [0xFF2C]); (0xFF4D, [0xFF2D]); (0xFF4E, [0xFF2E]);
    (0xFF4F, [0xFF2F]); (0xFF50, [0xFF30]); (0xFF51, [0xFF31]);
    (0xFF52, [0xFF32]); (0xFF53, [0xFF33]); (0xFF54, [0xFF34]);
    (0xFF55, [0xFF35]); (0xFF56, [0xFF36]); (0xFF57, [0xFF37]);
    (0xFF58, [0xFF38]); (0xFF59, [0xFF39]); (0xFF5A, [0xFF3A]);
    (0x10428, [0x10400]); (0x10429, [0x10401]); (0x1042A, [0x10402]);
    (0x1042B, [0x10403]); (0x1042C, [0x10404]); (0x1042D, [0x10405]);
    (0x1042E, [0x10406]); (0x1042F, [0x10407]); (0x10430, [0x10408]);
    (0x10431, [0x10409]); (0x10432, [0x1040A]); (0x10433, [0x1040B]);
    (0x10434, [0x1040C]); (0x10435, [0x1040D]); (0x10436, [0x1040E]);
    (0x10437, [0x1040F]); (0x10438, [0x10410]); (0x10439, [0x10411]);
    (0x1043A, [0x10412]); (0x1043B, [0x10413]); (0x1043C, [0x10414]);
    (0x1043D, [0x10415]); (0x1043E, [0x10416]); (0x1043F, [0x10417]);
    (0x10440, [0x10418]); (0x10441, [0x10419]); (0x10442, [0x1041A]);
    (0x10443, [0x1041B]); (0x10444, [0x1041C]); (0x10445, [0x1041D]);
    (0x10446, [0x1041E]); (0x10447, [0x1041F]); (0x10448, [0x10420]);
    (0x10449, [0x10421]); (0x1044A, [0x10422]); (0x1044B, [0x10423]);
    (0x1044C, [0x10424]); (0x1044D, [0x10425]); (0x1044E, [0x10426]);
    (0x1044F, [0x10427]); (0x104D8, [0x104B0]); (0x104D9, [0x104B1]);
    (0x104DA, [0x104B2]); (0x104DB, [0x104B3]); (0x104DC, [0x104B4]);
    (0x104DD, [0x104B5]); (0x104DE, [0x104B6]); (0x104DF, [0x104B7]);
    (0x104E0, [0x104B8]); (0x104E1, [0x104B9]); (0x104E2, [0x104BA]);
    (0x104E3, [0x104BB]); (0x104E4, [0x104BC]); (0x104E5, [0x104BD]);
    (0x104E6, [0x104BE]); (0x104E7, [0x104BF]); (0x104E8, [0x104C0]);
    (0x104E9, [0x104C1]); (0x104EA, [0x104C2]); (0x104EB, [0x104C3]);
    (0x104EC, [0x104C4]); (0x104ED, [0x104C5]); (0x104EE, [0x104C6]);
    (0x104EF, [0x104C7]); (0x104F0, [0x104C8]); (0x104F1, [0x104C9]);
    (0x104F2, [0x104CA]); (0x104F3, [0x104CB]); (0x104F4, [0x104CC]);
    (0x104F5, [0x104CD]); (0x104F6, [0x104CE]); (0x104F7, [0x104CF]);
    (0x104F8, [0x104D0]); (0x104F9, [0x104D1]); (0x104FA, [0x104D2]);
    (0x104FB, [0x104D3]); (0x10597, [0x10570]); (0x10598, [0x10571]);
    (0x10599, [0x10572]); (0x1059A, [0x10573]); (0x1059B, [0x10574]);
    (0x1059C, [0x10575]); (0x1059D, [0x10576]); (0x1059E, [0x10577]);
    (0x1059F, [0x10578]); (0x105A0, [0x10579]); (0x105A1, [0x1057A]);
    (0x105A3, [0x1057C]); (0x105A4, [0x1057D]); (0x105A5, [0x1057E]);
    (0x105A6, [0x1057F]); (0x105A7, [0x10580]); (0x105A8, [0x10581]);
    (0x105A9, [0x10582]); (0x105AA, [0x10583]); (0x105AB, [0x10584]);
    (0x105AC, [0x10585]); (0x105AD, [0x10586]); (0x105AE, [0x10587]);
    (0x105AF, [0x10588]); (0x105B0, [0x10589]); (0x105B1, [0x1058A]);
    (0x105B3, [0x1058C]); (0x105B4, [0x1058D]); (0x105B5, [0x1058E]);
    (0x105B6, [0x1058F]); (0x105B7, [0x10590]); (0x105B8, [0x10591]);
    (0x105B9, [0x10592]); (0x105BB, [0x10594]); (0x105BC, [0x10595]);
    (0x10CC0, [0x10C80]); (0x10CC1, [0x10C81]); (0x10CC2, [0x10C82]);
    (0x10CC3, [0x10C83]); (0x10CC4, [0x10C84]); (0x10CC5, [0x10C85]);
    (0x10CC6, [0x10C86]); (0x10CC7, [0x10C87]); (0x10CC8, [0x10C88]);
    (0x10CC9, [0x10C89]); (0x10CCA, [0x10C8A]); (0x10CCB, [0x10C8B]);
    (0x10CCC, [0x10C8C]); (0x10CCD, [0x10C8D]); (0x10CCE, [0x10C8E]);
    (0x10CCF, [0x10C8F]); (0x10CD0, [0x10C90]); (0x10CD1, [0x10C91]);
    (0x10CD2, [0x10C92]); (0x10CD3, [0x10C93]); (0x10CD4, [0x10C94]);
    (0x10CD5, [0x10C95]); (0x10CD6, [0x10C96]); (0x10CD7, [0x10C97]);
    (0x10CD8, [0x10C98]); (0x10CD9, [0x10C99]); (0x10CDA, [0x10C9A]);
    (0x10CDB, [0x10C9B]); (0x10CDC, [0x10C9C]); (0x10CDD, [0x10C9D]);
    (0x10CDE, [0x10C9E]); (0x10CDF, [0x10C9F]); (0x10CE0, [0x10CA0]);
    (0x10CE1, [0x10CA1]); (0x10CE2, [0x10CA2]); (0x10CE3, [0x10CA3]);
    (0x10CE4, [0x10CA4]); (0x10CE5, [0x10CA5]); (0x10CE6, [0x10CA6]);
    (0x10CE7, [0x10CA7]); (0x10CE8, [0x10CA8]); (0x10CE9, [0x10CA9]);
    (0x10CEA, [0x10CAA]); (0x10CEB, [0x10CAB]); (0x10CEC, [0x10CAC]);
    (0x10CED, [0x10CAD]); (0x10CEE, [0x10CAE]); (0x10CEF, [0x10CAF]);
    (0x10CF0, [0x10CB0]); (0x10CF1, [0x10CB1]); (0x10CF2, [0x10CB2]);
    (0x118C0, [0x118A0]); (0x118C1, [0x118A1]); (0x118C2, [0x118A2]);
    (0x118C3, [0x118A3]); (0x118C4, [0x118A4]); (0x118C5, [0x118A5]);
    (0x118C6, [0x118A6]); (0x118C7, [0x118A7]); (0x118C8, [0x118A8]);
    (0x118C9, [0x118A9]); (0x118CA, [0x118AA]); (0x118CB, [0x118AB]);
    (0x118CC, [0x118AC]); (0x118CD, [0x118AD]); (0x118CE, [0x118AE]);
    (0x118CF, [0x118AF]); (0x118D0, [0x118B0]); (0x118D1, [0x118B1]);
    (0x118D2, [0x118B2]); (0x118D3, [0x118B3]); (0x118D4, [0x118B4]);
    (0x118D5, [0x118B5]); (0x118D6, [0x118B6]); (0x118D7, [0x118B7]);
    (0x118D8, [0x118B8]); (0x118D9, [0x118B9]); (0x118DA, [0x118BA]);
    (0x118DB, [0x118BB]); (0x118DC, [0x118BC]); (0x118DD, [0x118BD]);
    (0x118DE, [0x118BE]); (0x118DF, [0x118BF]); (0x16E60, [0x16E40]);
    (0x16E61, [0x16E41]); (0x16E62, [0x16E42]); (0x16E63, [0x16E43]);
    (0x16E64, [0x16E44]); (0x16E65, [0x16E45]); (0x16E66, [0x16E46]);
    (0x16E67, [0x16E47]); (0x16E68, [0x16E48]); (0x16E69, [0x16E49]);
    (0x16E6A, [0x16E4A]); (0x16E6B, [0x16E4B]); (0x16E6C, [0x16E4C]);
    (0x16E6D, [0x16E4D]); (0x16E6E, [0x16E4E]); (0x16E6F, [0x16E4F]);
    (0x16E70, [0x16E50]); (0x16E71, [0x16E51]); (0x16E72, [0x16E52]);
    (0x16E73, [0x16E53]); (0x16E74, [0x16E54]); (0x16E75, [0x16E55]);
    (0x16E76, [0x16E56]); (0x16E77, [0x16E57]); (0x16E78, [0x16E58]);
    (0x16E79, [0x16E59]); (0x16E7A, [0x16E5A]); (0x16E7B, [0x16E5B]);
    (0x16E7C, [0x16E5C]); (0x16E7D, [0x16E5D]); (0x16E7E, [0x16E5E]);
    (0x16E7F, [0x16E5F]); (0x1E922, [0x1E900]); (0x1E923, [0x1E901]);
    (0x1E924, [0x1E902]); (0x1E925, [0x1E903]); (0x1E926, [0x1E904]);
    (0x1E927, [0x1E905]); (0x1E928, [0x1E906]); (0x1E929, [0x1E907]);
    (0x1E92A, [0x1E908]); (0x1E92B, [0x1E909]); (0x1E92C, [0x1E90A]);
    (0x1E92D, [0x1E90B]); (0x1E92E, [0x1E90C]); (0x1E92F, [0x1E90D]);
    (0x1E930, [0x1E90E]); (0x1E931, [0x1E90F]); (0x1E932, [0x1E910]);
    (0x1E933, [0x1E911]); (0x1E934, [0x1E912]); (0x1E935, [0x1E913]);
    (0x1E936, [0x1E914]); (0x1E937, [0x1E915]); (0x1E938, [0x1E916]);
    (0x1E939, [0x1E917]); (0x1E93A, [0x1E918]); (0x1E93B, [0x1E919]);
    (0x1E93C, [0x1E91A]); (0x1E93D, [0x1E91B]); (0x1E93E, [0x1E91C]);
    (0x1E93F, [0x1E91D]); (0x1E940, [0x1E91E]); (0x1E941, [0x1E91F]);
    (0x1E942, [0x1E920]); (0x1E943, [0x1E921])
  ]%N.

(** The upper-case form of the character whose bytes are [k], when
    upper-casing changes it. *)
Definition upperOf (k : string) : option string :=
  let cp := codePoint k in
  if String.eqb (utf8 cp) k then
    match find (fun e => N.eqb (fst e) cp) upperCaseTable with
    | Some e => Some (String.concat EmptyString (map utf8 (snd e)))
    | None => None
    end
  else None.

(** [s.toUpperCase()]: an ASCII character is one byte; a character of two,
    three or four bytes that has an upper-case form is replaced by it; any
    other byte is kept. *)
Fixpoint toUpperCase (s : string) : string :=
  match s with
  | EmptyString => EmptyString
  | String b1 r1 =>
      let keep := String b1 (toUpperCase r1) in
      if (N_of_ascii b1 <? 128)%N then String (upperChar b1) (toUpperCase r1)
      else
        match r1 with
        | String b2 r2 =>
            match upperOf (String b1 (String b2 EmptyString)) with
            | Some u => (u ++ toUpperCase r2)%string
            | None =>
                match r2 with
                | String b3 r3 =>
                    match upperOf (String b1 (String b2 (String b3 EmptyString))) with
                    | Some u => (u ++ toUpperCase r3)%string
                    | None =>
                        match r3 with
                        | String b4 r4 =>
                            match upperOf (String b1 (String b2
                                             (String b3 (String b4 EmptyString)))) with
                            | Some u => (u ++ toUpperCase r4)%string
                            | None => keep
                            end
                        | EmptyString => keep
                        end
                    end
                | EmptyString => keep
                end
            end
        | EmptyString => keep
        end
  end.

(** [s.includes(k)] *)
Fixpoint includes (s k : string) : bool :=
  String.prefix k s ||
  match s with
  | EmptyString => false
  | String _ rest => includes rest k
  end.

(** [a[i] || ""] on an array of strings: a missing element is
    [undefined], which is falsy like the empty string. *)
Definition at_or_empty (a : list string) (i : nat) : string :=
  nth i a EmptyString.

End JsString.

(** ** Numbers *)

Module JsNumber.

Local Open Scope Z_scope.
Local Open Scope string_scope.

Definition prec : Z := 53.
Definition emax : Z := 1024.

Definition number : Type := spec_float.

(** [Number.isNaN(x)] *)
Definition isNaN (x : number) : bool :=
  match x with S754_nan => true | _ => false end.

(** [Number.isFinite(x)] *)
Definition isFinite (x : number) : bool :=
  match x with S754_zero _ | S754_finite _ _ _ => true | _ => false end.

Definition number_eqb (x y : number) : bool :=
  match x, y with
  | S754_zero a, S754_zero b => Bool.eqb a b
  | S754_infinity a, S754_infinity b => Bool.eqb a b
  | S754_nan, S754_nan => true
  | S754_finite a m e, S754_finite b n f =>
      Bool.eqb a b && Pos.eqb m n && Z.eqb e f
  | _, _ => false
  end.

(** The number nearest to [(-1)^s * m * 10^e10] (ties to even), the
    value a decimal literal denotes. *)
Definition ofDecimal (s : bool) (m : Z) (e10 : Z) : number :=
  match m with
  | Zpos p =>
      if Z.leb 0 e10
      then binary_round prec emax s (Pos.mul p (Z.to_pos (10 ^ e10))) 0
      else let '(q, e, l) :=
             SFdiv_core_binary prec emax (Zpos p) 0 (10 ^ (- e10)) 0 in
           binary_round_aux prec emax s q e l
  | _ => S754_zero s
  end.

Definition isDigit (c : ascii) : bool :=
  let n := N_of_ascii c in N.leb 48 n && N.leb n 57.

Definition digitVal (c : ascii) : Z := Z.of_N (N_of_ascii c) - 48.

(** The longest run of decimal digits at the head of [s]: the value it
    adds to [acc], how many digits were read, and the rest. *)
Fixpoint digits (s : string) (acc : Z) (n : Z) : Z * Z * string :=
  match s with
  | String c rest =>
      if isDigit c then digits rest (10 * acc + digitVal c) (n + 1)
      else (acc, n, s)
  | EmptyString => (acc, n, s)
  end.

(** An exponent part [e], [e+] or [e-] followed by at least one digit;
    0 when there is none. *)
Definition exponentPart (s : string) : Z :=
  match s with
  | String c rest =>
      if Ascii.eqb c "e" || Ascii.eqb c "E" then
        match rest with
        | String "+" r =>
            let '(v, n, _) := digits r 0 0 in if Z.eqb n 0 then 0 else v
        | String "-" r =>
            let '(v, n, _) := digits r 0 0 in if Z.eqb n 0 then 0 else - v
        | _ =>
            let '(v, n, _) := digits rest 0 0 in if Z.eqb n 0 then 0 else v
        end
      else 0
  | EmptyString => 0
  end.

(** The longest prefix that is a StrUnsignedDecimalLiteral, with sign
    [s]; NaN when there is none. *)
Definition unsignedLiteral (s : bool) (str : string) : number :=
  if String.prefix "Infinity" str then S754_infinity s
  else
    let '(ip, ni, r1) := digits str 0 0 in
    let '(m, nf, r2) :=
      match r1 with
      | String "." r => digits r ip 0
      | _ => (ip, 0%Z, r1)
      end in
    if Z.eqb ni 0 && Z.eqb nf 0 then S754_nan
    else ofDecimal s m (exponentPart r2 - nf).

(** [parseFloat(str)] *)
Definition parseFloat (str : string) : number :=
  match JsString.trimStart str with
  | String "+" r => unsignedLiteral false r
  | String "-" r => unsignedLiteral true r
  | t => unsignedLiteral false t
  end.

(** Decimal digits of a non-negative integer. *)
Definition decimal (n : Z) : string :=
  NilEmpty.string_of_uint (N.to_uint (Z.to_N n)).

Definition digitChar (n : Z) : ascii := ascii_of_N (48 + Z.to_N n).

(** [n / 1000] written with exactly three decimals, for [0 <= n]. *)
Definition fixed3 (n : Z) : string :=
  let f := n mod 1000 in
  decimal (n / 1000) ++ "." ++
  String (digitChar (f / 100))
    (String (digitChar (f / 10 mod 10))
       (String (digitChar (f mod 10)) EmptyString)).

(** Candidates [(n, s, s * 10^(n-k))] of Number::toString with [k]
    digits for the integer [v], whose nearest number is [x] and which has
    [d] decimal digits: [10^(k-1) <= s < 10^k] and [s * 10^(n-k)] reads
    back as [x]. *)
Definition candidates (x : number) (v d k : Z) : list (Z * Z * Z) :=
  let lo := v / 10 ^ (d - k) in
  filter
    (fun c : Z * Z * Z =>
       let '(_, s, w) := c in
       Z.leb (10 ^ (k - 1)) s && Z.ltb s (10 ^ k) &&
       number_eqb (binary_normalize prec emax w 0 false) x)
    [ (d, lo, lo * 10 ^ (d - k));
      (d, lo + 1, (lo + 1) * 10 ^ (d - k));
      (d + 1, 10 ^ (k - 1), 10 ^ d) ].

(** Of two candidates the one closer to [v]; the even [s] on a tie. *)
Definition closer (v : Z) (a b : Z * Z * Z) : Z * Z * Z :=
  let '(_, sa, wa) := a in
  let '(_, _, wb) := b in
  match Z.compare (Z.abs (wa - v)) (Z.abs (wb - v)) with
  | Lt => a
  | Gt => b
  | Eq => if Z.even sa then a else b
  end.

Definition best (v : Z) (cs : list (Z * Z * Z)) : option (Z * Z * Z) :=
  match cs with
  | [] => None
  | c :: rest => Some (fold_left (closer v) rest c)
  end.

(** The shortest digit string: the least [k] in [ks] that has a
    candidate, and all the digits of [v] (which read back exactly) when
    none has. *)
Fixpoint shortest (x : number) (v d : Z) (ks : list Z) : Z * Z :=
  match ks with
  | [] => (d, v)
  | k :: rest =>
      match best v (candidates x v d k) with
      | Some (n, s, _) => (n, s)
      | None => shortest x v d rest
      end
  end.

(** Number::toString for a positive integer value [v >= 10^21] whose
    nearest number is [x]: always the exponent form. *)
Definition toStringLarge (x : number) (v : Z) : string :=
  let d := Z.of_nat (String.length (decimal v)) in
  let '(n, s) := shortest x v d (map Z.of_nat (seq 1 17)) in
  match decimal s with
  | String c EmptyString => String c ("e+" ++ decimal (n - 1))
  | String c rest => String c ("." ++ rest ++ "e+" ++ decimal (n - 1))
  | EmptyString => EmptyString
  end.

(** Number::toString for a positive integer value [v < 10^21] whose
    nearest number is [x]: the shortest digit string, then zeros up to the
    units. *)
Definition toStringInteger (x : number) (v : Z) : string :=
  let d := Z.of_nat (String.length (decimal v)) in
  let '(n, s) := shortest x v d (map Z.of_nat (seq 1 17)) in
  let ds := decimal s in
  ds ++ string_of_list_ascii (repeat "0"%char (Z.to_nat n - String.length ds)).

Definition signString (s : bool) : string := if s then "-" else "".

(** [x.toFixed(3)] *)
Definition toFixed3 (x : number) : string :=
  match x with
  | S754_nan => "NaN"
  | S754_infinity s => signString s ++ "Infinity"
  | S754_zero _ => "0.000"
  | S754_finite s m e =>
      let num := Zpos m * 2 ^ Z.max e 0 in
      let den := 2 ^ Z.max (- e) 0 in
      signString s ++
      (if Z.leb (10 ^ 21 * den) num
       then toStringLarge (binary_round prec emax false m e) (num / den)
       else fixed3 ((2000 * num + den) / (2 * den)))
  end.

End JsNumber.

Import JsString JsNumber.

Definition LF : ascii := ascii_of_nat 10.
Definition TAB : ascii := ascii_of_nat 9.

(** ** Category Classifier *)

Inductive Category : Type :=
  war | crime | politics | entertainment | disaster | sports | tech | economy.

Definition cat_eqb (a b : Category) : bool :=
  match a, b with
  | war, war | crime, crime | politics, politics
  | entertainment, entertainment | disaster, disaster
  | sports, sports | tech, tech | economy, economy => true
  | _, _ => false
  end.

Record Rule : Type := { cat : Category; inc : list string }.

Definition RULES : list Rule :=
  [ {| cat := war; inc := ["WAR"; "MILITARY"; "ARMS"; "CONFLICT"; "TERROR"] |};
    {| cat := crime; inc := ["CRIME"; "KIDNAP"; "MURDER"; "ARREST"; "CORRUPTION"] |};
    {| cat := politics; inc := ["ELECTION"; "POLITICS"; "GOVERNMENT"; "PROTEST"] |};
    {| cat := entertainment; inc := ["ENTERTAINMENT"; "CELEBRITY"; "FILM"; "MUSIC"] |};
    {| cat := disaster;
       inc := ["NATURAL_DISASTER"; "EARTHQUAKE"; "FLOOD"; "HURRICANE"; "WILDFIRE"] |};
    {| cat := sports; inc := ["SPORTS"; "SOCCER"; "BASKETBALL"; "OLYMPICS"] |};
    {| cat := tech; inc := ["TECH"; "AI"; "CYBERSECURITY"] |};
    {| cat := economy; inc := ["ECONOMY"; "MARKETS"; "INFLATION"; "JOBS"] |} ].

(** [r.inc.some(k => up.some(t => t.includes(k)))] *)
Definition ruleMatches (up : list string) (r : Rule) : bool :=
  existsb (fun k => existsb (fun t => includes t k) up) (inc r).

(** [mapThemesToCategory(themes)]: the loop over [RULES] returns at the
    first rule that matches; [None] is JavaScript's [null]. *)
Definition mapThemesToCategory (themes : list string) : option Category :=
  let up := map toUpperCase themes in
  option_map cat (find (ruleMatches up) RULES).

(** ** Record Parser *)

Record GeoMention : Type :=
  { name : string; lat : number; lon : number; country : string }.

Record EventFact : Type :=
  { themes : list string; locations : list GeoMention }.

(** The callback of [v2locs.map(...)]: [None] is the [null] that
    [.filter(Boolean)] removes afterwards. *)
Definition parseToken (tok : string) : option GeoMention :=
  let p := split "#" tok in
  let name := at_or_empty p 0 in
  let lat := parseFloat (or_else (at_or_empty p 4) "0") in
  let lon := parseFloat (or_else (at_or_empty p 5) "0") in
  let country := at_or_empty p 2 in
  if negb (truthy name) || isNaN lat || isNaN lon then None
  else Some {| name := name; lat := lat; lon := lon; country := country |}.

(** [.filter(Boolean)] on the result of the map. *)
Fixpoint filterSome {A : Type} (l : list (option A)) : list A :=
  match l with
  | [] => []
  | Some a :: rest => a :: filterSome rest
  | None :: rest => filterSome rest
  end.

(** [(cols[i] || "").split(";").filter(Boolean)] *)
Definition field (cols : list string) (i : nat) : list string :=
  filter truthy (split ";" (at_or_empty cols i)).

(** The body of the loop over the rows: the fact pushed for one row. *)
Definition factOfCols (cols : list string) : EventFact :=
  {| themes := field cols 4;
     locations := filterSome (map parseToken (field cols 8)) |}.

(** [data.trim().split("\n").map(line => line.split("\t"))] *)
Definition rowsOf (data : string) : list (list string) :=
  map (split TAB) (split LF (trim data)).

(** What [fetchGKGLastHour] computes from the text it fetched. *)
Definition parseGKG (data : string) : list EventFact :=
  map factOfCols (rowsOf data).

(** ** Place Aggregator *)

Record PlaceBucket : Type :=
  { p_name : string; p_lat : number; p_lon : number; p_country : string;
    counts : list (Category * nat) }.

(** A [Map] with string keys, in insertion order. *)
Definition Buckets : Type := list (string * PlaceBucket).

Fixpoint map_get (id : string) (m : Buckets) : option PlaceBucket :=
  match m with
  | [] => None
  | (k, v) :: rest => if String.eqb k id then Some v else map_get id rest
  end.

(** [m.set(id, v)]: an existing key keeps its place in the order. *)
Fixpoint map_set (id : string) (v : PlaceBucket) (m : Buckets) : Buckets :=
  match m with
  | [] => [(id, v)]
  | (k, x) :: rest =>
      if String.eqb k id then (k, v) :: rest else (k, x) :: map_set id v rest
  end.

(** [counts[cat] = (counts[cat] || 0) + 1] *)
Fixpoint increment (c : Category) (cs : list (Category * nat))
  : list (Category * nat) :=
  match cs with
  | [] => [(c, 1)]
  | (k, n) :: rest =>
      if cat_eqb k c then (k, n + 1) :: rest else (k, n) :: increment c rest
  end.

(** The template literal that is the aggregation key. *)
Definition bucketKey (loc : GeoMention) : string :=
  (toFixed3 (lat loc) ++ "," ++ toFixed3 (lon loc) ++ ":" ++ name loc)%string.

Definition freshBucket (loc : GeoMention) : PlaceBucket :=
  {| p_name := name loc; p_lat := lat loc; p_lon := lon loc;
     p_country := or_else (country loc) ""; counts := [] |}.

Definition bump (c : Category) (b : PlaceBucket) : PlaceBucket :=
  {| p_name := p_name b; p_lat := p_lat b; p_lon := p_lon b;
     p_country := p_country b; counts := increment c (counts b) |}.

(** The body of the inner loop of [ingestOnce], for one mention. *)
Definition addMention (c : Category) (buckets : Buckets) (loc : GeoMention)
  : Buckets :=
  let id := bucketKey loc in
  let curr := match map_get id buckets with
              | Some b => b
              | None => freshBucket loc
              end in
  map_set id (bump c curr) buckets.

(** The body of the outer loop, for one row. *)
Definition addRow (buckets : Buckets) (row : EventFact) : Buckets :=
  match mapThemesToCategory (themes row) with
  | None => buckets
  | Some c => fold_left (addMention c) (locations row) buckets
  end.

Definition aggregate (gkg : list EventFact) : Buckets :=
  fold_left addRow gkg [].

(** [[...buckets.values()]] *)
Definition values (m : Buckets) : list PlaceBucket := map snd m.

(** ** Ranker *)

(** [{ ...p, score: count }] *)
Record RankedPlace : Type := { place : PlaceBucket; score : nat }.

(** A plain object keyed by category, in insertion order. *)
Definition ByCategory (A : Type) : Type := list (Category * list A).

(** [if (!cats[cat]) cats[cat] = []; cats[cat].push(x)] *)
Fixpoint push {A : Type} (c : Category) (x : A) (m : ByCategory A)
  : ByCategory A :=
  match m with
  | [] => [(c, [x])]
  | (k, l) :: rest =>
      if cat_eqb k c then (k, l ++ [x]) :: rest else (k, l) :: push c x rest
  end.

(** [_.orderBy(l, ["score"], ["desc"])]: lodash sorts stably, so an
    element goes in front of the first one whose score is not larger. *)
Fixpoint insertDesc (x : RankedPlace) (l : list RankedPlace)
  : list RankedPlace :=
  match l with
  | [] => [x]
  | y :: rest =>
      if score y <=? score x then x :: l else y :: insertDesc x rest
  end.

Definition orderByScoreDesc (l : list RankedPlace) : list RankedPlace :=
  fold_right insertDesc [] l.

Definition pushPlace (cats : ByCategory RankedPlace) (p : PlaceBucket)
  : ByCategory RankedPlace :=
  fold_left
    (fun cats (e : Category * nat) =>
       push (fst e) {| place := p; score := snd e |} cats)
    (counts p) cats.

Definition groupByCategory (places : list PlaceBucket)
  : ByCategory RankedPlace :=
  fold_left pushPlace places [].

Section Ranker.

(** [TOP_N]: the limit read from the environment with [parseInt]
    (default 8), a natural number. *)
Variable TOP_N : nat.

Definition rankPlaces (places : list PlaceBucket) : ByCategory RankedPlace :=
  map (fun e => (fst e, firstn TOP_N (orderByScoreDesc (snd e))))
      (groupByCategory places).

End Ranker.

(** ** Camera Enricher *)

(** The values a camera field can hold: what the providers' JSON carries
    and what optional chaining leaves behind. *)
Inductive jsval : Type :=
| JUndefined
| JNull
| JBool (b : bool)
| JNum (z : Z)
| JStr (s : string).

Definition js_truthy (v : jsval) : bool :=
  match v with
  | JUndefined | JNull => false
  | JBool b => b
  | JNum z => negb (Z.eqb z 0)
  | JStr s => truthy s
  end.

(** [a || b] *)
Definition js_or (a b : jsval) : jsval := if js_truthy a then a else b.

(** [a === b], which on these values is also the SameValueZero comparison
    of [_.uniqBy]. *)
Definition jsval_eqb (a b : jsval) : bool :=
  match a, b with
  | JUndefined, JUndefined | JNull, JNull => true
  | JBool x, JBool y => Bool.eqb x y
  | JNum x, JNum y => Z.eqb x y
  | JStr x, JStr y => String.eqb x y
  | _, _ => false
  end.

Record Camera : Type :=
  { cam_id : jsval; cam_title : jsval; cam_image : jsval; cam_player : jsval;
    cam_url : jsval; cam_source : string; cam_verified : bool }.

(** The iteratee of [_.uniqBy]: [c.url || c.player || c.id]. *)
Definition identity (c : Camera) : jsval :=
  js_or (js_or (cam_url c) (cam_player c)) (cam_id c).

(** [_.uniqBy(cams, identity)]: the first camera of each identity, in
    order; [seen] holds the identities already kept. *)
Fixpoint uniqFrom (seen : list jsval) (cams : list Camera) : list Camera :=
  match cams with
  | [] => []
  | c :: rest =>
      if existsb (jsval_eqb (identity c)) seen then uniqFrom seen rest
      else c :: uniqFrom (identity c :: seen) rest
  end.

Definition uniqBy (cams : list Camera) : list Camera := uniqFrom [] cams.

(** The search phrases of the fallback, in order. *)
Definition KWS : list string :=
  [ "live cam"; "traffic cam"; "weather cam"; "city cam"; "library cam";
    "airport cam"; "public cam"; "webcam live" ].

(** A call either returns or throws. *)
Inductive result (A : Type) : Type :=
| Ok (a : A)
| Throw (message : string).
Arguments Ok {A} a.
Arguments Throw {A} message.

(** ** Snapshot *)

(** [{ name, country, lat, lon, score }] *)
Record PlaceView : Type :=
  { v_name : string; v_country : string; v_lat : number; v_lon : number;
    v_score : nat }.

(** [{ title, url, image, source, player }] *)
Record CamView : Type :=
  { cv_title : jsval; cv_url : jsval; cv_image : jsval; cv_source : string;
    cv_player : jsval }.

(** [{ place, cams }], an element of [categories[cat]]. *)
Record Entry : Type := { e_place : PlaceView; e_cams : list CamView }.

(** [{ category: cat, ...p, cams }], an element of [places]. *)
Record PlaceRecord : Type :=
  { r_category : Category; r_place : RankedPlace; r_cams : list Camera }.

Record State : Type :=
  { updatedAt : option string;
    categories : ByCategory Entry;
    places : list PlaceRecord }.

(** [let STATE = { updatedAt: null, categories: {}, places: [] }] *)
Definition STATE0 : State :=
  {| updatedAt := None; categories := []; places := [] |}.

Definition placeView (p : RankedPlace) : PlaceView :=
  {| v_name := p_name (place p); v_country := p_country (place p);
     v_lat := p_lat (place p); v_lon := p_lon (place p); v_score := score p |}.

Definition camView (c : Camera) : CamView :=
  {| cv_title := cam_title c; cv_url := cam_url c; cv_image := cam_image c;
     cv_source := cam_source c; cv_player := cam_player c |}.

(** [categories[cat] = []] *)
Fixpoint setEmpty {A : Type} (c : Category) (m : ByCategory A) : ByCategory A :=
  match m with
  | [] => [(c, [])]
  | (k, l) :: rest =>
      if cat_eqb k c then (k, []) :: rest else (k, l) :: setEmpty c rest
  end.

Section Pipeline.

(** The outside world and the calls into it.  The two provider clients
    [windyNearby] and [ytSearch] and the feed request are taken at their
    interface: a call returns its value or throws, and moves the world
    on. *)
Variable World : Type.
Variable axiosGetFeed : World -> result string * World.
Variable windyNearby : number -> number -> World -> result (list Camera) * World.
Variable ytSearch : string -> World -> result (list Camera) * World.
(** [new Date().toISOString()] *)
Variable now : World -> string.

(** [TOP_N] and [MAX_CAMS]: the limits read from the environment with
    [parseInt] (defaults 8 and 10), natural numbers. *)
Variable TOP_N : nat.
Variable MAX_CAMS : nat.

(** [fetchGKGLastHour()]: a failed request throws; the text of a
    successful one is parsed. *)
Definition fetchGKGLastHour (w : World) : result (list EventFact) * World :=
  match axiosGetFeed w with
  | (Ok data, w1) => (Ok (parseGKG data), w1)
  | (Throw e, w1) => (Throw e, w1)
  end.

(** The loop over the results of one search:
    [if (!cams.find(x => x.url === c.url)) cams.push(c);
     if (cams.length >= MAX_CAMS) break;] *)
Fixpoint pushNew (more : list Camera) (cams : list Camera) : list Camera :=
  match more with
  | [] => cams
  | c :: rest =>
      let cams1 :=
        if existsb (fun x => jsval_eqb (cam_url x) (cam_url c)) cams
        then cams else cams ++ [c] in
      if MAX_CAMS <=? List.length cams1 then cams1 else pushNew rest cams1
  end.

(** The loop over the phrases, inside its [try { ... } catch {}]: a
    search that throws leaves the loop, and [cams] keeps what was pushed
    before. *)
Fixpoint searchLoop (placeName : string) (kws : list string)
         (cams : list Camera) (w : World) : list Camera * World :=
  match kws with
  | [] => (cams, w)
  | kw :: rest =>
      if MAX_CAMS <=? List.length cams then (cams, w)
      else
        match ytSearch (placeName ++ " " ++ kw)%string w with
        | (Ok more, w1) => searchLoop placeName rest (pushNew more cams) w1
        | (Throw _, w1) => (cams, w1)
        end
  end.

(** [try { cams = cams.concat(await windyNearby(p)); } catch {}] *)
Definition primary (p : RankedPlace) (w : World) : list Camera * World :=
  match windyNearby (p_lat (place p)) (p_lon (place p)) w with
  | (Ok cams, w1) => ([] ++ cams, w1)
  | (Throw _, w1) => ([], w1)
  end.

(** [findCamsForPlace(p)] with the phrase list [kws]. *)
Definition findCamsWith (kws : list string) (p : RankedPlace) (w : World)
  : list Camera * World :=
  let '(cams, w1) := primary p w in
  let '(cams2, w2) :=
    if List.length cams <? MAX_CAMS
    then searchLoop (p_name (place p)) kws cams w1
    else (cams, w1) in
  (firstn MAX_CAMS (uniqBy cams2), w2).

Definition findCamsForPlace : RankedPlace -> World -> list Camera * World :=
  findCamsWith KWS.

(** The loop over [placeList] for one category. *)
Fixpoint enrichPlaces (c : Category) (placeList : list RankedPlace)
         (categories : ByCategory Entry) (places : list PlaceRecord)
         (w : World) : ByCategory Entry * list PlaceRecord * World :=
  match placeList with
  | [] => (categories, places, w)
  | p :: rest =>
      let '(cams, w1) := findCamsForPlace p w in
      match cams with
      | [] => enrichPlaces c rest categories places w1
      | _ :: _ =>
          enrichPlaces c rest
            (push c {| e_place := placeView p; e_cams := map camView cams |}
                  categories)
            (places ++ [{| r_category := c; r_place := p; r_cams := cams |}])
            w1
      end
  end.

(** The loop over [Object.entries(ranked)]. *)
Fixpoint enrichAll (ranked : ByCategory RankedPlace)
         (categories : ByCategory Entry) (places : list PlaceRecord)
         (w : World) : ByCategory Entry * list PlaceRecord * World :=
  match ranked with
  | [] => (categories, places, w)
  | (c, placeList) :: rest =>
      let '(categories1, places1, w1) :=
        enrichPlaces c placeList (setEmpty c categories) places w in
      enrichAll rest categories1 places1 w1
  end.

(** [ingestOnce()], on the world and on the module variable [STATE]. *)
Definition ingestOnce (w : World) (st : State) : result unit * World * State :=
  match fetchGKGLastHour w with
  | (Throw e, w1) => (Throw e, w1, st)
  | (Ok gkg, w1) =>
      let buckets := aggregate gkg in
      let ranked := rankPlaces TOP_N (values buckets) in
      let '(categories, places, w2) := enrichAll ranked [] [] w1 in
      (Ok tt, w2,
       {| updatedAt := Some (now w2);
          categories := categories;
          places := places |})
  end.

(** The job run at boot and by the hourly schedule:
    [try { await ingestOnce(); } catch (e) { console.error(...) }]. *)
Definition runIngest (w : World) (st : State) : World * State :=
  let '(_, w1, st1) := ingestOnce w st in (w1, st1).

End Pipeline.

Arguments fetchGKGLastHour {World}.
Arguments searchLoop {World}.
Arguments primary {World}.
Arguments findCamsWith {World}.
Arguments findCamsForPlace {World}.
Arguments enrichPlaces {World}.
Arguments enrichAll {World}.
Arguments ingestOnce {World}.
Arguments runIngest {World}.

(** ** Provider clients *)

Definition isUpper (c : ascii) : bool :=
  let n := N_of_ascii c in N.leb 65 n && N.leb n 90.

Definition lowerChar (c : ascii) : ascii :=
  if isUpper c then ascii_of_N (N_of_ascii c + 32) else c.

(** [s.toLowerCase()], read where it is used: the result is compared with
    the text [active].  The ASCII letters are mapped and every other byte
    is kept; no character outside the ASCII range has a lower-case form
    made of the letters of [active], so the comparison comes out as in
    JavaScript. *)
Fixpoint toLowerCase (s : string) : string :=
  match s with
  | EmptyString => EmptyString
  | String c rest => String (lowerChar c) (toLowerCase rest)
  end.

(** Number::toString of the number nearest to the integer [z]. *)
Definition integerToString (z : Z) : string :=
  match binary_normalize prec emax z 0 false with
  | S754_finite s m e =>
      let v := (Zpos m * 2 ^ Z.max e 0 / 2 ^ Z.max (- e) 0)%Z in
      (signString s ++
       (if (10 ^ 21 <=? v)%Z then toStringLarge (S754_finite false m e) v
        else toStringInteger (S754_finite false m e) v))%string
  | S754_infinity s => (signString s ++ "Infinity")%string
  | _ => "0"
  end.

(** The string a template literal makes of a value. *)
Definition toStringJs (v : jsval) : string :=
  match v with
  | JUndefined => "undefined"
  | JNull => "null"
  | JBool true => "true"
  | JBool false => "false"
  | JNum z => integerToString z
  | JStr s => s
  end.

(** What [windyNearby] reads of one element [c] of the [webcams] array of
    a response, each field being the value of its access path:
    [c.id], [c.title], [c?.status], [c?.player?.live?.available],
    [c.image?.current?.preview], [c.player?.live?.embed],
    [c.player?.live?.link], [c.url?.current?.desktop]. *)
Record WindyWebcam : Type :=
  { ww_id : jsval; ww_title : jsval; ww_status : jsval; ww_available : jsval;
    ww_preview : jsval; ww_embed : jsval; ww_link : jsval; ww_desktop : jsval }.

(** The callback of [.filter]:
    [(c?.status || "").toLowerCase() === "active" && c?.player?.live?.available];
    [None] is the TypeError of [.toLowerCase] on a status that is truthy
    and not a string. *)
Definition isLive (c : WindyWebcam) : option bool :=
  match js_or (ww_status c) (JStr EmptyString) with
  | JStr s => Some (String.eqb (toLowerCase s) "active" && js_truthy (ww_available c))
  | _ => None
  end.

(** [.filter(...)] with that callback: the first element that throws ends
    the call. *)
Fixpoint filterLive (l : list WindyWebcam) : option (list WindyWebcam) :=
  match l with
  | [] => Some []
  | c :: rest =>
      match isLive c with
      | None => None
      | Some b =>
          match filterLive rest with
          | None => None
          | Some r => Some (if b then c :: r else r)
          end
      end
  end.

(** The callback of [.map] in [windyNearby]. *)
Definition windyCamera (c : WindyWebcam) : Camera :=
  {| cam_id := ww_id c; cam_title := ww_title c; cam_image := ww_preview c;
     cam_player := ww_embed c;
     cam_url := js_or (js_or (ww_link c) (ww_desktop c)) (JStr EmptyString);
     cam_source := "windy"; cam_verified := true |}.

(** What [ytSearch] reads of one element [v] of the [items] array:
    [v.id.videoId], absent when [v.id] is [undefined] or [null], and the
    pair of [v.snippet.title] and [v.snippet.thumbnails?.medium?.url],
    absent when [v.snippet] is. *)
Record YtItem : Type :=
  { yt_videoId : option jsval; yt_snippet : option (jsval * jsval) }.

(** The callback of [.map] in [ytSearch]; [None] is the TypeError of a
    property read on [undefined]. *)
Definition ytCamera (v : YtItem) : option Camera :=
  match yt_videoId v, yt_snippet v with
  | Some vid, Some (title, thumb) =>
      Some {| cam_id := vid; cam_title := title; cam_image := thumb;
              cam_player :=
                JStr ("https://www.youtube.com/embed/" ++ toStringJs vid);
              cam_url :=
                JStr ("https://www.youtube.com/watch?v=" ++ toStringJs vid);
              cam_source := "youtube"; cam_verified := true |}
  | _, _ => None
  end.

Fixpoint mapItems (l : list YtItem) : option (list Camera) :=
  match l with
  | [] => Some []
  | v :: rest =>
      match ytCamera v with
      | None => None
      | Some c =>
          match mapItems rest with
          | None => None
          | Some r => Some (c :: r)
          end
      end
  end.

(** A missing or falsy array of a response reads as the empty array:
    [x || []]. *)
Definition orEmpty {A : Type} (x : option (list A)) : list A :=
  match x with
  | Some l => l
  | None => []
  end.

Module Providers.
Section Clients.

Variable World : Type.

(** The two requests.  The Windy request is made for a latitude and a
    longitude (the radius and the key are constants of the process) and
    answers with [data?.result?.webcams]; the YouTube request is made for
    a query and answers with [data?.items].  A present array is an array
    of the elements described above. *)
Variable windyGet :
  number -> number -> World -> result (option (list WindyWebcam)) * World.
Variable ytGet : string -> World -> result (option (list YtItem)) * World.

(** [WINDY_KEY] and [YT_KEY], empty when the environment has none. *)
Variable WINDY_KEY : string.
Variable YT_KEY : string.
Variable MAX_CAMS : nat.

(** [windyNearby({ lat, lon })] *)
Definition windyNearby (lat lon : number) (w : World)
  : result (list Camera) * World :=
  if negb (truthy WINDY_KEY) then (Ok [], w)
  else
    match windyGet lat lon w with
    | (Throw e, w1) => (Throw e, w1)
    | (Ok webcams, w1) =>
        match filterLive (orEmpty webcams) with
        | None => (Throw "TypeError", w1)
        | Some live => (Ok (firstn MAX_CAMS (map windyCamera live)), w1)
        end
    end.

(** [ytSearch(q)] *)
Definition ytSearch (q : string) (w : World) : result (list Camera) * World :=
  if negb (truthy YT_KEY) then (Ok [], w)
  else
    match ytGet q w with
    | (Throw e, w1) => (Throw e, w1)
    | (Ok items, w1) =>
        match mapItems (orEmpty items) with
        | None => (Throw "TypeError", w1)
        | Some cams => (Ok cams, w1)
        end
    end.

End Clients.
End Providers.

Arguments Providers.windyNearby {World}.
Arguments Providers.ytSearch {World}.

(* ===================================================================== *)
(** * Part II: the vocabulary of the specification *)
(* ===================================================================== *)

(** ** Case-insensitive substrings *)

(** Two ASCII characters are the same letter up to case. *)
Definition sameLetter (c d : ascii) : Prop :=
  c = d
  \/ (isLower c = true /\ N_of_ascii c = (N_of_ascii d + 32)%N)
  \/ (isLower d = true /\ N_of_ascii d = (N_of_ascii c + 32)%N).

Inductive equalCI : string -> string -> Prop :=
| equalCI_nil : equalCI EmptyString EmptyString
| equalCI_cons c d s t :
    sameLetter c d -> equalCI s t -> equalCI (String c s) (String d t).

(** [k] is a substring of [t] up to the case of the ASCII letters. *)
Definition substringCI (k t : string) : Prop :=
  exists a u b, t = (a ++ u ++ b)%string /\ equalCI u k.

(** [k] occurs in [s]. *)
Definition occursIn (k s : string) : Prop :=
  exists a b, s = (a ++ k ++ b)%string.

(** A rule matches when some keyword of it, which is in upper case, occurs
    in the upper-case form of some theme tag: the tag holds the keyword up
    to case. *)
Definition ruleApplies (r : Rule) (themes : list string) : Prop :=
  exists k t, In k (inc r) /\ In t themes /\ occursIn k (toUpperCase t).

(** Every character of [s] is in the ASCII range. *)
Fixpoint isAscii (s : string) : bool :=
  match s with
  | EmptyString => true
  | String c rest => (N_of_ascii c <? 128)%N && isAscii rest
  end.

(** The ASCII letters of [s] in upper case, every other byte as it is. *)
Fixpoint upperAscii (s : string) : string :=
  match s with
  | EmptyString => EmptyString
  | String c rest => String (upperChar c) (upperAscii rest)
  end.


(** ** Classified (fact, mention) pairs *)

(** The (fact, mention) pairs of a feed, each under the category of its
    fact, in feed order; a fact without category has none. *)
Definition pairsOf (gkg : list EventFact) : list (Category * GeoMention) :=
  flat_map
    (fun row =>
       match mapThemesToCategory (themes row) with
       | Some c => map (pair c) (locations row)
       | None => []
       end)
    gkg.

(** [counts[c]] of a bucket, 0 when the category is absent. *)
Fixpoint countIn (c : Category) (cs : list (Category * nat)) : nat :=
  match cs with
  | [] => 0
  | (k, n) :: rest => if cat_eqb k c then n else countIn c rest
  end.

(** The sum of [counts[c]] over all buckets. *)
Definition totalCount (c : Category) (m : Buckets) : nat :=
  fold_right (fun b acc => countIn c (counts b) + acc) 0 (values m).

(** [counts[c]] of the bucket stored under [id], 0 when there is none. *)
Definition countAt (c : Category) (id : string) (m : Buckets) : nat :=
  match map_get id m with
  | Some b => countIn c (counts b)
  | None => 0
  end.

(** ** Rounding to three decimals *)

(** The value of a number rounded to three decimals: a whole number of
    thousandths (halves away from zero), or an infinity, or NaN. *)
Inductive rounded : Type :=
| R_nan
| R_infinity (negative : bool)
| R_thousandths (n : Z).

Definition round3 (x : number) : rounded :=
  match x with
  | S754_nan => R_nan
  | S754_infinity s => R_infinity s
  | S754_zero _ => R_thousandths 0
  | S754_finite s m e =>
      let num := (Zpos m * 2 ^ Z.max e 0)%Z in
      let den := (2 ^ Z.max (- e) 0)%Z in
      let n := ((2000 * num + den) / (2 * den))%Z in
      R_thousandths (if s then (- n)%Z else n)
  end.

(** ** Ranking candidates *)

(** What the ranker emits, in the order of the places: one ranked place
    per bucket and category of its counts. *)
Definition emissions (places : list PlaceBucket) : list (Category * RankedPlace) :=
  flat_map
    (fun p => map (fun e => (fst e, {| place := p; score := snd e |})) (counts p))
    places.

(** The places that have category [c], in the order of [places], each with
    its count as score. *)
Definition candidatesOf (c : Category) (places : list PlaceBucket)
  : list RankedPlace :=
  map snd (filter (fun e => cat_eqb (fst e) c) (emissions places)).


Definition hasScore (s : nat) (x : RankedPlace) : bool := score x =? s.

(** Scores do not increase along the list. *)
Definition nonIncreasing (l : list RankedPlace) : Prop :=
  forall i j a b, i < j -> nth_error l i = Some a -> nth_error l j = Some b ->
                  score b <= score a.

(** ** Failing searches *)

Section Fallback.
Variable World : Type.
Variable ytSearch : string -> World -> result (list Camera) * World.
Variable MAX_CAMS : nat.

(** A provider whose failures are turned into zero results, call by
    call. *)
Definition recovering : string -> World -> result (list Camera) * World :=
  fun q w =>
    match ytSearch q w with
    | (Throw _, w1) => (Ok [], w1)
    | r => r
    end.

(** [searched placeName kws cams w cams1 w1]: starting with [cams] in
    world [w], every phrase of [kws] is searched in turn, no search
    throws, and the loop arrives at [cams1] in world [w1]. *)
Inductive searched (placeName : string)
  : list string -> list Camera -> World -> list Camera -> World -> Prop :=
| searched_nil cams w : searched placeName [] cams w cams w
| searched_cons kw rest cams w more w1 cams2 w2 :
    List.length cams < MAX_CAMS ->
    ytSearch (placeName ++ " " ++ kw)%string w = (Ok more, w1) ->
    searched placeName rest (pushNew MAX_CAMS more cams) w1 cams2 w2 ->
    searched placeName (kw :: rest) cams w cams2 w2.
End Fallback.

Arguments recovering {World}.
Arguments searched {World}.

(** Lookup in an object keyed by category. *)
Fixpoint lookup {A : Type} (c : Category) (m : ByCategory A) : option (list A) :=
  match m with
  | [] => None
  | (k, l) :: rest => if cat_eqb k c then Some l else lookup c rest
  end.

(** ** Aggregation, pair by pair *)

(** One step of the aggregation loops, for one classified pair. *)
Definition addPair (m : Buckets) (e : Category * GeoMention) : Buckets :=
  addMention (fst e) m (snd e).

(** What the first mention of a bucket seeds. *)
Definition seedOf (b : PlaceBucket) : string * number * number * string :=
  (p_name b, p_lat b, p_lon b, p_country b).

Definition seedAt (id : string) (m : Buckets)
  : option (string * number * number * string) :=
  option_map seedOf (map_get id m).

Definition mentionSeed (loc : GeoMention) : string * number * number * string :=
  (name loc, lat loc, lon loc, country loc).

Definition hasKey (id : string) (e : Category * GeoMention) : bool :=
  String.eqb (bucketKey (snd e)) id.

(** ** Characters of a rendered number *)

Fixpoint allChars (P : ascii -> bool) (s : string) : bool :=
  match s with
  | EmptyString => true
  | String c rest => P c && allChars P rest
  end.

Definition numeralChar (c : ascii) : bool :=
  isDigit c || existsb (Ascii.eqb c) (list_ascii_of_string ".-+eInfityNa").

Definition notChar (sep : ascii) (c : ascii) : bool := negb (Ascii.eqb c sep).

(** ** Grouping, emission by emission *)

(** The list stored under a category, empty when the key is absent. *)
Definition entriesOf {A : Type} (c : Category) (m : ByCategory A) : list A :=
  match lookup c m with
  | Some l => l
  | None => []
  end.

Definition pushEmission (m : ByCategory RankedPlace) (e : Category * RankedPlace)
  : ByCategory RankedPlace :=
  push (fst e) (snd e) m.

Definition inCategory {A : Type} (c : Category) (e : Category * A) : bool :=
  cat_eqb (fst e) c.

Definition sortedDesc (l : list RankedPlace) : Prop :=
  StronglySorted (fun a b => score b <= score a) l.

(** ** The camera lookups of a run *)

Section Lookups.
Variable World : Type.
Variable windyNearby : number -> number -> World -> result (list Camera) * World.
Variable ytSearch : string -> World -> result (list Camera) * World.
Variable MAX_CAMS : nat.

(** The lookups that a run makes for the places of one category, one
    after the other: each place with the cameras that [findCamsForPlace]
    returns for it in the world the run has reached by then, and the world
    after the last of them. *)
Fixpoint lookupsOf (placeList : list RankedPlace) (w : World)
  : list (RankedPlace * list Camera) * World :=
  match placeList with
  | [] => ([], w)
  | p :: rest =>
      let '(cams, w1) := findCamsForPlace windyNearby ytSearch MAX_CAMS p w in
      let '(more, w2) := lookupsOf rest w1 in
      ((p, cams) :: more, w2)
  end.

(** The lookups of a whole run, category by category in the order of the
    ranking. *)
Fixpoint lookupsAll (ranked : ByCategory RankedPlace) (w : World)
  : ByCategory (RankedPlace * list Camera) * World :=
  match ranked with
  | [] => ([], w)
  | (c, placeList) :: rest =>
      let '(found, w1) := lookupsOf placeList w in
      let '(more, w2) := lookupsAll rest w1 in
      ((c, found) :: more, w2)
  end.

End Lookups.

Arguments lookupsOf {World}.
Arguments lookupsAll {World}.

(** A lookup that found at least one camera. *)
Definition foundSome (x : RankedPlace * list Camera) : bool :=
  match snd x with
  | [] => false
  | _ :: _ => true
  end.

(** The [{ place, cams }] entry and the record that a lookup stands for. *)
Definition entryOfLookup (x : RankedPlace * list Camera) : Entry :=
  {| e_place := placeView (fst x); e_cams := map camView (snd x) |}.

Definition recordOfLookup (c : Category) (x : RankedPlace * list Camera)
  : PlaceRecord :=
  {| r_category := c; r_place := fst x; r_cams := snd x |}.

(** The places that were looked up for a category. *)
Definition placesOf (ct : Category * list (RankedPlace * list Camera))
  : Category * list RankedPlace :=
  (fst ct, map fst (snd ct)).

(** A category with the entries of its lookups that found a camera, and
    the records of these lookups. *)
Definition entriesFound (ct : Category * list (RankedPlace * list Camera))
  : Category * list Entry :=
  (fst ct, map entryOfLookup (filter foundSome (snd ct))).

Definition recordsFound (ct : Category * list (RankedPlace * list Camera))
  : list PlaceRecord :=
  map (recordOfLookup (fst ct)) (filter foundSome (snd ct)).

(** ** Sample data *)

Definition kyiv : GeoMention :=
  {| name := "Kyiv"; lat := parseFloat "50.45"; lon := parseFloat "30.52";
     country := "UA" |}.

Definition kyivRow : EventFact :=
  {| themes := ["MILITARY_ACTIVITY"; "TERROR"]; locations := [kyiv; kyiv] |}.

(** Two mentions just south and just north of the equator. *)
Definition quitoSouth : GeoMention :=
  {| name := "Quito"; lat := parseFloat "-0.0001"; lon := parseFloat "-78.5";
     country := "EC" |}.

Definition quitoNorth : GeoMention :=
  {| name := "Quito"; lat := parseFloat "0.0001"; lon := parseFloat "-78.5";
     country := "EC" |}.

Definition quitoRow : EventFact :=
  {| themes := ["NATURAL_DISASTER_FLOOD"];
     locations := [quitoSouth; quitoNorth] |}.

(** A feed of one row: military themes and one mention of Kyiv. *)
Definition kyivFeed : string :=
  String.concat (String TAB EmptyString)
    [ "20240101"; "1"; "src"; "doc"; "MILITARY_ACTIVITY;TERROR"; "v2themes";
      "locs"; "v2"; "Kyiv#1#UA#UA12#50.45#30.52" ].

Definition windyCam (n : Z) (page : string) : Camera :=
  {| cam_id := JNum n; cam_title := JStr "Webcam";
     cam_image := JUndefined; cam_player := JUndefined;
     cam_url := JStr page; cam_source := "windy"; cam_verified := true |}.

Definition youtubeCam (videoId : string) : Camera :=
  {| cam_id := JStr videoId; cam_title := JStr "Live";
     cam_image := JUndefined;
     cam_player := JStr ("https://www.youtube.com/embed/" ++ videoId);
     cam_url := JStr ("https://www.youtube.com/watch?v=" ++ videoId);
     cam_source := "youtube"; cam_verified := true |}.

Definition kyivRanked : RankedPlace :=
  {| place := {| p_name := "Kyiv"; p_lat := parseFloat "50.45";
                 p_lon := parseFloat "30.52"; p_country := "UA";
                 counts := [(war, 1)] |};
     score := 1 |}.

(** Sample worlds count the calls made so far. *)
Definition feedOk : nat -> result string * nat :=
  fun w => (Ok kyivFeed, S w).

Definition feedDown : nat -> result string * nat :=
  fun w => (Throw "timeout of 20000ms exceeded", S w).

Definition windyNone : number -> number -> nat -> result (list Camera) * nat :=
  fun _ _ w => (Ok [], S w).

Definition ytNone : string -> nat -> result (list Camera) * nat :=
  fun _ w => (Ok [], S w).

(** A search provider that fails on the second phrase for Kyiv and finds
    one live video for every other query. *)
Definition ytFlaky : string -> nat -> result (list Camera) * nat :=
  fun q w =>
    if String.eqb q "Kyiv traffic cam" then (Throw "quotaExceeded", S w)
    else (Ok [youtubeCam "abc123"], S w).

(** A search provider that fails on the first phrase for Kyiv. *)
Definition ytFirstFails : string -> nat -> result (list Camera) * nat :=
  fun q w =>
    if String.eqb q "Kyiv live cam" then (Throw "quotaExceeded", S w)
    else (Ok [youtubeCam "abc123"], S w).

(** A primary provider with three live cameras, and one that times out. *)
Definition windyThree : number -> number -> nat -> result (list Camera) * nat :=
  fun _ _ w =>
    (Ok [ windyCam 1 "https://www.windy.com/webcams/1";
          windyCam 2 "https://www.windy.com/webcams/2";
          windyCam 3 "https://www.windy.com/webcams/3" ], S w).

Definition windyDown : number -> number -> nat -> result (list Camera) * nat :=
  fun _ _ w => (Throw "timeout of 15000ms exceeded", S w).

(** A search provider whose phrases bring four videos and two repeats. *)
Definition ytRepeats : string -> nat -> result (list Camera) * nat :=
  fun q w =>
    if String.eqb q "Kyiv live cam"
    then (Ok [youtubeCam "v1"; youtubeCam "v2"; youtubeCam "v3"], S w)
    else if String.eqb q "Kyiv traffic cam"
    then (Ok [youtubeCam "v1"; youtubeCam "v4"; youtubeCam "v2"], S w)
    else (Ok [], S w).

Definition clock : nat -> string := fun _ => "2024-01-01T00:00:00.000Z".

(** Six places for the ranker, in the order of the aggregation map; the
    war counts are 1, 3, 2, 3, 2 and the crime counts 2, 2. *)
Definition spot (n : string) (cs : list (Category * nat)) : PlaceBucket :=
  {| p_name := n; p_lat := parseFloat "1.5"; p_lon := parseFloat "2.5";
     p_country := "XX"; counts := cs |}.

Definition tiedPlaces : list PlaceBucket :=
  [ spot "A" [(war, 1)]; spot "B" [(war, 3); (crime, 2)]; spot "C" [(war, 2)];
    spot "D" [(war, 3)]; spot "E" [(war, 2)]; spot "F" [(crime, 2)] ].

Definition rankedSpot (n : string) (cs : list (Category * nat)) (s : nat)
  : RankedPlace :=
  {| place := spot n cs; score := s |}.

(** The three best of the war places: B and D tie at 3 and keep their
    order; C and E tie at 2 and only C, the first, is within the cut. *)
Definition tiedWar : list RankedPlace :=
  [ rankedSpot "B" [(war, 3); (crime, 2)] 3; rankedSpot "D" [(war, 3)] 3;
    rankedSpot "C" [(war, 2)] 2 ].

Definition tiedCrime : list RankedPlace :=
  [ rankedSpot "B" [(war, 3); (crime, 2)] 2; rankedSpot "F" [(crime, 2)] 2 ].

(** A feed of two rows: the row of Kyiv, then a soccer match in Paris. *)
Definition twoRowFeed : string :=
  (kyivFeed ++ String LF
     (String.concat (String TAB EmptyString)
        [ "20240101"; "2"; "src"; "doc"; "SOCCER"; "v2themes";
          "locs"; "v2"; "Paris#1#FR#FR00#48.85#2.35" ]))%string.

Definition feedTwoRows : nat -> result string * nat :=
  fun w => (Ok twoRowFeed, S w).

Definition parisRanked : RankedPlace :=
  {| place := {| p_name := "Paris"; p_lat := parseFloat "48.85";
                 p_lon := parseFloat "2.35"; p_country := "FR";
                 counts := [(sports, 1)] |};
     score := 1 |}.

(** A primary provider that has no camera while the world counts fewer
    than ten calls and one camera from then on. *)
Definition windyLate : number -> number -> nat -> result (list Camera) * nat :=
  fun _ _ w =>
    if w <? 10 then (Ok [], S w)
    else (Ok [windyCam 1 "https://www.windy.com/webcams/1"], S w).

Definition oldState : State :=
  {| updatedAt := Some "2023-12-31T23:00:00.000Z";
     categories := [(war, [])]; places := [] |}.

(** ** Further vocabulary *)

(** The text that rows of columns stand for: columns joined by TAB, rows
    by LF. *)
Definition joinRows (rows : list (list string)) : string :=
  String.concat (String LF EmptyString)
    (map (String.concat (String TAB EmptyString)) rows).

(** No byte of [s] is one of [seps]. *)
Definition freeOf (seps : list ascii) (s : string) : bool :=
  allChars (fun c => negb (existsb (Ascii.eqb c) seps)) s.

Definition HASH : ascii := "#"%char.
Definition SEMI : ascii := ";"%char.

(** A row takes part in the aggregation: it has a category and at least
    one mention. *)
Definition contributes (row : EventFact) : bool :=
  match mapThemesToCategory (themes row), locations row with
  | Some _, _ :: _ => true
  | _, _ => false
  end.

(** The aggregation key recomputed from the fields of a bucket. *)
Definition keyOfBucket (b : PlaceBucket) : string :=
  (toFixed3 (p_lat b) ++ "," ++ toFixed3 (p_lon b) ++ ":" ++ p_name b)%string.

(** The entry of [categories] that goes with a record of [places]. *)
Definition entryOfRecord (r : PlaceRecord) : Category * Entry :=
  (r_category r,
   {| e_place := placeView (r_place r); e_cams := map camView (r_cams r) |}).

(** All entries of [categories], each with its category, in order. *)
Definition allEntries (cats : ByCategory Entry) : list (Category * Entry) :=
  flat_map (fun ce => map (pair (fst ce)) (snd ce)) cats.

(** What holds of every bucket of the map: it is stored under the key of
    its own fields, and its counts are a non-empty table with one entry
    per category, each at least 1. *)
Definition wellFormedBucket (id : string) (b : PlaceBucket) : Prop :=
  id = keyOfBucket b
  /\ counts b <> []
  /\ NoDup (map fst (counts b))
  /\ forall c n, In (c, n) (counts b) -> 1 <= n.

(** The [{ place, cams }] entry that is pushed together with a record. *)
Definition entryPart (r : PlaceRecord) : Entry := snd (entryOfRecord r).

(** A ranked category with the records made for it, as an entry of
    [categories]. *)
Definition groupEntry (x : (Category * list RankedPlace) * list PlaceRecord)
  : Category * list Entry :=
  (fst (fst x), map entryPart (snd x)).

(** A record made for category [c] from the ranked list [l]: it carries
    [c], one of the places of [l], and between 1 and [MAX_CAMS] cameras
    with pairwise different identity keys. *)
Definition recordOk (MAX_CAMS : nat) (c : Category) (l : list RankedPlace)
           (r : PlaceRecord) : Prop :=
  r_category r = c /\ In (r_place r) l
  /\ 1 <= List.length (r_cams r) <= MAX_CAMS
  /\ NoDup (map identity (r_cams r)).

(** The records of one ranked category: made for it, no more than it has
    places. *)
Definition groupOk (MAX_CAMS : nat) (e : Category * list RankedPlace)
           (recs : list PlaceRecord) : Prop :=
  Forall (recordOk MAX_CAMS (fst e) (snd e)) recs
  /\ List.length recs <= List.length (snd e).

(** A text starts with a decimal digit. *)
Definition startsWithDigit (s : string) : bool :=
  match s with
  | String c _ => isDigit c
  | EmptyString => false
  end.

(** A text has a numeric prefix: after leading white space and one
    optional sign comes [Infinity], a digit, or a point and a digit. *)
Definition numericPrefix (s : string) : bool :=
  let u := match trimStart s with
           | String "+" r => r
           | String "-" r => r
           | t => t
           end in
  String.prefix "Infinity" u || startsWithDigit u
  || match u with
     | String "." r => startsWithDigit r
     | _ => false
     end.

(** The state of the process after [n] runs of the job, one after the
    other: the run at boot and the hourly ones. *)
Fixpoint afterRuns {World : Type} (job : World -> State -> World * State)
         (n : nat) (w : World) (st : State) : World * State :=
  match n with
  | 0 => (w, st)
  | S k => let '(w1, st1) := job w st in afterRuns job k w1 st1
  end.

(** What holds of the snapshot that is served: it is the initial one as
    long as no time stamp is set, its two views agree, and no category
    has more than [TOP_N] entries. *)
Definition servable (TOP_N : nat) (st : State) : Prop :=
  (updatedAt st = None -> st = STATE0)
  /\ allEntries (categories st) = map entryOfRecord (places st)
  /\ forall c es, In (c, es) (categories st) -> List.length es <= TOP_N.

(** ** More sample data *)

Definition liveWebcam : WindyWebcam :=
  {| ww_id := JNum 7; ww_title := JStr "Maidan"; ww_status := JStr "Active";
     ww_available := JBool true; ww_preview := JUndefined;
     ww_embed := JStr "https://webcams.windy.com/webcams/public/embed/player/7";
     ww_link := JUndefined; ww_desktop := JStr "https://www.windy.com/webcams/7" |}.

Definition idleWebcam : WindyWebcam :=
  {| ww_id := JNum 8; ww_title := JStr "Harbour"; ww_status := JStr "inactive";
     ww_available := JBool true; ww_preview := JUndefined;
     ww_embed := JUndefined; ww_link := JUndefined; ww_desktop := JUndefined |}.

Definition windyGetTwo
  : number -> number -> nat -> result (option (list WindyWebcam)) * nat :=
  fun _ _ w => (Ok (Some [liveWebcam; idleWebcam]), S w).

Definition ytGetOne : string -> nat -> result (option (list YtItem)) * nat :=
  fun _ w =>
    (Ok (Some [ {| yt_videoId := Some (JStr "abc123");
                   yt_snippet := Some (JStr "Live", JUndefined) |} ]), S w).


Definition parisRow : EventFact :=
  {| themes := ["SOCCER"];
     locations := [ {| name := "Paris"; lat := parseFloat "48.85";
                       lon := parseFloat "2.35"; country := "FR" |} ] |}.

Definition noiseRow : EventFact :=
  {| themes := ["TAX_FNCACT"]; locations := [kyiv] |}.

(* ===================================================================== *)
(** * Part III: properties *)
(* ===================================================================== *)

(** ** Strings *)

Lemma cat_eqb_eq a b : cat_eqb a b = true <-> a = b.
Proof. destruct a, b; simpl; split; intro H; congruence. Qed.

Lemma cat_eqb_refl a : cat_eqb a a = true.
Proof. destruct a; reflexivity. Qed.

Lemma cat_eqb_neq a b : cat_eqb a b = false <-> a <> b.
Proof.
  split; intro H.
  - intro E; subst; rewrite cat_eqb_refl in H; discriminate.
  - destruct (cat_eqb a b) eqn:E; auto. apply cat_eqb_eq in E; contradiction.
Qed.

Lemma prefix_iff k s :
  String.prefix k s = true <-> exists b, s = (k ++ b)%string.
Proof.
  revert s; induction k as [|c k IH]; intros s.
  - destruct s; simpl; split; eauto.
  - destruct s as [|d s]; simpl.
    + split; [discriminate | intros [b Hb]; discriminate].
    + destruct (ascii_dec c d) as [->|Hcd].
      * rewrite IH. split; intros [b Hb]; exists b; [now rewrite Hb | congruence].
      * split; [discriminate | intros [b Hb]; congruence].
Qed.

Lemma includes_iff s k :
  includes s k = true <-> exists a b, s = (a ++ k ++ b)%string.
Proof.
  induction s as [|c s IH]; cbn [includes]; rewrite orb_true_iff, prefix_iff.
  - split.
    + intros [[b Hb]|H]; [exists EmptyString, b; exact Hb | discriminate].
    + intros [a [b H]]. left. destruct a; [exists b; exact H | discriminate].
  - rewrite IH. split.
    + intros [[b Hb]|[a [b H]]].
      * exists EmptyString, b. exact Hb.
      * exists (String c a), b. simpl. now rewrite H.
    + intros [a [b H]]. destruct a as [|d a]; simpl in H.
      * left; eauto.
      * right. exists a, b. congruence.
Qed.

Lemma toUpperCase_ascii t : isAscii t = true -> toUpperCase t = upperAscii t.
Proof.
  induction t as [|c t IH]; cbn [isAscii toUpperCase upperAscii]; [reflexivity|].
  intro H. apply andb_true_iff in H as [Hc Ht]. rewrite Hc, (IH Ht). reflexivity.
Qed.

Lemma upperAscii_app a b :
  upperAscii (a ++ b) = (upperAscii a ++ upperAscii b)%string.
Proof. induction a; simpl; congruence. Qed.

Lemma upperAscii_split t : forall x y,
  upperAscii t = (x ++ y)%string ->
  exists t1 t2, t = (t1 ++ t2)%string /\ upperAscii t1 = x /\ upperAscii t2 = y.
Proof.
  induction t as [|c t IH]; intros x y H; simpl in H.
  - destruct x; [|discriminate]. simpl in H. subst y.
    exists EmptyString, EmptyString. auto.
  - destruct x as [|d x]; simpl in H.
    + exists EmptyString, (String c t). simpl. auto.
    + injection H as Hc Ht. destruct (IH _ _ Ht) as [t1 [t2 [E [H1 H2]]]].
      exists (String c t1), t2. simpl. subst. auto.
Qed.

Lemma upperChar_code c :
  isLower c = true -> N_of_ascii (upperChar c) = (N_of_ascii c - 32)%N.
Proof.
  intro H. unfold upperChar. rewrite H. apply N_ascii_embedding.
  pose proof (N_ascii_bounded c). lia.
Qed.

Lemma isLower_range c :
  isLower c = true <-> (97 <= N_of_ascii c <= 122)%N.
Proof.
  unfold isLower. rewrite andb_true_iff, !N.leb_le. tauto.
Qed.

Lemma sameLetter_iff c d : sameLetter c d <-> upperChar c = upperChar d.
Proof.
  assert (inj : forall a b, N_of_ascii a = N_of_ascii b -> a = b).
  { intros a b E. rewrite <- (ascii_N_embedding a), <- (ascii_N_embedding b).
    now rewrite E. }
  split.
  - intros [->|[[L E]|[L E]]]; [reflexivity| |].
    + apply inj. rewrite (upperChar_code _ L).
      apply isLower_range in L.
      unfold upperChar. destruct (isLower d) eqn:Ld.
      * apply isLower_range in Ld. lia.
      * lia.
    + apply inj. rewrite (upperChar_code _ L).
      apply isLower_range in L.
      unfold upperChar. destruct (isLower c) eqn:Lc.
      * apply isLower_range in Lc. lia.
      * lia.
  - intro E. apply (f_equal N_of_ascii) in E.
    destruct (isLower c) eqn:Lc, (isLower d) eqn:Ld.
    + rewrite (upperChar_code _ Lc), (upperChar_code _ Ld) in E.
      apply isLower_range in Lc, Ld. left. apply inj. lia.
    + rewrite (upperChar_code _ Lc) in E. unfold upperChar in E. rewrite Ld in E.
      right; left. split; [exact Lc|]. apply isLower_range in Lc. lia.
    + rewrite (upperChar_code _ Ld) in E. unfold upperChar in E at 1.
      rewrite Lc in E.
      right; right. split; [exact Ld|]. apply isLower_range in Ld. lia.
    + unfold upperChar in E. rewrite Lc, Ld in E. left. now apply inj.
Qed.

Lemma equalCI_iff u k : equalCI u k <-> upperAscii u = upperAscii k.
Proof.
  split.
  - induction 1 as [|c d s t Hcd _ IH]; simpl; [reflexivity|].
    apply sameLetter_iff in Hcd. congruence.
  - revert k; induction u as [|c u IH]; intros [|d k] H; simpl in H;
      try discriminate.
    + constructor.
    + injection H as Hc Hk. constructor; [now apply sameLetter_iff | auto].
Qed.

(** ** Category Classifier *)

Lemma find_some_iff {A : Type} (f : A -> bool) (l : list A) (x : A) :
  find f l = Some x <->
  exists pre post, l = pre ++ x :: post /\ f x = true /\
                   forall y, In y pre -> f y = false.
Proof.
  induction l as [|a l IH]; simpl.
  - split; [discriminate|]. intros [pre [post [E _]]]. destruct pre; discriminate.
  - destruct (f a) eqn:Fa.
    + split.
      * intros [= ->]. exists [], l. simpl. repeat split; [assumption|intros y []].
      * intros [pre [post [E [Fx Hpre]]]]. destruct pre as [|b pre]; simpl in E.
        -- congruence.
        -- injection E as -> _. rewrite (Hpre b) in Fa by (left; reflexivity).
           discriminate.
    + rewrite IH. split.
      * intros [pre [post [-> [Fx Hpre]]]]. exists (a :: pre), post. simpl.
        repeat split; auto. intros y [<-|Hy]; auto.
      * intros [pre [post [E [Fx Hpre]]]]. destruct pre as [|b pre]; simpl in E.
        -- injection E as -> _. congruence.
        -- injection E as -> ->. exists pre, post. repeat split; auto.
           intros y Hy. apply Hpre. now right.
Qed.

Lemma find_none_all_false {A : Type} (l : list A) (f : A -> bool) :
  find f l = None <-> forall y, In y l -> f y = false.
Proof.
  induction l as [|a l IH]; simpl.
  - split; [intros _ y []|reflexivity].
  - destruct (f a) eqn:Fa.
    + split; [discriminate|]. intro H. rewrite (H a) in Fa by now left.
      discriminate.
    + rewrite IH. split.
      * intros H y [<-|Hy]; auto.
      * intros H y Hy. apply H. now right.
Qed.

Lemma keywords_upper r k :
  In r RULES -> In k (inc r) -> upperAscii k = k.
Proof.
  assert (H : forallb (fun r => forallb (fun k => String.eqb (upperAscii k) k)
                                        (inc r)) RULES = true) by reflexivity.
  rewrite forallb_forall in H. intros Hr Hk.
  specialize (H r Hr). rewrite forallb_forall in H.
  now apply String.eqb_eq, H.
Qed.

Lemma ruleMatches_iff r themes :
  ruleMatches (map toUpperCase themes) r = true <-> ruleApplies r themes.
Proof.
  unfold ruleMatches, ruleApplies, occursIn. rewrite existsb_exists. split.
  - intros [k [Hk H]]. apply existsb_exists in H as [t' [Ht' H]].
    apply in_map_iff in Ht' as [t [<- Ht]].
    exists k, t. split; [exact Hk|]. split; [exact Ht|]. now apply includes_iff.
  - intros [k [t [Hk [Ht H]]]]. exists k. split; [exact Hk|].
    apply existsb_exists. exists (toUpperCase t). split; [now apply in_map|].
    now apply includes_iff.
Qed.

Lemma ruleMatches_false_iff r themes :
  ruleMatches (map toUpperCase themes) r = false <-> ~ ruleApplies r themes.
Proof.
  rewrite <- (ruleMatches_iff r themes).
  destruct (ruleMatches _ r); split; intro H; congruence.
Qed.

Lemma occursIn_upperAscii r k t :
  In r RULES -> In k (inc r) ->
  occursIn k (upperAscii t) <-> substringCI k t.
Proof.
  intros Hr Hk. unfold occursIn, substringCI. split.
  - intros [a [b H]].
    apply upperAscii_split in H as [t1 [t23 [E1 [_ H]]]].
    apply upperAscii_split in H as [u [t3 [E2 [Hu _]]]].
    exists t1, u, t3. split; [congruence|].
    apply equalCI_iff. now rewrite (keywords_upper r k).
  - intros [a [u [b [E Hu]]]]. exists (upperAscii a), (upperAscii b).
    apply equalCI_iff in Hu. rewrite (keywords_upper r k) in Hu by assumption.
    rewrite E, !upperAscii_app. congruence.
Qed.

Lemma cont_high n : (128 <= N_of_ascii (ascii_of_N (128 + n mod 64)))%N.
Proof.
  assert (B : (n mod 64 < 64)%N) by (apply N.mod_lt; discriminate).
  generalize dependent (n mod 64)%N. intros m B.
  rewrite N_ascii_embedding; lia.
Qed.

Lemma utf8_high cp b1 rest c :
  utf8 cp = String b1 rest -> In c (list_ascii_of_string rest) ->
  (128 <= N_of_ascii c)%N.
Proof.
  unfold utf8.
  destruct (cp <? 128)%N; [intros [= _ <-] []|].
  destruct (cp <? 2048)%N;
    [intros [= _ <-]; cbn [list_ascii_of_string In];
     intros [<-|[]]; apply cont_high|].
  destruct (cp <? 65536)%N; intros [= _ <-]; cbn [list_ascii_of_string In].
  - intros [<-|[<-|[]]]; apply cont_high.
  - intros [<-|[<-|[<-|[]]]]; apply cont_high.
Qed.

Lemma upperOf_high b1 rest u c :
  upperOf (String b1 rest) = Some u -> In c (list_ascii_of_string rest) ->
  (N_of_ascii c <? 128)%N = false.
Proof.
  unfold upperOf. intros H Hc.
  destruct (String.eqb (utf8 (codePoint (String b1 rest))) (String b1 rest)) eqn:E;
    [|discriminate].
  apply String.eqb_eq in E. apply N.ltb_ge. exact (utf8_high _ _ _ _ E Hc).
Qed.

Lemma toUpperCase_step b1 r1 :
  toUpperCase (String b1 r1) = String (upperChar b1) (toUpperCase r1)
  \/ toUpperCase (String b1 r1) = String b1 (toUpperCase r1)
  \/ (exists b2 r2 u,
        r1 = String b2 r2 /\ upperOf (String b1 (String b2 EmptyString)) = Some u
        /\ toUpperCase (String b1 r1) = (u ++ toUpperCase r2)%string)
  \/ (exists b2 b3 r3 u,
        r1 = String b2 (String b3 r3)
        /\ upperOf (String b1 (String b2 (String b3 EmptyString))) = Some u
        /\ toUpperCase (String b1 r1) = (u ++ toUpperCase r3)%string)
  \/ (exists b2 b3 b4 r4 u,
        r1 = String b2 (String b3 (String b4 r4))
        /\ upperOf (String b1 (String b2 (String b3 (String b4 EmptyString)))) = Some u
        /\ toUpperCase (String b1 r1) = (u ++ toUpperCase r4)%string).
Proof.
  cbn [toUpperCase].
  destruct (N_of_ascii b1 <? 128)%N; [now left|].
  destruct r1 as [|b2 r2]; [right; now left|].
  destruct (upperOf (String b1 (String b2 EmptyString))) as [u|] eqn:U2.
  { right; right; left. exists b2, r2, u. auto. }
  destruct r2 as [|b3 r3]; [right; now left|].
  destruct (upperOf (String b1 (String b2 (String b3 EmptyString)))) as [u|] eqn:U3.
  { right; right; right; left. exists b2, b3, r3, u. auto. }
  destruct r3 as [|b4 r4]; [right; now left|].
  destruct (upperOf (String b1 (String b2 (String b3 (String b4 EmptyString)))))
    as [u|] eqn:U4.
  { right; right; right; right. exists b2, b3, b4, r4, u. auto. }
  right; now left.
Qed.

Lemma string_app_assoc (a b c : string) :
  ((a ++ b) ++ c)%string = (a ++ (b ++ c))%string.
Proof. induction a as [|x a IH]; cbn [append]; [reflexivity | now rewrite IH]. Qed.

Lemma toUpperCase_before c s :
  (N_of_ascii c <? 128)%N = true ->
  forall n a, String.length a <= n ->
  exists a', toUpperCase (a ++ String c s)
             = (a' ++ toUpperCase (String c s))%string.
Proof.
  intros Hc. induction n as [|n IH]; intros a L.
  - destruct a; [|cbn [String.length] in L; lia]. now exists EmptyString.
  - destruct a as [|b1 r1]; [now exists EmptyString|].
    cbn [String.length] in L. cbn [append].
    assert (Tail : forall r, String.length r <= String.length r1 ->
              exists a', toUpperCase (r ++ String c s)
                         = (a' ++ toUpperCase (String c s))%string).
    { intros r Lr. apply IH. lia. }
    destruct (toUpperCase_step b1 (r1 ++ String c s))
      as [E|[E|[[b2 [r2 [u [R [U E]]]]]
               |[[b2 [b3 [r3 [u [R [U E]]]]]]
                |[b2 [b3 [b4 [r4 [u [R [U E]]]]]]]]]]]; rewrite E.
    + destruct (Tail r1 (le_n _)) as [a' ->]. now exists (String (upperChar b1) a').
    + destruct (Tail r1 (le_n _)) as [a' ->]. now exists (String b1 a').
    + destruct r1 as [|x r1]; cbn [append] in R; injection R as <- <-.
      * rewrite (upperOf_high _ _ _ c U) in Hc by (now left). discriminate.
      * destruct (Tail r1) as [a' ->]; [cbn [String.length]; lia|].
        exists (u ++ a')%string. now rewrite string_app_assoc.
    + destruct r1 as [|x [|y r1]]; cbn [append] in R.
      * injection R as <- _.
        rewrite (upperOf_high _ _ _ c U) in Hc by (now left). discriminate.
      * injection R as <- <- _.
        rewrite (upperOf_high _ _ _ c U) in Hc by (right; now left). discriminate.
      * injection R as <- <- <-.
        destruct (Tail r1) as [a' ->]; [cbn [String.length]; lia|].
        exists (u ++ a')%string. now rewrite string_app_assoc.
    + destruct r1 as [|x [|y [|z r1]]]; cbn [append] in R.
      * injection R as <- _.
        rewrite (upperOf_high _ _ _ c U) in Hc by (now left). discriminate.
      * injection R as <- <- _.
        rewrite (upperOf_high _ _ _ c U) in Hc by (right; now left). discriminate.
      * injection R as <- <- <- _.
        rewrite (upperOf_high _ _ _ c U) in Hc by (right; right; now left).
        discriminate.
      * injection R as <- <- <- <-.
        destruct (Tail r1) as [a' ->]; [cbn [String.length]; lia|].
        exists (u ++ a')%string. now rewrite string_app_assoc.
Qed.

Lemma toUpperCase_ascii_run u : forall b,
  isAscii u = true ->
  toUpperCase (u ++ b) = (upperAscii u ++ toUpperCase b)%string.
Proof.
  induction u as [|c u IH]; intros b H; [reflexivity|].
  cbn [isAscii] in H. apply andb_true_iff in H as [Hc Hu].
  cbn [append upperAscii toUpperCase]. now rewrite Hc, (IH b Hu).
Qed.

Lemma sameLetter_ascii c d :
  sameLetter c d -> (N_of_ascii d <? 128)%N = true -> (N_of_ascii c <? 128)%N = true.
Proof.
  intros [->|[[L E]|[L E]]] H; [exact H| |].
  - unfold isLower in L. apply andb_true_iff in L as [_ L].
    apply N.leb_le in L. apply N.ltb_lt. lia.
  - apply N.ltb_lt in H. apply N.ltb_lt. lia.
Qed.

Lemma equalCI_ascii u k : equalCI u k -> isAscii k = true -> isAscii u = true.
Proof.
  induction 1 as [|c d s t Hcd _ IH]; [reflexivity|]. cbn [isAscii].
  intro H. apply andb_true_iff in H as [Hd Ht].
  now rewrite (sameLetter_ascii c d Hcd Hd), IH.
Qed.

Lemma keywords_ascii r k :
  In r RULES -> In k (inc r) -> isAscii k = true /\ k <> EmptyString.
Proof.
  assert (H : forallb (fun r => forallb (fun k => isAscii k && truthy k)
                                        (inc r)) RULES = true) by reflexivity.
  rewrite forallb_forall in H. intros Hr Hk.
  specialize (H r Hr). rewrite forallb_forall in H.
  specialize (H k Hk). apply andb_true_iff in H as [A T].
  split; [exact A|]. intros ->. discriminate.
Qed.

Lemma substringCI_occurs r k t :
  In r RULES -> In k (inc r) -> substringCI k t -> occursIn k (toUpperCase t).
Proof.
  intros Hr Hk [a [u [b [-> Hu]]]].
  destruct (keywords_ascii r k Hr Hk) as [Ak Nk].
  pose proof (equalCI_ascii u k Hu Ak) as Au.
  assert (Eu : upperAscii u = k).
  { apply equalCI_iff in Hu. now rewrite (keywords_upper r k) in Hu. }
  destruct u as [|c u].
  { inversion Hu. congruence. }
  cbn [isAscii] in Au. apply andb_true_iff in Au as [Ac Au].
  cbn [append].
  destruct (toUpperCase_before c (u ++ b) Ac _ a (le_n _)) as [a' ->].
  change (String c (u ++ b)) with (String c u ++ b)%string.
  rewrite (toUpperCase_ascii_run (String c u) b)
    by (cbn [isAscii]; now rewrite Ac, Au).
  rewrite Eu. now exists a', (toUpperCase b).
Qed.

(** C4. The classifier is a total function of the theme list: it returns
    the category of the first rule, in the declaration order war, crime,
    politics, entertainment, disaster, sports, tech, economy, one of whose
    keywords is a case-insensitive substring of some theme tag, and returns
    none exactly when no rule has such a keyword. An earlier matching rule
    always wins over a later one. Case is set aside as the code does it:
    the keyword, which is in upper case, occurs in the upper-case form of
    the tag. Whatever the tag, a substring of it that equals the keyword
    letter by letter up to case makes the keyword occur; for a tag of ASCII
    characters the keyword occurs in no other way. *)
Theorem mapThemesToCategory_first_rule (themes : list string) :
  map cat RULES =
    [war; crime; politics; entertainment; disaster; sports; tech; economy]
  /\ (forall c,
         mapThemesToCategory themes = Some c <->
         exists pre r post,
           RULES = pre ++ r :: post /\ cat r = c /\ ruleApplies r themes /\
           forall r', In r' pre -> ~ ruleApplies r' themes)
  /\ (mapThemesToCategory themes = None <->
      forall r, In r RULES -> ~ ruleApplies r themes)
  /\ (forall r k t,
         In r RULES -> In k (inc r) ->
         substringCI k t -> occursIn k (toUpperCase t))
  /\ (forall r k t,
         In r RULES -> In k (inc r) -> isAscii t = true ->
         occursIn k (toUpperCase t) -> substringCI k t).
Proof.
  split; [reflexivity|]. unfold mapThemesToCategory. split; [|split; [|split]].
  - intro c. split.
    + destruct (find _ RULES) as [r|] eqn:F; [|discriminate].
      intros [= <-]. apply find_some_iff in F as [pre [post [E [Hr Hpre]]]].
      exists pre, r, post. split; [exact E|]. split; [reflexivity|].
      split; [now apply (ruleMatches_iff r themes)|].
      intros r' Hr'. apply ruleMatches_false_iff; auto.
    + intros [pre [r [post [E [Hc [Hr Hpre]]]]]].
      assert (F : find (ruleMatches (map toUpperCase themes)) RULES = Some r).
      { apply find_some_iff. exists pre, post. split; [exact E|].
        split; [now apply ruleMatches_iff|].
        intros y Hy. apply ruleMatches_false_iff; auto. }
      rewrite F. simpl. congruence.
  - destruct (find _ RULES) as [r|] eqn:F; simpl.
    + split; [discriminate|]. intro H.
      apply find_some_iff in F as [pre [post [E [Hr _]]]].
      assert (In r RULES) by (rewrite E; apply in_or_app; right; now left).
      exfalso. apply (H r); auto. now apply ruleMatches_iff.
    + split; [|reflexivity]. intros _ r Hr.
      apply ruleMatches_false_iff; auto.
      exact (proj1 (find_none_all_false _ _) F r Hr).
  - intros r k t. apply substringCI_occurs.
  - intros r k t Hr Hk Ht. rewrite (toUpperCase_ascii t Ht).
    now apply (occursIn_upperAscii r).
Qed.

Example classify_scenario :
  mapThemesToCategory ["MILITARY_ACTIVITY"; "TERROR"] = Some war
  /\ mapThemesToCategory ["Soccer_match"; "flood"] = Some disaster
  /\ mapThemesToCategory ["TAX_FNCACT"] = None.
Proof. repeat split. Qed.

(** Upper-casing reads whole characters. The sharp s becomes SS, so a tag
    that ends in it after [job] holds the keyword JOBS; the dotless i
    becomes I, so a tag made of [a] and it holds the keyword AI. *)
Example classify_beyond_ascii :
  toUpperCase ("job" ++ utf8 0xDF) = "JOBSS"
  /\ mapThemesToCategory [("job" ++ utf8 0xDF)%string] = Some economy
  /\ toUpperCase ("a" ++ utf8 0x131) = "AI"
  /\ mapThemesToCategory [("a" ++ utf8 0x131)%string] = Some tech.
Proof. repeat split; vm_compute; reflexivity. Qed.

(** ** Record Parser *)

Lemma filterSome_In {A : Type} (l : list (option A)) (a : A) :
  In a (filterSome l) <-> In (Some a) l.
Proof.
  induction l as [|[b|] l IH]; simpl.
  - tauto.
  - rewrite IH. split; intros [H|H]; auto; left; congruence.
  - rewrite IH. split; [auto|]. intros [H|H]; [discriminate|exact H].
Qed.

Lemma truthy_false s : truthy s = false <-> s = EmptyString.
Proof. destruct s; simpl; split; congruence. Qed.

(** C1, as the code has it. A token of the geo column is dropped exactly
    when #-field 0 is empty or one of the two coordinates parses to NaN,
    where a missing or empty #-field 4 or 5 is read as the text 0; the row
    keeps, in order, the mentions of its other tokens. A kept token yields
    the name from #-field 0 (not empty), the country from #-field 2, and as
    latitude and longitude what parseFloat reads in #-fields 4 and 5,
    neither of them NaN. *)
Theorem parseToken_drop_or_keep (cols : list string) :
  (forall g, In g (locations (factOfCols cols)) <->
             exists tok, In tok (field cols 8) /\ parseToken tok = Some g)
  /\ forall tok,
      let p := split "#" tok in
      let la := parseFloat (or_else (nth 4 p EmptyString) "0") in
      let lo := parseFloat (or_else (nth 5 p EmptyString) "0") in
      (parseToken tok = None <->
       nth 0 p EmptyString = EmptyString \/ isNaN la = true \/ isNaN lo = true)
      /\ forall g, parseToken tok = Some g ->
           name g = nth 0 p EmptyString /\ name g <> EmptyString
           /\ country g = nth 2 p EmptyString
           /\ lat g = la /\ lon g = lo
           /\ isNaN (lat g) = false /\ isNaN (lon g) = false.
Proof.
  split.
  - intro g. unfold factOfCols; simpl. rewrite filterSome_In, in_map_iff.
    split; intros [tok [H1 H2]]; exists tok; auto.
  - intros tok p la lo. unfold parseToken, at_or_empty. fold p. fold la. fold lo.
    destruct (truthy (nth 0 p EmptyString)) eqn:T; simpl.
    + destruct (isNaN la) eqn:Na; simpl.
      * split; [split; auto|discriminate].
      * destruct (isNaN lo) eqn:No; simpl.
        -- split; [split; auto|discriminate].
        -- split.
           ++ split; [discriminate|].
              intros [H|[H|H]]; try discriminate.
              apply truthy_false in H. congruence.
           ++ intros g [= <-]. simpl. repeat split; auto.
              intro H. apply truthy_false in H. congruence.
    + apply truthy_false in T. split; [split; auto|discriminate].
Qed.

Lemma parseToken_drop_or_keep_witness :
  exists g, parseToken "Kyiv#1#UA#UA12#50.45#30.52" = Some g
            /\ name g = "Kyiv" /\ country g = "UA" /\ isNaN (lat g) = false.
Proof.
  eexists. split; [reflexivity|].
  destruct (proj2 (proj2 (parseToken_drop_or_keep []) "Kyiv#1#UA#UA12#50.45#30.52")
                  _ eq_refl) as [Hn [_ [Hc [_ [_ [Hl _]]]]]].
  split; [exact Hn | split; [exact Hc | exact Hl]].
Defined.

(** C1, as stated, fails: a token whose latitude field spells an infinity
    is kept, with a latitude that is not finite. *)
Lemma parseToken_keeps_infinite_latitude :
  exists g, parseToken "Atlantis#1#ZZ#ZZ00#Infinity#2" = Some g
            /\ isFinite (lat g) = false.
Proof. eexists. split; reflexivity. Qed.

Lemma field_short (cols : list string) (i : nat) :
  List.length cols <= i -> field cols i = [].
Proof.
  intro H. unfold field, at_or_empty. now rewrite nth_overflow.
Qed.

Lemma rowsOf_nonempty (data : string) : 1 <= List.length (rowsOf data).
Proof.
  unfold rowsOf. rewrite length_map.
  generalize (trim data). intro s. induction s as [|c s IH]; simpl; [lia|].
  destruct (Ascii.eqb c LF); simpl; [lia|].
  destruct (split LF s); simpl in *; lia.
Qed.

Section ParserTotal.
Variable World : Type.
Variable axiosGetFeed : World -> result string * World.

(** C9. Whatever text the feed request returns, [fetchGKGLastHour] does
    not throw: it returns one fact per row of the text, and the fact of a
    row is made of what its columns hold, so a row with too few columns
    still gives a fact, with no themes when column 4 is missing and no
    locations when column 8 is missing. *)
Theorem fetchGKGLastHour_never_throws_on_text (w w1 : World) (data : string) :
  axiosGetFeed w = (Ok data, w1) ->
  fetchGKGLastHour axiosGetFeed w = (Ok (parseGKG data), w1)
  /\ List.length (parseGKG data) = List.length (rowsOf data)
  /\ forall i cols,
      nth_error (rowsOf data) i = Some cols ->
      nth_error (parseGKG data) i = Some (factOfCols cols)
      /\ (List.length cols <= 4 -> themes (factOfCols cols) = [])
      /\ (List.length cols <= 8 -> locations (factOfCols cols) = []).
Proof.
  intro H. unfold fetchGKGLastHour. rewrite H. split; [reflexivity|].
  unfold parseGKG. rewrite length_map. split; [reflexivity|].
  intros i cols Hi. split; [|split].
  - rewrite nth_error_map, Hi. reflexivity.
  - intro L. simpl. now apply field_short.
  - intro L. simpl. now rewrite field_short.
Qed.

End ParserTotal.

Lemma fetchGKGLastHour_never_throws_on_text_witness :
  fetchGKGLastHour
    (fun w : unit =>
       (Ok ("only" ++ String TAB "three" ++ String TAB "columns")%string, w)) tt
  = (Ok [ {| themes := []; locations := [] |} ], tt).
Proof.
  destruct (fetchGKGLastHour_never_throws_on_text
              unit
              (fun w =>
                 (Ok ("only" ++ String TAB "three" ++ String TAB "columns")%string,
                  w)) tt tt _ eq_refl)
    as [H _].
  exact H.
Defined.

(** ** Place Aggregator *)

(** *** The map of buckets *)

Lemma map_get_set_same id v m : map_get id (map_set id v m) = Some v.
Proof.
  induction m as [|[k x] m IH]; simpl.
  - now rewrite String.eqb_refl.
  - destruct (String.eqb k id) eqn:E; simpl; rewrite E; auto.
Qed.

Lemma map_get_set_other id id' v m :
  id' <> id -> map_get id' (map_set id v m) = map_get id' m.
Proof.
  intro N. induction m as [|[k x] m IH]; simpl.
  - destruct (String.eqb id id') eqn:E; [|reflexivity].
    apply String.eqb_eq in E. congruence.
  - destruct (String.eqb k id) eqn:E; simpl.
    + apply String.eqb_eq in E. subst k.
      destruct (String.eqb id id') eqn:E'; [|reflexivity].
      apply String.eqb_eq in E'. congruence.
    + now rewrite IH.
Qed.

Lemma map_get_None_keys id m : map_get id m = None <-> ~ In id (map fst m).
Proof.
  induction m as [|[k x] m IH]; simpl.
  - tauto.
  - destruct (String.eqb k id) eqn:E.
    + apply String.eqb_eq in E. split; [discriminate|]. intro H. exfalso. auto.
    + apply String.eqb_neq in E. rewrite IH. tauto.
Qed.

Lemma map_set_keys id v m :
  map fst (map_set id v m) =
  match map_get id m with
  | Some _ => map fst m
  | None => map fst m ++ [id]
  end.
Proof.
  induction m as [|[k x] m IH]; simpl; [reflexivity|].
  destruct (String.eqb k id) eqn:E; simpl; [reflexivity|].
  rewrite IH. now destruct (map_get id m).
Qed.

Lemma map_set_NoDup id v m :
  NoDup (map fst m) -> NoDup (map fst (map_set id v m)).
Proof.
  intro H. rewrite map_set_keys. destruct (map_get id m) eqn:G; [exact H|].
  apply map_get_None_keys in G.
  apply NoDup_app; [exact H | repeat constructor; intros [] | ].
  intros a Ha [<-|[]]. contradiction.
Qed.

(** *** Counts *)

Lemma countIn_increment c c' cs :
  countIn c (increment c' cs) =
  countIn c cs + (if cat_eqb c' c then 1 else 0).
Proof.
  induction cs as [|[k n] cs IH]; simpl.
  - destruct (cat_eqb c' c); reflexivity.
  - destruct (cat_eqb k c') eqn:E; simpl.
    + apply cat_eqb_eq in E. subst k. destruct (cat_eqb c' c); lia.
    + destruct (cat_eqb k c) eqn:E2; [|exact IH].
      apply cat_eqb_eq in E2. subst k.
      destruct (cat_eqb c' c) eqn:E3; [|lia].
      apply cat_eqb_eq in E3. subst c'. rewrite cat_eqb_refl in E. discriminate.
Qed.

Lemma totalCount_set c id v m :
  totalCount c (map_set id v m) + countAt c id m =
  totalCount c m + countIn c (counts v).
Proof.
  unfold totalCount, countAt, values.
  induction m as [|[k x] m IH]; simpl.
  - lia.
  - destruct (String.eqb k id) eqn:E; simpl; lia.
Qed.

Lemma countAt_addMention c id c' m loc :
  countAt c id (addMention c' m loc) =
  countAt c id m +
  (if cat_eqb c' c && String.eqb (bucketKey loc) id then 1 else 0).
Proof.
  unfold addMention, countAt.
  destruct (String.eqb (bucketKey loc) id) eqn:E.
  - apply String.eqb_eq in E. subst id. rewrite map_get_set_same. simpl.
    rewrite countIn_increment, andb_true_r.
    destruct (map_get (bucketKey loc) m); reflexivity.
  - apply String.eqb_neq in E. rewrite map_get_set_other by congruence.
    rewrite andb_false_r. lia.
Qed.

Lemma totalCount_addMention c c' m loc :
  totalCount c (addMention c' m loc) =
  totalCount c m + (if cat_eqb c' c then 1 else 0).
Proof.
  unfold addMention.
  pose proof (totalCount_set c (bucketKey loc)
                (bump c' match map_get (bucketKey loc) m with
                         | Some b => b
                         | None => freshBucket loc
                         end) m) as H.
  simpl in H. rewrite countIn_increment in H. unfold countAt in H.
  destruct (map_get (bucketKey loc) m); simpl in H; lia.
Qed.

Lemma fold_left_flat_map {A B C : Type} (f : A -> C -> A) (g : B -> list C)
      (l : list B) (a : A) :
  fold_left f (flat_map g l) a = fold_left (fun a x => fold_left f (g x) a) l a.
Proof.
  revert a; induction l as [|x l IH]; intro a; simpl; [reflexivity|].
  now rewrite fold_left_app, IH.
Qed.

Lemma fold_left_pairs c (locs : list GeoMention) (m : Buckets) :
  fold_left addPair (map (pair c) locs) m = fold_left (addMention c) locs m.
Proof.
  revert m; induction locs as [|l locs IH]; intro m; simpl; [reflexivity|].
  apply IH.
Qed.

Lemma addRow_pairs (m : Buckets) (row : EventFact) :
  addRow m row =
  fold_left addPair
    match mapThemesToCategory (themes row) with
    | Some c => map (pair c) (locations row)
    | None => []
    end m.
Proof.
  unfold addRow. destruct (mapThemesToCategory (themes row)); simpl;
    [now rewrite fold_left_pairs | reflexivity].
Qed.

Lemma aggregate_pairs (gkg : list EventFact) :
  aggregate gkg = fold_left addPair (pairsOf gkg) [].
Proof.
  unfold aggregate, pairsOf. rewrite fold_left_flat_map.
  generalize (@nil (string * PlaceBucket)).
  induction gkg as [|row gkg IH]; intro m; simpl; [reflexivity|].
  now rewrite addRow_pairs, IH.
Qed.

Lemma totalCount_fold c (ps : list (Category * GeoMention)) (m : Buckets) :
  totalCount c (fold_left addPair ps m) =
  totalCount c m + List.length (filter (fun e => cat_eqb (fst e) c) ps).
Proof.
  revert m; induction ps as [|[c' loc] ps IH]; intro m; simpl; [lia|].
  rewrite IH. unfold addPair; simpl. rewrite totalCount_addMention.
  destruct (cat_eqb c' c); simpl; lia.
Qed.

Lemma countAt_fold c id (ps : list (Category * GeoMention)) (m : Buckets) :
  countAt c id (fold_left addPair ps m) =
  countAt c id m +
  List.length
    (filter (fun e => cat_eqb (fst e) c && String.eqb (bucketKey (snd e)) id) ps).
Proof.
  revert m; induction ps as [|[c' loc] ps IH]; intro m; simpl; [lia|].
  rewrite IH. unfold addPair; simpl. rewrite countAt_addMention.
  destruct (cat_eqb c' c && String.eqb (bucketKey loc) id); simpl; lia.
Qed.

(** C5. After aggregation the sum of [counts[c]] over all buckets is the
    number of (fact, mention) pairs whose fact classifies to [c]; bucket by
    bucket, [counts[c]] is the number of such pairs with the key of the
    bucket; and a fact of category [c] all of whose mentions have one key
    adds the number of its mentions to that bucket's count. *)
Theorem aggregate_count_invariant (gkg : list EventFact) (c : Category) :
  totalCount c (aggregate gkg) =
    List.length (filter (fun e => cat_eqb (fst e) c) (pairsOf gkg))
  /\ (forall id,
         countAt c id (aggregate gkg) =
         List.length
           (filter (fun e => cat_eqb (fst e) c
                             && String.eqb (bucketKey (snd e)) id)
                   (pairsOf gkg)))
  /\ (forall (m : Buckets) (row : EventFact) (id : string),
         mapThemesToCategory (themes row) = Some c ->
         (forall loc, In loc (locations row) -> bucketKey loc = id) ->
         countAt c id (addRow m row) =
         countAt c id m + List.length (locations row)).
Proof.
  rewrite aggregate_pairs. split; [|split].
  - now rewrite totalCount_fold.
  - intro id. now rewrite countAt_fold.
  - intros m row id Hc Hk. rewrite addRow_pairs, Hc, countAt_fold. f_equal.
    induction (locations row) as [|l locs IH]; simpl; [reflexivity|].
    rewrite cat_eqb_refl, (Hk l) by now left. rewrite String.eqb_refl. simpl.
    f_equal. apply IH. intros loc Hl. apply Hk. now right.
Qed.

Lemma aggregate_count_invariant_witness :
  countAt war "50.450,30.520:Kyiv" (addRow [] kyivRow) = 2.
Proof.
  apply (proj2 (proj2 (aggregate_count_invariant [] war))
           [] kyivRow "50.450,30.520:Kyiv").
  - reflexivity.
  - intros loc [<-|[<-|[]]]; reflexivity.
Defined.

(** *** The key *)

Lemma allChars_app P a b :
  allChars P (a ++ b) = allChars P a && allChars P b.
Proof. induction a; simpl; [reflexivity|]. now rewrite IHa, andb_assoc. Qed.

Lemma allChars_weaken (P Q : ascii -> bool) s :
  (forall c, P c = true -> Q c = true) ->
  allChars P s = true -> allChars Q s = true.
Proof.
  intro H. induction s; simpl; [reflexivity|].
  rewrite !andb_true_iff. intros [H1 H2]. auto.
Qed.

Lemma string_of_uint_digits u :
  allChars isDigit (NilEmpty.string_of_uint u) = true.
Proof. induction u; simpl; auto. Qed.

Lemma isDigit_numeral c : isDigit c = true -> numeralChar c = true.
Proof. intro H. unfold numeralChar. now rewrite H. Qed.

Lemma decimal_numeral n : allChars numeralChar (decimal n) = true.
Proof.
  apply (allChars_weaken isDigit); [exact isDigit_numeral|].
  apply string_of_uint_digits.
Qed.

Lemma digitChar_numeral n : (0 <= n <= 9)%Z -> numeralChar (digitChar n) = true.
Proof.
  intro H.
  assert (A : forallb (fun k => numeralChar (digitChar (Z.of_nat k))) (seq 0 10)
              = true) by reflexivity.
  rewrite forallb_forall in A. rewrite <- (Z2Nat.id n) by lia.
  apply A, in_seq. lia.
Qed.

Lemma fixed3_numeral n : allChars numeralChar (fixed3 n) = true.
Proof.
  unfold fixed3. rewrite allChars_app, decimal_numeral. simpl.
  rewrite !digitChar_numeral; [reflexivity| | |];
    Z.div_mod_to_equations; lia.
Qed.

Lemma toStringLarge_numeral x v : allChars numeralChar (toStringLarge x v) = true.
Proof.
  unfold toStringLarge.
  destruct (shortest _ _ _ _) as [n s].
  pose proof (decimal_numeral s) as D.
  destruct (decimal s) as [|c rest]; [reflexivity|].
  cbn [allChars] in D. apply andb_true_iff in D as [Dc Dr].
  destruct rest as [|c' r].
  - change (String c ("e+" ++ decimal (n - 1))%string)
      with (String c EmptyString ++ "e+" ++ decimal (n - 1))%string.
    rewrite !allChars_app, decimal_numeral. cbn [allChars]. now rewrite Dc.
  - change (String c ("." ++ String c' r ++ "e+" ++ decimal (n - 1))%string)
      with (String c EmptyString ++ "." ++ String c' r ++ "e+"
            ++ decimal (n - 1))%string.
    rewrite !allChars_app, decimal_numeral, Dr. cbn [allChars]. now rewrite Dc.
Qed.

Lemma toFixed3_numeral x : allChars numeralChar (toFixed3 x) = true.
Proof.
  destruct x as [s|s| |s m e]; cbn [toFixed3]; try reflexivity.
  - destruct s; reflexivity.
  - rewrite allChars_app.
    destruct (_ <=? _)%Z; rewrite ?toStringLarge_numeral, ?fixed3_numeral;
      destruct s; reflexivity.
Qed.

Lemma numeral_notChar sep :
  numeralChar sep = false ->
  forall c, numeralChar c = true -> notChar sep c = true.
Proof.
  intros H c Hc. unfold notChar. destruct (Ascii.eqb c sep) eqn:E; [|reflexivity].
  apply Ascii.eqb_eq in E. congruence.
Qed.

Lemma app_separator_inj sep a1 a2 r1 r2 :
  allChars (notChar sep) a1 = true -> allChars (notChar sep) a2 = true ->
  (a1 ++ String sep r1 = a2 ++ String sep r2)%string ->
  a1 = a2 /\ r1 = r2.
Proof.
  revert a2; induction a1 as [|c a1 IH]; intros [|d a2] H1 H2 E; simpl in *.
  - injection E as ->. auto.
  - injection E as <- _. unfold notChar in H2. rewrite Ascii.eqb_refl in H2.
    discriminate.
  - injection E as -> _. unfold notChar in H1. rewrite Ascii.eqb_refl in H1.
    discriminate.
  - injection E as -> E. apply andb_true_iff in H1 as [_ H1].
    apply andb_true_iff in H2 as [_ H2].
    destruct (IH _ H1 H2 E) as [-> ->]. auto.
Qed.

Lemma bucketKey_inj a b :
  bucketKey a = bucketKey b <->
  toFixed3 (lat a) = toFixed3 (lat b) /\ toFixed3 (lon a) = toFixed3 (lon b)
  /\ name a = name b.
Proof.
  unfold bucketKey. split.
  - intro E. cbn [append] in E.
    apply (app_separator_inj ",") in E as [E1 E];
      try (apply (allChars_weaken numeralChar);
           [now apply numeral_notChar | apply toFixed3_numeral]).
    apply (app_separator_inj ":") in E as [E2 E3];
      try (apply (allChars_weaken numeralChar);
           [now apply numeral_notChar | apply toFixed3_numeral]).
    auto.
  - intros [-> [-> ->]]. reflexivity.
Qed.

(** *** Seeding *)

Lemma or_else_empty s : or_else s EmptyString = s.
Proof. destruct s; reflexivity. Qed.

Lemma seedAt_addMention id c m loc :
  seedAt id (addMention c m loc) =
  match seedAt id m with
  | Some x => Some x
  | None => if String.eqb (bucketKey loc) id then Some (mentionSeed loc) else None
  end.
Proof.
  unfold seedAt, addMention.
  destruct (String.eqb (bucketKey loc) id) eqn:E.
  - apply String.eqb_eq in E. subst id. rewrite map_get_set_same.
    destruct (map_get (bucketKey loc) m) as [b|]; simpl; [reflexivity|].
    unfold seedOf, mentionSeed; simpl. now rewrite or_else_empty.
  - apply String.eqb_neq in E. rewrite map_get_set_other by congruence.
    now destruct (map_get id m).
Qed.

Lemma seedAt_fold id (ps : list (Category * GeoMention)) (m : Buckets) :
  seedAt id (fold_left addPair ps m) =
  match seedAt id m with
  | Some x => Some x
  | None => option_map (fun e => mentionSeed (snd e)) (find (hasKey id) ps)
  end.
Proof.
  revert m; induction ps as [|[c loc] ps IH]; intro m; simpl.
  - now destruct (seedAt id m).
  - rewrite IH. unfold addPair; simpl. rewrite seedAt_addMention.
    unfold hasKey; simpl.
    destruct (seedAt id m); [reflexivity|].
    now destruct (String.eqb (bucketKey loc) id).
Qed.

Lemma keys_NoDup_fold (ps : list (Category * GeoMention)) (m : Buckets) :
  NoDup (map fst m) -> NoDup (map fst (fold_left addPair ps m)).
Proof.
  revert m; induction ps as [|[c loc] ps IH]; intros m H; simpl; [exact H|].
  apply IH. unfold addPair, addMention. now apply map_set_NoDup.
Qed.

(** C8, as the code has it. Two mentions get the same aggregation key
    exactly when the [toFixed(3)] renderings of their latitudes, those of
    their longitudes, and their names coincide; the map holds one bucket
    per key and every classified pair has the bucket of its key. The name,
    latitude, longitude and country of a bucket are those of the first
    classified mention with its key, and a later mention with that key
    leaves them as they are and adds one to the count of its category. *)
Theorem bucket_key_and_seed (gkg : list EventFact) :
  (forall a b : GeoMention,
      bucketKey a = bucketKey b <->
      toFixed3 (lat a) = toFixed3 (lat b)
      /\ toFixed3 (lon a) = toFixed3 (lon b) /\ name a = name b)
  /\ NoDup (map fst (aggregate gkg))
  /\ (forall c loc,
         In (c, loc) (pairsOf gkg) ->
         exists b, map_get (bucketKey loc) (aggregate gkg) = Some b)
  /\ (forall id b,
         map_get id (aggregate gkg) = Some b ->
         exists c loc,
           find (hasKey id) (pairsOf gkg) = Some (c, loc)
           /\ p_name b = name loc /\ p_lat b = lat loc
           /\ p_lon b = lon loc /\ p_country b = country loc)
  /\ (forall (m : Buckets) c loc b,
         map_get (bucketKey loc) m = Some b ->
         exists b',
           map_get (bucketKey loc) (addMention c m loc) = Some b'
           /\ p_name b' = p_name b /\ p_lat b' = p_lat b
           /\ p_lon b' = p_lon b /\ p_country b' = p_country b
           /\ forall c', countIn c' (counts b') =
                         countIn c' (counts b) + (if cat_eqb c c' then 1 else 0)).
Proof.
  split; [exact bucketKey_inj|]. rewrite aggregate_pairs. split; [|split; [|split]].
  - apply keys_NoDup_fold. constructor.
  - intros c loc Hin.
    pose proof (seedAt_fold (bucketKey loc) (pairsOf gkg) []) as S. simpl in S.
    destruct (find (hasKey (bucketKey loc)) (pairsOf gkg)) eqn:F.
    + unfold seedAt in S.
      destruct (map_get (bucketKey loc) (fold_left addPair (pairsOf gkg) []));
        [eauto|discriminate].
    + apply find_none_all_false with (y := (c, loc)) in F; [|exact Hin].
      unfold hasKey in F; simpl in F. rewrite String.eqb_refl in F. discriminate.
  - intros id b G.
    pose proof (seedAt_fold id (pairsOf gkg) []) as S. simpl in S.
    unfold seedAt in S at 1. rewrite G in S. simpl in S.
    destruct (find (hasKey id) (pairsOf gkg)) as [[c loc]|]; [|discriminate].
    exists c, loc. split; [reflexivity|].
    unfold seedOf, mentionSeed in S. simpl in S. injection S. auto.
  - intros m c loc b G. exists (bump c b). unfold addMention.
    rewrite map_get_set_same, G. repeat split.
    intro c'. simpl. apply countIn_increment.
Qed.

Lemma bucket_key_and_seed_witness :
  exists b, map_get (bucketKey kyiv) (aggregate [kyivRow]) = Some b
            /\ p_name b = "Kyiv" /\ p_country b = "UA".
Proof.
  destruct (proj1 (proj2 (proj2 (bucket_key_and_seed [kyivRow]))) war kyiv)
    as [b G]; [now left|].
  exists b. split; [exact G|].
  destruct (proj1 (proj2 (proj2 (proj2 (bucket_key_and_seed [kyivRow]))))
              _ b G) as [c [loc [F [Hn [_ [_ Hc]]]]]].
  vm_compute in F. injection F as _ <-. split; [exact Hn | exact Hc].
Defined.

(** C8, as stated, fails: a latitude just south of the equator and one
    just north of it both round to 0.000, the longitudes and the names
    coincide, and yet the two mentions are keyed apart and make two
    buckets. *)
Lemma bucketKey_separates_signed_zero :
  round3 (lat quitoSouth) = round3 (lat quitoNorth)
  /\ round3 (lon quitoSouth) = round3 (lon quitoNorth)
  /\ name quitoSouth = name quitoNorth
  /\ bucketKey quitoSouth <> bucketKey quitoNorth
  /\ map fst (aggregate [quitoRow])
     = ["-0.000,-78.500:Quito"; "0.000,-78.500:Quito"].
Proof.
  repeat split; try (vm_compute; reflexivity).
  intro H. vm_compute in H. discriminate.
Qed.

(** ** Ranker *)

(** *** Objects keyed by category *)

Lemma lookup_push {A : Type} c c' (x : A) m :
  lookup c (push c' x m) =
  if cat_eqb c' c then Some (entriesOf c m ++ [x]) else lookup c m.
Proof.
  unfold entriesOf. induction m as [|[k l] m IH]; simpl.
  - now destruct (cat_eqb c' c).
  - destruct (cat_eqb k c') eqn:E; simpl.
    + apply cat_eqb_eq in E. subst k. now destruct (cat_eqb c' c).
    + destruct (cat_eqb k c) eqn:E2; [|exact IH].
      apply cat_eqb_eq in E2. subst k.
      destruct (cat_eqb c' c) eqn:E3; [|reflexivity].
      apply cat_eqb_eq in E3. subst c'. rewrite cat_eqb_refl in E. discriminate.
Qed.

Lemma lookup_None_keys {A : Type} c (m : ByCategory A) :
  lookup c m = None <-> ~ In c (map fst m).
Proof.
  induction m as [|[k l] m IH]; simpl; [tauto|].
  destruct (cat_eqb k c) eqn:E.
  - apply cat_eqb_eq in E. split; [discriminate|]. intro H. exfalso. auto.
  - apply cat_eqb_neq in E. rewrite IH. tauto.
Qed.

Lemma lookup_In {A : Type} c (l : list A) (m : ByCategory A) :
  NoDup (map fst m) -> In (c, l) m -> lookup c m = Some l.
Proof.
  induction m as [|[k x] m IH]; simpl; [intros _ []|].
  intros N [E|Hin].
  - injection E as -> ->. now rewrite cat_eqb_refl.
  - inversion N as [|? ? Hk N']; subst.
    destruct (cat_eqb k c) eqn:E; [|auto].
    apply cat_eqb_eq in E. subst k. exfalso. apply Hk.
    apply in_map_iff. exists (c, l). auto.
Qed.

Lemma In_lookup {A : Type} c (l : list A) (m : ByCategory A) :
  lookup c m = Some l -> In (c, l) m.
Proof.
  induction m as [|[k x] m IH]; simpl; [discriminate|].
  destruct (cat_eqb k c) eqn:E; [|auto].
  apply cat_eqb_eq in E. intros [= ->]. left. congruence.
Qed.

Lemma push_keys {A : Type} c (x : A) m :
  map fst (push c x m) =
  match lookup c m with
  | Some _ => map fst m
  | None => map fst m ++ [c]
  end.
Proof.
  induction m as [|[k l] m IH]; simpl; [reflexivity|].
  destruct (cat_eqb k c) eqn:E; simpl; [reflexivity|].
  rewrite IH. now destruct (lookup c m).
Qed.

Lemma append_key_NoDup (c : Category) (ks : list Category) :
  NoDup ks -> ~ In c ks -> NoDup (ks ++ [c]).
Proof.
  intros H N. apply NoDup_app; [exact H | repeat constructor; intros [] | ].
  intros a Ha [<-|[]]. contradiction.
Qed.

Lemma push_NoDup {A : Type} c (x : A) m :
  NoDup (map fst m) -> NoDup (map fst (push c x m)).
Proof.
  intro H. rewrite push_keys. destruct (lookup c m) eqn:G; [exact H|].
  apply append_key_NoDup; [exact H | now apply lookup_None_keys].
Qed.

(** *** Grouping *)

Lemma groupByCategory_emissions (places : list PlaceBucket) :
  groupByCategory places = fold_left pushEmission (emissions places) [].
Proof.
  unfold groupByCategory, emissions. rewrite fold_left_flat_map.
  generalize (@nil (Category * list RankedPlace)).
  induction places as [|p places IH]; intro m; simpl; [reflexivity|].
  rewrite <- IH. f_equal. unfold pushPlace.
  generalize m. induction (counts p) as [|e cs IHc]; intro m0; simpl;
    [reflexivity|]. apply IHc.
Qed.

Lemma entriesOf_push {A : Type} c c' (x : A) m :
  entriesOf c (push c' x m) =
  entriesOf c m ++ (if cat_eqb c' c then [x] else []).
Proof.
  unfold entriesOf at 1. rewrite lookup_push.
  destruct (cat_eqb c' c); [reflexivity|].
  unfold entriesOf. now rewrite app_nil_r.
Qed.

Lemma entriesOf_fold c (es : list (Category * RankedPlace)) m :
  entriesOf c (fold_left pushEmission es m) =
  entriesOf c m ++ map snd (filter (inCategory c) es).
Proof.
  revert m; induction es as [|[c' x] es IH]; intro m; simpl.
  - now rewrite app_nil_r.
  - rewrite IH. unfold pushEmission, inCategory; simpl.
    rewrite entriesOf_push, <- app_assoc.
    now destruct (cat_eqb c' c).
Qed.

Lemma keys_NoDup_group (es : list (Category * RankedPlace)) m :
  NoDup (map fst m) -> NoDup (map fst (fold_left pushEmission es m)).
Proof.
  revert m; induction es as [|[c x] es IH]; intros m H; simpl; [exact H|].
  apply IH. now apply push_NoDup.
Qed.

Lemma groupByCategory_NoDup places : NoDup (map fst (groupByCategory places)).
Proof.
  rewrite groupByCategory_emissions. apply keys_NoDup_group. constructor.
Qed.

Lemma groupByCategory_In c l places :
  In (c, l) (groupByCategory places) -> l = candidatesOf c places.
Proof.
  intro H. apply lookup_In in H; [|apply groupByCategory_NoDup].
  pose proof (entriesOf_fold c (emissions places) []) as E.
  rewrite <- groupByCategory_emissions in E. unfold entriesOf in E at 1.
  rewrite H in E. exact E.
Qed.

(** *** Sorting *)

Lemma insertDesc_In x y l : In y (insertDesc x l) <-> y = x \/ In y l.
Proof.
  induction l as [|z l IH]; simpl.
  - split; intros [H|H]; auto.
  - destruct (score z <=? score x); simpl; [split; intros [H|H]; auto|].
    rewrite IH. tauto.
Qed.

Lemma insertDesc_sorted x l : sortedDesc l -> sortedDesc (insertDesc x l).
Proof.
  unfold sortedDesc. induction 1 as [|z l S IH F]; simpl.
  - repeat constructor.
  - destruct (score z <=? score x) eqn:E.
    + apply Nat.leb_le in E. constructor; [now constructor|].
      constructor; [exact E|].
      rewrite Forall_forall in *. intros y Hy. specialize (F y Hy). lia.
    + apply Nat.leb_gt in E. constructor; [exact IH|].
      rewrite Forall_forall in *. intros y Hy.
      apply insertDesc_In in Hy as [->|Hy]; [lia|auto].
Qed.

Lemma orderByScoreDesc_sorted l : sortedDesc (orderByScoreDesc l).
Proof.
  induction l; simpl; [constructor | now apply insertDesc_sorted].
Qed.

Lemma filter_insertDesc s x l :
  filter (hasScore s) (insertDesc x l) =
  if hasScore s x then x :: filter (hasScore s) l else filter (hasScore s) l.
Proof.
  induction l as [|y l IH]; simpl; [reflexivity|].
  destruct (score y <=? score x) eqn:E; simpl; [reflexivity|].
  rewrite IH. destruct (hasScore s x) eqn:Hx; [|reflexivity].
  destruct (hasScore s y) eqn:Hy; [|reflexivity].
  unfold hasScore in *. apply Nat.eqb_eq in Hx, Hy. apply Nat.leb_gt in E. lia.
Qed.

Lemma filter_orderByScoreDesc s l :
  filter (hasScore s) (orderByScoreDesc l) = filter (hasScore s) l.
Proof.
  induction l as [|x l IH]; simpl; [reflexivity|].
  rewrite filter_insertDesc, IH. reflexivity.
Qed.

Lemma sortedDesc_nonIncreasing l : sortedDesc l -> nonIncreasing l.
Proof.
  unfold sortedDesc, nonIncreasing. induction 1 as [|z l S IH F].
  - intros i j a b _ H. destruct i; discriminate.
  - intros i j a b Hij Ha Hb. destruct j as [|j]; [lia|]. simpl in Hb.
    destruct i as [|i]; simpl in Ha.
    + injection Ha as ->. rewrite Forall_forall in F. apply F.
      eapply nth_error_In; eauto.
    + apply (IH i j); auto. lia.
Qed.

Lemma nth_error_firstn_Some {A : Type} n (l : list A) i a :
  nth_error (firstn n l) i = Some a -> nth_error l i = Some a.
Proof.
  revert l i; induction n as [|n IH]; intros [|x l] i; simpl;
    try (destruct i; discriminate).
  destruct i; simpl; auto.
Qed.

Lemma firstn_nonIncreasing n l : nonIncreasing l -> nonIncreasing (firstn n l).
Proof.
  intros H i j a b Hij Ha Hb.
  apply (H i j); eauto using nth_error_firstn_Some.
Qed.

Lemma filter_firstn_prefix {A : Type} (f : A -> bool) n (l : list A) :
  exists rest, filter f l = filter f (firstn n l) ++ rest.
Proof.
  exists (filter f (skipn n l)).
  now rewrite <- filter_app, firstn_skipn.
Qed.

(** C6. In each category of the ranker's output the scores never
    increase along the list, the list has at most [TOP_N] places, and the
    places of any one score are the first ones of that score among the
    places of the category, in the order in which the aggregation map
    lists them. *)
Theorem rankPlaces_sorted_capped_stable
        (TOP_N : nat) (places : list PlaceBucket) (c : Category)
        (l : list RankedPlace) :
  In (c, l) (rankPlaces TOP_N places) ->
  nonIncreasing l
  /\ List.length l <= TOP_N
  /\ forall s, exists rest,
       filter (hasScore s) (candidatesOf c places) = filter (hasScore s) l ++ rest.
Proof.
  unfold rankPlaces. intro H. apply in_map_iff in H as [[c0 l0] [E H]].
  simpl in E. injection E as -> <-.
  apply groupByCategory_In in H. subst l0. split; [|split].
  - apply firstn_nonIncreasing, sortedDesc_nonIncreasing,
      orderByScoreDesc_sorted.
  - apply firstn_le_length.
  - intro s. rewrite <- (filter_orderByScoreDesc s (candidatesOf c places)).
    apply filter_firstn_prefix.
Qed.

Lemma rankPlaces_sorted_capped_stable_witness :
  rankPlaces 3 tiedPlaces = [(war, tiedWar); (crime, tiedCrime)]
  /\ nonIncreasing tiedWar
  /\ List.length tiedWar <= 3
  /\ (exists rest,
        [ rankedSpot "B" [(war, 3); (crime, 2)] 3; rankedSpot "D" [(war, 3)] 3 ]
        = filter (hasScore 3) tiedWar ++ rest)
  /\ (exists rest,
        [ rankedSpot "C" [(war, 2)] 2; rankedSpot "E" [(war, 2)] 2 ]
        = filter (hasScore 2) tiedWar ++ rest).
Proof.
  assert (R : rankPlaces 3 tiedPlaces = [(war, tiedWar); (crime, tiedCrime)])
    by (vm_compute; reflexivity).
  assert (H : In (war, tiedWar) (rankPlaces 3 tiedPlaces))
    by (rewrite R; left; reflexivity).
  pose proof (rankPlaces_sorted_capped_stable 3 tiedPlaces war tiedWar H)
    as [S [L P]].
  split; [exact R|]. split; [exact S|]. split; [exact L|]. split.
  - exact (P 3).
  - exact (P 2).
Defined.

(** ** Camera Enricher *)

Lemma jsval_eqb_eq a b : jsval_eqb a b = true <-> a = b.
Proof.
  destruct a, b; simpl; split; intro H; try congruence; try discriminate.
  - apply Bool.eqb_prop in H. congruence.
  - injection H as ->. apply Bool.eqb_reflx.
  - apply Z.eqb_eq in H. congruence.
  - injection H as ->. apply Z.eqb_refl.
  - apply String.eqb_eq in H. congruence.
  - injection H as ->. apply String.eqb_refl.
Qed.

Lemma seen_iff k seen : existsb (jsval_eqb k) seen = true <-> In k seen.
Proof.
  rewrite existsb_exists. split.
  - intros [x [Hx E]]. apply jsval_eqb_eq in E. congruence.
  - intro H. exists k. split; [exact H | now apply jsval_eqb_eq].
Qed.

Lemma uniqFrom_fresh seen cams c :
  In c (uniqFrom seen cams) -> ~ In (identity c) seen.
Proof.
  revert seen; induction cams as [|x cams IH]; intros seen; simpl; [intros []|].
  destruct (existsb (jsval_eqb (identity x)) seen) eqn:E.
  - apply IH.
  - intros [<-|H].
    + intro Hin. apply seen_iff in Hin. congruence.
    + intro Hin. apply (IH _ H). now right.
Qed.

Lemma uniqFrom_NoDup seen cams : NoDup (map identity (uniqFrom seen cams)).
Proof.
  revert seen; induction cams as [|x cams IH]; intros seen; simpl;
    [constructor|].
  destruct (existsb (jsval_eqb (identity x)) seen) eqn:E; [apply IH|].
  simpl. constructor; [|apply IH].
  intro Hin. apply in_map_iff in Hin as [c [Ec Hc]].
  apply uniqFrom_fresh in Hc. apply Hc. left. congruence.
Qed.

Lemma firstn_NoDup {A : Type} n (l : list A) : NoDup l -> NoDup (firstn n l).
Proof.
  revert l; induction n as [|n IH]; intros [|x l] H; simpl; try constructor.
  - inversion H as [|? ? Hx Hl]; subst. intro Hin. apply Hx.
    rewrite <- (firstn_skipn n l). apply in_or_app. now left.
  - inversion H; subst. auto.
Qed.

Section Enricher.
Variable World : Type.
Variable windyNearby : number -> number -> World -> result (list Camera) * World.
Variable ytSearch : string -> World -> result (list Camera) * World.
Variable MAX_CAMS : nat.

(** C7. Whatever the two providers return or throw, the cameras found
    for a place have pairwise different identity keys ([url] when it is
    truthy, else [player], else [id]) and are at most [MAX_CAMS]. *)
Theorem findCamsForPlace_unique_capped (p : RankedPlace) (w : World) :
  NoDup (map identity (fst (findCamsForPlace windyNearby ytSearch MAX_CAMS p w)))
  /\ List.length (fst (findCamsForPlace windyNearby ytSearch MAX_CAMS p w))
     <= MAX_CAMS.
Proof.
  unfold findCamsForPlace, findCamsWith.
  destruct (primary windyNearby p w) as [cams w1].
  destruct (if List.length cams <? MAX_CAMS
            then searchLoop ytSearch MAX_CAMS (p_name (place p)) KWS cams w1
            else (cams, w1)) as [cams2 w2].
  simpl. split.
  - rewrite <- firstn_map. apply firstn_NoDup, uniqFrom_NoDup.
  - apply firstn_le_length.
Qed.

Lemma searchLoop_after_searched placeName pre cams w cams1 w1 :
  searched ytSearch MAX_CAMS placeName pre cams w cams1 w1 ->
  forall rest,
    searchLoop ytSearch MAX_CAMS placeName (pre ++ rest) cams w
    = searchLoop ytSearch MAX_CAMS placeName rest cams1 w1.
Proof.
  induction 1 as [|k r cs v more v1 cs2 v2 Hl Hy _ IH]; intro rest;
    [reflexivity|].
  rewrite <- app_comm_cons. cbn [searchLoop].
  apply Nat.leb_gt in Hl. rewrite Hl, Hy. apply IH.
Qed.

(** C2, as the code has it. When the phrases [pre] have all been
    searched without a failure and the search for the next phrase [kw]
    throws, the failure is caught, the cameras collected so far are
    kept, and the fallback ends there: the result is the one the phrase
    list [pre] alone gives, and no phrase after [kw] is searched, the
    world being left as the failing call left it. *)
Theorem findCamsForPlace_stops_at_failed_search
        (p : RankedPlace) (w w0 w1 w2 : World) (cams0 cams1 : list Camera)
        (pre post : list string) (kw e : string) :
  KWS = pre ++ kw :: post ->
  primary windyNearby p w = (cams0, w0) ->
  List.length cams0 < MAX_CAMS ->
  searched ytSearch MAX_CAMS (p_name (place p)) pre cams0 w0 cams1 w1 ->
  List.length cams1 < MAX_CAMS ->
  ytSearch (p_name (place p) ++ " " ++ kw)%string w1 = (Throw e, w2) ->
  findCamsForPlace windyNearby ytSearch MAX_CAMS p w
  = (fst (findCamsWith windyNearby ytSearch MAX_CAMS pre p w), w2)
  /\ fst (findCamsForPlace windyNearby ytSearch MAX_CAMS p w)
     = firstn MAX_CAMS (uniqBy cams1).
Proof.
  intros HK Hp L0 Hs L1 Ht.
  pose proof (searchLoop_after_searched _ _ _ _ _ _ Hs) as A.
  pose proof (A []) as B. rewrite app_nil_r in B. cbn [searchLoop] in B.
  unfold findCamsForPlace, findCamsWith. rewrite Hp.
  apply Nat.ltb_lt in L0. rewrite L0.
  rewrite HK, A, B. cbn [searchLoop].
  apply Nat.leb_gt in L1. rewrite L1, Ht. cbn [fst]. auto.
Qed.

End Enricher.

Lemma findCamsForPlace_stops_at_failed_search_witness :
  findCamsForPlace windyNone ytFlaky 10 kyivRanked 0
  = (fst (findCamsWith windyNone ytFlaky 10 ["live cam"] kyivRanked 0), 3).
Proof.
  refine (proj1 (findCamsForPlace_stops_at_failed_search
                   nat windyNone ytFlaky 10 kyivRanked 0 1 2 3
                   [] [youtubeCam "abc123"] ["live cam"] (tl (tl KWS))
                   "traffic cam" "quotaExceeded" _ _ _ _ _ _)).
  - reflexivity.
  - reflexivity.
  - simpl; lia.
  - econstructor; [simpl; lia | reflexivity | constructor].
  - simpl; lia.
  - reflexivity.
Defined.

(** C2, as stated, fails: the search for the first phrase throws and no
    camera is returned, while with that failure taken as zero results the
    later phrases find one. *)
Lemma failed_search_skips_later_phrases :
  fst (findCamsForPlace windyNone ytFirstFails 10 kyivRanked 0) = []
  /\ fst (findCamsForPlace windyNone (recovering ytFirstFails) 10 kyivRanked 0)
     = [youtubeCam "abc123"].
Proof. split; vm_compute; reflexivity. Qed.

(** ** Snapshot Builder *)

Lemma push_last {A : Type} c (x : A) front es :
  ~ In c (map fst front) ->
  push c x (front ++ [(c, es)]) = front ++ [(c, es ++ [x])].
Proof.
  induction front as [|[k l] front IH]; cbn [push app map fst In]; intro N.
  - now rewrite cat_eqb_refl.
  - destruct (cat_eqb k c) eqn:E.
    + apply cat_eqb_eq in E. exfalso. auto.
    + rewrite IH; [reflexivity|]. intro H. apply N. now right.
Qed.

Lemma setEmpty_fresh {A : Type} c (m : ByCategory A) :
  ~ In c (map fst m) -> setEmpty c m = m ++ [(c, [])].
Proof.
  induction m as [|[k l] m IH]; cbn [setEmpty app map fst In]; intro N;
    [reflexivity|].
  destruct (cat_eqb k c) eqn:E.
  - apply cat_eqb_eq in E. exfalso. auto.
  - rewrite IH; [reflexivity|]. intro H. apply N. now right.
Qed.

Section Snapshot.
Variable World : Type.
Variable axiosGetFeed : World -> result string * World.
Variable windyNearby : number -> number -> World -> result (list Camera) * World.
Variable ytSearch : string -> World -> result (list Camera) * World.
Variable now : World -> string.
Variable TOP_N : nat.
Variable MAX_CAMS : nat.

Local Abbreviation findCams := (findCamsForPlace windyNearby ytSearch MAX_CAMS).
Local Abbreviation enrichP := (enrichPlaces windyNearby ytSearch MAX_CAMS).
Local Abbreviation enrichA := (enrichAll windyNearby ytSearch MAX_CAMS).
Local Abbreviation ingest :=
  (ingestOnce axiosGetFeed windyNearby ytSearch now TOP_N MAX_CAMS).
Local Abbreviation job :=
  (runIngest axiosGetFeed windyNearby ytSearch now TOP_N MAX_CAMS).
Local Abbreviation lookupsP := (lookupsOf windyNearby ytSearch MAX_CAMS).
Local Abbreviation lookups := (lookupsAll windyNearby ytSearch MAX_CAMS).

(** C3. When the feed request throws, [ingestOnce] throws before it
    assigns [STATE], and the job that runs it, at boot or on the hour,
    leaves [STATE] as it was: same [updatedAt], same [categories], same
    [places]. *)
Theorem ingestOnce_feed_failure_keeps_state
        (w w1 : World) (st : State) (e : string) :
  axiosGetFeed w = (Throw e, w1) ->
  ingest w st = (Throw e, w1, st)
  /\ job w st = (w1, st)
  /\ updatedAt (snd (job w st)) = updatedAt st
  /\ categories (snd (job w st)) = categories st
  /\ places (snd (job w st)) = places st.
Proof.
  intro H.
  assert (I : ingest w st = (Throw e, w1, st)).
  { unfold ingestOnce, fetchGKGLastHour. now rewrite H. }
  assert (J : job w st = (w1, st)).
  { unfold runIngest. now rewrite I. }
  rewrite J. simpl. auto.
Qed.

Lemma enrichPlaces_lookups c l : forall front es places w,
  ~ In c (map fst front) ->
  enrichP c l (front ++ [(c, es)]) places w
  = (front ++ [(c, es ++ map entryOfLookup
                             (filter foundSome (fst (lookupsP l w))))],
     places ++ map (recordOfLookup c) (filter foundSome (fst (lookupsP l w))),
     snd (lookupsP l w)).
Proof.
  induction l as [|p l IH]; intros front es places w N;
    cbn [enrichPlaces lookupsOf].
  - cbn [fst snd filter map]. now rewrite !app_nil_r.
  - destruct (findCamsForPlace windyNearby ytSearch MAX_CAMS p w)
      as [cams w1] eqn:F.
    destruct cams as [|cam cams].
    + rewrite (IH front es places w1 N).
      destruct (lookupsP l w1) as [more w2].
      cbn [fst snd filter foundSome]. reflexivity.
    + rewrite push_last by exact N.
      rewrite (IH front _ _ w1 N).
      destruct (lookupsP l w1) as [more w2].
      cbn [fst snd filter foundSome map].
      unfold entryOfLookup at 2, recordOfLookup at 2. cbn [fst snd].
      now rewrite <- !app_assoc.
Qed.

Lemma enrichAll_lookups ranked : forall cats places w,
  NoDup (map fst ranked) ->
  (forall c, In c (map fst ranked) -> ~ In c (map fst cats)) ->
  enrichA ranked cats places w
  = (cats ++ map entriesFound (fst (lookups ranked w)),
     places ++ flat_map recordsFound (fst (lookups ranked w)),
     snd (lookups ranked w)).
Proof.
  induction ranked as [|[c l] ranked IH]; intros cats places w N Fresh;
    cbn [enrichAll lookupsAll].
  - cbn [fst snd map flat_map]. now rewrite !app_nil_r.
  - cbn [map fst] in N. apply NoDup_cons_iff in N as [Hc N'].
    rewrite setEmpty_fresh by (apply Fresh; now left).
    rewrite (enrichPlaces_lookups c l cats [] places w)
      by (apply Fresh; now left).
    destruct (lookupsP l w) as [found w1] eqn:L.
    cbn [fst snd app].
    rewrite IH; [|exact N'|].
    + destruct (lookups ranked w1) as [more w2] eqn:LA.
      cbn [fst snd map flat_map]. unfold entriesFound at 2, recordsFound at 2.
      cbn [fst snd]. now rewrite <- !app_assoc.
    + intros c' Hin. rewrite map_app, in_app_iff. cbn [map fst In].
      intros [H|[H|[]]].
      * apply (Fresh c'); [now right | exact H].
      * subst c'. contradiction.
Qed.

Lemma lookupsOf_places l : forall w, map fst (fst (lookupsP l w)) = l.
Proof.
  induction l as [|p l IH]; intro w; cbn [lookupsOf]; [reflexivity|].
  destruct (findCamsForPlace windyNearby ytSearch MAX_CAMS p w) as [cams w1].
  specialize (IH w1). destruct (lookupsP l w1) as [more w2].
  cbn [fst map] in *. now rewrite IH.
Qed.

Lemma lookupsAll_places ranked : forall w,
  map placesOf (fst (lookups ranked w)) = ranked.
Proof.
  induction ranked as [|[c l] ranked IH]; intro w; cbn [lookupsAll];
    [reflexivity|].
  pose proof (lookupsOf_places l w) as P.
  destruct (lookupsP l w) as [found w1].
  specialize (IH w1). destruct (lookups ranked w1) as [more w2].
  cbn [fst map] in *. unfold placesOf at 1. cbn [fst snd]. now rewrite P, IH.
Qed.

Lemma foundSome_cams x : foundSome x = true -> snd x <> [].
Proof. unfold foundSome. destruct (snd x); discriminate. Qed.

Lemma filter_foundSome_none (t : list (RankedPlace * list Camera)) :
  (forall p cams, In (p, cams) t -> cams = []) -> filter foundSome t = [].
Proof.
  induction t as [|[p cams] t IH]; intro Z; [reflexivity|].
  cbn [filter]. unfold foundSome at 1. cbn [snd].
  rewrite (Z p cams (or_introl eq_refl)). apply IH.
  intros q cs Hq. apply (Z q cs). now right.
Qed.

(** C10. In the snapshot that a run publishes, [categories] has a key
    for every category of the ranking, in the same order, created before
    any camera is looked up. The run looks up each ranked place once, in
    the order of the ranking; [categories] and the flat list [places] are
    made of the lookups that found a camera and of no other. So a category
    all of whose places yield no camera in the lookups of the run is still
    there, with an empty list, and no entry of a category and no record of
    [places] comes with an empty camera list: a place without cameras is
    left out of both. *)
Theorem ingestOnce_keeps_empty_categories
        (w w1 : World) (st : State) (data : string) :
  axiosGetFeed w = (Ok data, w1) ->
  map fst (categories (snd (ingest w st)))
  = map fst (rankPlaces TOP_N (values (aggregate (parseGKG data))))
  /\ map placesOf
       (fst (lookups (rankPlaces TOP_N (values (aggregate (parseGKG data)))) w1))
     = rankPlaces TOP_N (values (aggregate (parseGKG data)))
  /\ categories (snd (ingest w st))
     = map entriesFound
         (fst (lookups (rankPlaces TOP_N (values (aggregate (parseGKG data)))) w1))
  /\ places (snd (ingest w st))
     = flat_map recordsFound
         (fst (lookups (rankPlaces TOP_N (values (aggregate (parseGKG data)))) w1))
  /\ (forall c l,
         In (c, l) (rankPlaces TOP_N (values (aggregate (parseGKG data)))) ->
         (forall t p cams,
             In (c, t)
                (fst (lookups
                        (rankPlaces TOP_N (values (aggregate (parseGKG data))))
                        w1)) ->
             In (p, cams) t -> cams = []) ->
         In (c, []) (categories (snd (ingest w st))))
  /\ (forall c es e,
         In (c, es) (categories (snd (ingest w st))) -> In e es ->
         e_cams e <> [])
  /\ (forall r, In r (places (snd (ingest w st))) -> r_cams r <> []).
Proof.
  intro H. unfold ingestOnce, fetchGKGLastHour. rewrite H.
  set (ranked := rankPlaces TOP_N (values (aggregate (parseGKG data)))).
  assert (N : NoDup (map fst ranked)).
  { unfold ranked, rankPlaces. rewrite map_map. simpl.
    apply groupByCategory_NoDup. }
  rewrite (enrichAll_lookups ranked [] [] w1 N (fun _ _ F => F)).
  pose proof (lookupsAll_places ranked w1) as P.
  set (run := fst (lookups ranked w1)) in *.
  cbn [snd categories places app].
  assert (K : map fst (map entriesFound run) = map fst ranked).
  { rewrite <- P, !map_map. reflexivity. }
  split; [exact K|]. split; [exact P|]. split; [reflexivity|].
  split; [reflexivity|]. split; [|split].
  - intros c l Hin Hz. rewrite <- P in Hin.
    apply in_map_iff in Hin as [[c0 t] [E Hin]].
    unfold placesOf in E. cbn [fst snd] in E. injection E as -> _.
    apply in_map_iff. exists (c, t). split; [|exact Hin].
    unfold entriesFound. cbn [fst snd].
    rewrite (filter_foundSome_none t); [reflexivity|].
    intros p cams. now apply (Hz t).
  - intros c es e Hin He. apply in_map_iff in Hin as [[c0 t] [E _]].
    unfold entriesFound in E. cbn [fst snd] in E. injection E as _ <-.
    apply in_map_iff in He as [x [<- Hx]]. apply filter_In in Hx as [_ Hx].
    apply foundSome_cams in Hx. unfold entryOfLookup. cbn [e_cams].
    destruct (snd x); [congruence | discriminate].
  - intros r Hr. apply in_flat_map in Hr as [[c t] [_ Hr]].
    unfold recordsFound in Hr. cbn [fst snd] in Hr.
    apply in_map_iff in Hr as [x [<- Hx]]. apply filter_In in Hx as [_ Hx].
    now apply foundSome_cams.
Qed.

End Snapshot.

Lemma ingestOnce_feed_failure_keeps_state_witness :
  snd (runIngest feedDown windyNone ytNone clock 8 10 0 oldState) = oldState.
Proof.
  destruct (ingestOnce_feed_failure_keeps_state
              nat feedDown windyNone ytNone clock 8 10
              0 1 oldState "timeout of 20000ms exceeded" eq_refl)
    as [_ [J _]].
  rewrite J. reflexivity.
Defined.

Lemma ingestOnce_keeps_empty_categories_witness :
  In (war, [])
     (categories
        (snd (ingestOnce feedTwoRows windyLate ytNone clock 8 10 0 oldState))).
Proof.
  assert (H : In (war, [kyivRanked])
                 (rankPlaces 8 (values (aggregate (parseGKG twoRowFeed)))))
    by (vm_compute; left; reflexivity).
  assert (L : fst (lookupsAll windyLate ytNone 10
                     (rankPlaces 8 (values (aggregate (parseGKG twoRowFeed)))) 1)
              = [ (war, [(kyivRanked, [])]);
                  (sports,
                   [(parisRanked, [windyCam 1 "https://www.windy.com/webcams/1"])]) ])
    by (vm_compute; reflexivity).
  apply (proj1 (proj2 (proj2 (proj2 (proj2
           (ingestOnce_keeps_empty_categories
              nat feedTwoRows windyLate ytNone clock 8 10
              0 1 oldState twoRowFeed eq_refl)))))
           war [kyivRanked] H).
  intros t p cams Ht Hp. rewrite L in Ht.
  destruct Ht as [E|[E|[]]]; [|discriminate E].
  injection E as <-. destruct Hp as [E|[]].
  injection E as _ <-. reflexivity.
Defined.

(** In that run the primary provider has a camera by the time Paris is
    looked up, and none when Kyiv is: the war category is kept, empty. *)
Example scenario_empty_category_kept :
  categories
    (snd (ingestOnce feedTwoRows windyLate ytNone clock 8 10 0 oldState))
  = [ (war, []);
      (sports,
       [ {| e_place := placeView parisRanked;
            e_cams := [camView (windyCam 1 "https://www.windy.com/webcams/1")] |} ]) ]
  /\ fst (findCamsForPlace windyLate ytNone 10 kyivRanked 10)
     = [windyCam 1 "https://www.windy.com/webcams/1"].
Proof. split; vm_compute; reflexivity. Qed.

(** ** The scenarios of the specification *)

Example scenario_kyiv_bucket :
  aggregate (parseGKG kyivFeed)
  = [ ("50.450,30.520:Kyiv",
       {| p_name := "Kyiv"; p_lat := parseFloat "50.45";
          p_lon := parseFloat "30.52"; p_country := "UA";
          counts := [(war, 1)] |}) ].
Proof. vm_compute. reflexivity. Qed.

Example scenario_three_primary_four_secondary :
  fst (findCamsForPlace windyThree ytRepeats 10 kyivRanked 0)
  = [ windyCam 1 "https://www.windy.com/webcams/1";
      windyCam 2 "https://www.windy.com/webcams/2";
      windyCam 3 "https://www.windy.com/webcams/3";
      youtubeCam "v1"; youtubeCam "v2"; youtubeCam "v3"; youtubeCam "v4" ].
Proof. vm_compute. reflexivity. Qed.

Example scenario_no_camera_no_place :
  snd (ingestOnce feedOk windyDown ytNone clock 8 10 0 STATE0)
  = {| updatedAt := Some "2024-01-01T00:00:00.000Z";
       categories := [(war, [])]; places := [] |}.
Proof. vm_compute. reflexivity. Qed.

(* ===================================================================== *)
(** * Part IV: further properties *)
(* ===================================================================== *)

(** ** Splitting and joining *)

Lemma split_nonempty sep s : split sep s <> [].
Proof.
  destruct s as [|c s]; simpl; [discriminate|].
  destruct (Ascii.eqb c sep); [discriminate|].
  destruct (split sep s); discriminate.
Qed.

Lemma concat_cons_piece sep c hd tl :
  String.concat (String sep EmptyString) (String c hd :: tl)
  = String c (String.concat (String sep EmptyString) (hd :: tl)).
Proof. destruct tl; reflexivity. Qed.

Lemma concat_split sep s :
  String.concat (String sep EmptyString) (split sep s) = s.
Proof.
  induction s as [|c s IH]; [reflexivity|]. cbn [split].
  destruct (Ascii.eqb c sep) eqn:E.
  - apply Ascii.eqb_eq in E. subst c.
    destruct (split sep s) as [|hd tl] eqn:S; [now apply split_nonempty in S|].
    transitivity (String sep (String.concat (String sep EmptyString) (hd :: tl)));
      [reflexivity | now rewrite IH].
  - destruct (split sep s) as [|hd tl] eqn:S; [now apply split_nonempty in S|].
    now rewrite concat_cons_piece, IH.
Qed.

Lemma split_pieces P sep s :
  allChars P s = true ->
  forall x, In x (split sep s) -> allChars P x = true.
Proof.
  induction s as [|c s IH]; cbn [split allChars]; intros H x Hin.
  - destruct Hin as [<-|[]]. reflexivity.
  - apply andb_true_iff in H as [Hc Hs].
    destruct (Ascii.eqb c sep).
    + destruct Hin as [<-|Hin]; [reflexivity | now apply IH].
    + destruct (split sep s) as [|hd tl].
      * destruct Hin as [<-|[]]. cbn [allChars]. now rewrite Hc.
      * destruct Hin as [<-|Hin].
        -- cbn [allChars]. rewrite Hc. apply IH; [exact Hs | now left].
        -- apply IH; [exact Hs | now right].
Qed.

Lemma split_pieces_no_sep sep s x :
  In x (split sep s) -> allChars (notChar sep) x = true.
Proof.
  revert x; induction s as [|c s IH]; cbn [split]; intros x Hin.
  - destruct Hin as [<-|[]]. reflexivity.
  - destruct (Ascii.eqb c sep) eqn:E.
    + destruct Hin as [<-|Hin]; [reflexivity | now apply IH].
    + destruct (split sep s) as [|hd tl].
      * destruct Hin as [<-|[]]. cbn [allChars]. unfold notChar at 1.
        now rewrite E.
      * destruct Hin as [<-|Hin].
        -- cbn [allChars]. unfold notChar at 1. rewrite E. apply IH. now left.
        -- apply IH. now right.
Qed.

Lemma allChars_and P Q s :
  allChars P s = true -> allChars Q s = true ->
  allChars (fun c => P c && Q c) s = true.
Proof.
  induction s as [|c s IH]; cbn [allChars]; [reflexivity|].
  rewrite !andb_true_iff. intros [H1 H2] [H3 H4]. auto.
Qed.

Lemma allChars_true s : allChars (fun _ => true) s = true.
Proof. induction s; cbn [allChars]; auto. Qed.

Lemma freeOf_nil s : freeOf [] s = true.
Proof. unfold freeOf. cbn [existsb negb]. apply allChars_true. Qed.

Lemma freeOf_cons sep seps s :
  allChars (notChar sep) s = true -> freeOf seps s = true ->
  freeOf (sep :: seps) s = true.
Proof.
  unfold freeOf. intros H1 H2.
  apply (allChars_weaken
           (fun c => notChar sep c && negb (existsb (Ascii.eqb c) seps))).
  - intros c H. apply andb_true_iff in H as [A B]. unfold notChar in A.
    cbn [existsb]. now rewrite negb_orb, A, B.
  - now apply allChars_and.
Qed.

Lemma freeOf_piece sep seps s x :
  freeOf seps s = true -> In x (split sep s) -> freeOf (sep :: seps) x = true.
Proof.
  intros H Hin. apply freeOf_cons.
  - now apply (split_pieces_no_sep sep s).
  - now apply (split_pieces _ sep s).
Qed.

Lemma freeOf_nth seps (l : list string) i :
  (forall x, In x l -> freeOf seps x = true) ->
  freeOf seps (nth i l EmptyString) = true.
Proof.
  intro H. destruct (nth_in_or_default i l EmptyString) as [Hin| ->];
    [now apply H | reflexivity].
Qed.

Lemma rowsOf_cols_free data cols col :
  In cols (rowsOf data) -> In col cols -> freeOf [TAB; LF] col = true.
Proof.
  unfold rowsOf. intros Hc Hin. apply in_map_iff in Hc as [line [<- Hl]].
  apply (freeOf_piece TAB [LF] line); [|exact Hin].
  apply (freeOf_piece LF [] (trim data)); [apply freeOf_nil | exact Hl].
Qed.

(** X1. Cutting the feed into rows and columns loses no text: the columns
    of every row joined by TAB, and the rows joined by LF, give back the
    trimmed feed; and no column holds a TAB or an LF. *)
Theorem rowsOf_join (data : string) :
  joinRows (rowsOf data) = trim data
  /\ forall cols col, In cols (rowsOf data) -> In col cols ->
                      freeOf [TAB; LF] col = true.
Proof.
  split; [|apply rowsOf_cols_free].
  unfold joinRows, rowsOf. rewrite map_map.
  rewrite (map_ext _ (fun x => x)) by (intro; apply concat_split).
  rewrite map_id. apply concat_split.
Qed.

Lemma field_free cols i t :
  (forall col, In col cols -> freeOf [TAB; LF] col = true) ->
  In t (field cols i) ->
  t <> EmptyString /\ freeOf [SEMI; TAB; LF] t = true.
Proof.
  unfold field, at_or_empty. intros H Hin.
  apply filter_In in Hin as [Hin T]. split.
  - intro E. subst t. discriminate.
  - apply (freeOf_piece SEMI [TAB; LF] (nth i cols EmptyString));
      [now apply freeOf_nth | exact Hin].
Qed.

(** X2. What the parser hands on is free of the separators it cut at: a
    theme tag is never empty and holds no semicolon, TAB or LF; the name
    of a mention is never empty, and neither it nor the country holds a
    hash sign, semicolon, TAB or LF. *)
Theorem parseGKG_fields_clean (data : string) (fact : EventFact) :
  In fact (parseGKG data) ->
  (forall t, In t (themes fact) ->
             t <> EmptyString /\ freeOf [SEMI; TAB; LF] t = true)
  /\ (forall g, In g (locations fact) ->
                name g <> EmptyString
                /\ freeOf [HASH; SEMI; TAB; LF] (name g) = true
                /\ freeOf [HASH; SEMI; TAB; LF] (country g) = true).
Proof.
  unfold parseGKG. intro H. apply in_map_iff in H as [cols [<- Hc]].
  pose proof (fun col => rowsOf_cols_free data cols col Hc) as F.
  split.
  - intros t Ht. now apply (field_free cols 4).
  - intros g Hg. cbn [locations factOfCols] in Hg.
    apply filterSome_In, in_map_iff in Hg as [tok [P Ht]].
    apply (field_free cols 8) in Ht as [_ Ht]; [|exact F].
    pose proof (fun x => freeOf_piece HASH _ tok x Ht) as Fp.
    unfold parseToken, at_or_empty in P.
    destruct (negb (truthy (nth 0 (split "#" tok) EmptyString)) || _ || _)
      eqn:G; [discriminate|].
    injection P as <-. cbn [name country].
    apply orb_false_iff in G as [G _]. apply orb_false_iff in G as [G _].
    apply negb_false_iff in G. repeat split.
    + intro E. rewrite E in G. discriminate.
    + now apply freeOf_nth.
    + now apply freeOf_nth.
Qed.

Lemma parseGKG_fields_clean_witness :
  forallb (fun t => freeOf [SEMI; TAB; LF] t) ["MILITARY_ACTIVITY"; "TERROR"]
  = true.
Proof.
  apply forallb_forall. intros t Ht.
  refine (proj2 (proj1 (parseGKG_fields_clean
                          kyivFeed
                          {| themes := ["MILITARY_ACTIVITY"; "TERROR"];
                             locations := [kyiv] |} _) t Ht)).
  vm_compute. left. reflexivity.
Defined.

(** X3. A mention without coordinates is not dropped: when #-fields 4 and
    5 are missing or empty and the name is not, the token is kept at
    latitude 0 and longitude 0. *)
Theorem parseToken_missing_coordinates (tok : string) :
  nth 0 (split "#" tok) EmptyString <> EmptyString ->
  nth 4 (split "#" tok) EmptyString = EmptyString ->
  nth 5 (split "#" tok) EmptyString = EmptyString ->
  parseToken tok
  = Some {| name := nth 0 (split "#" tok) EmptyString;
            lat := S754_zero false; lon := S754_zero false;
            country := nth 2 (split "#" tok) EmptyString |}.
Proof.
  intros Hn H4 H5. unfold parseToken, at_or_empty. rewrite H4, H5.
  change (parseFloat (or_else EmptyString "0")) with (S754_zero false).
  destruct (nth 0 (split "#" tok) EmptyString); [contradiction|reflexivity].
Qed.

Lemma parseToken_missing_coordinates_witness :
  parseToken "Paris#1#FR"
  = Some {| name := "Paris"; lat := S754_zero false; lon := S754_zero false;
            country := "FR" |}.
Proof.
  refine (parseToken_missing_coordinates "Paris#1#FR" _ eq_refl eq_refl).
  discriminate.
Defined.



Section BlankFeed.
Variable World : Type.
Variable axiosGetFeed : World -> result string * World.
Variable windyNearby : number -> number -> World -> result (list Camera) * World.
Variable ytSearch : string -> World -> result (list Camera) * World.
Variable now : World -> string.
Variable TOP_N : nat.
Variable MAX_CAMS : nat.


End BlankFeed.


(** ** Classification and the tags *)

Lemma existsb_same_elements {A : Type} (f : A -> bool) (l1 l2 : list A) :
  (forall x, In x l1 <-> In x l2) -> existsb f l1 = existsb f l2.
Proof.
  intro H. apply Bool.eq_iff_eq_true. rewrite !existsb_exists.
  split; intros [x [Hx Fx]]; exists x; split; auto; now apply H.
Qed.

Lemma ruleMatches_same_elements up1 up2 r :
  (forall t, In t up1 <-> In t up2) -> ruleMatches up1 r = ruleMatches up2 r.
Proof.
  intro H. unfold ruleMatches.
  induction (inc r) as [|k ks IH]; cbn [existsb]; [reflexivity|].
  now rewrite IH, (existsb_same_elements _ up1 up2 H).
Qed.

Lemma find_pointwise {A : Type} (f g : A -> bool) (l : list A) :
  (forall x, f x = g x) -> find f l = find g l.
Proof.
  intro H. induction l as [|x l IH]; cbn [find]; [reflexivity|].
  now rewrite H, IH.
Qed.

(** X5. The category of a fact depends only on which tags it has, read
    without regard to case: two tag lists with the same upper-cased tags,
    in any order and with any repetition, get the same category. *)
Theorem mapThemesToCategory_same_tags (a b : list string) :
  (forall t, In t (map toUpperCase a) <-> In t (map toUpperCase b)) ->
  mapThemesToCategory a = mapThemesToCategory b.
Proof.
  intro H. unfold mapThemesToCategory. f_equal.
  apply find_pointwise. intro r. now apply ruleMatches_same_elements.
Qed.

Lemma mapThemesToCategory_same_tags_witness :
  mapThemesToCategory ["Flood"; "soccer"]
  = mapThemesToCategory ["SOCCER"; "FLOOD"; "flood"].
Proof.
  apply mapThemesToCategory_same_tags. intro t. cbn [map toUpperCase].
  change (toUpperCase "Flood") with "FLOOD".
  change (toUpperCase "flood") with "FLOOD".
  change (toUpperCase "soccer") with "SOCCER".
  change (toUpperCase "SOCCER") with "SOCCER".
  change (toUpperCase "FLOOD") with "FLOOD".
  cbn [In]. tauto.
Defined.

Lemma find_earlier {A : Type} (f g : A -> bool) (l : list A) (x : A) :
  (forall y, f y = true -> g y = true) ->
  find f l = Some x ->
  exists pre post y,
    l = pre ++ x :: post /\ In y (pre ++ [x]) /\ find g l = Some y.
Proof.
  intros H. induction l as [|a l IH]; cbn [find]; [discriminate|].
  destruct (f a) eqn:Fa.
  - intros [= ->]. exists [], l, x. rewrite (H x Fa).
    repeat split. now left.
  - intro F. destruct (IH F) as [pre [post [y [E [Hy G]]]]].
    destruct (g a) eqn:Ga.
    + exists (a :: pre), post, a. rewrite E. repeat split. now left.
    + exists (a :: pre), post, y. rewrite E. repeat split; [now right|].
      now rewrite <- E.
Qed.

Lemma ruleMatches_app up1 up2 r :
  ruleMatches up1 r = true -> ruleMatches (up1 ++ up2) r = true.
Proof.
  unfold ruleMatches. rewrite !existsb_exists.
  intros [k [Hk H]]. exists k. split; [exact Hk|].
  rewrite existsb_app, H. reflexivity.
Qed.

(** X6. More tags never take a category away: when a fact has a
    category, the fact with further tags added has the category of the
    same rule or of an earlier one. *)
Theorem mapThemesToCategory_more_tags (a b : list string) (c : Category) :
  mapThemesToCategory a = Some c ->
  exists pre r post r',
    RULES = pre ++ r :: post /\ cat r = c /\ In r' (pre ++ [r])
    /\ mapThemesToCategory (a ++ b) = Some (cat r').
Proof.
  unfold mapThemesToCategory. rewrite map_app.
  destruct (find (ruleMatches (map toUpperCase a)) RULES) as [r|] eqn:F;
    [|discriminate].
  intros [= <-].
  destruct (find_earlier _ (ruleMatches (map toUpperCase a ++ map toUpperCase b))
                         _ _ (fun y => ruleMatches_app _ _ y) F)
    as [pre [post [y [E [Hy G]]]]].
  exists pre, r, post, y. rewrite G. auto.
Qed.

Lemma mapThemesToCategory_more_tags_witness :
  exists r', In r' RULES
             /\ mapThemesToCategory (["FLOOD"] ++ ["ARREST"]) = Some (cat r').
Proof.
  destruct (mapThemesToCategory_more_tags ["FLOOD"] ["ARREST"] disaster eq_refl)
    as [pre [r [post [r' [E [_ [Hin G]]]]]]].
  exists r'. split; [|exact G].
  rewrite E. apply in_app_or in Hin as [Hin|[<-|[]]]; apply in_or_app;
    [now left | right; now left].
Defined.

(** ** More on the aggregation *)

Lemma addRow_idle m row : contributes row = false -> addRow m row = m.
Proof.
  unfold contributes, addRow.
  destruct (mapThemesToCategory (themes row)); [|reflexivity].
  destruct (locations row); [reflexivity|discriminate].
Qed.

(** X7. Rows without a category and rows without a mention leave no
    trace: taking them out of the feed gives the same map of buckets, in
    the same order. *)
Theorem aggregate_ignores_idle_rows (gkg : list EventFact) :
  aggregate (filter contributes gkg) = aggregate gkg.
Proof.
  unfold aggregate. generalize (@nil (string * PlaceBucket)).
  induction gkg as [|row gkg IH]; intro m; cbn [filter fold_left];
    [reflexivity|].
  destruct (contributes row) eqn:C; cbn [fold_left]; [apply IH|].
  now rewrite (addRow_idle m row C).
Qed.

Lemma map_get_In id b (m : Buckets) :
  NoDup (map fst m) -> In (id, b) m -> map_get id m = Some b.
Proof.
  induction m as [|[k x] m IH]; cbn [map_get map fst In]; [intros _ []|].
  intros N [E|Hin].
  - injection E as -> ->. now rewrite String.eqb_refl.
  - inversion N as [|? ? Hk N']; subst.
    destruct (String.eqb k id) eqn:E; [|auto].
    apply String.eqb_eq in E. subst k. exfalso. apply Hk.
    apply in_map_iff. exists (id, b). auto.
Qed.

Lemma increment_keys c cs :
  map fst (increment c cs) =
  if existsb (fun e => cat_eqb (fst e) c) cs then map fst cs
  else map fst cs ++ [c].
Proof.
  induction cs as [|[k n] cs IH]; cbn [increment existsb map fst app];
    [reflexivity|].
  destruct (cat_eqb k c); cbn [map fst orb]; [reflexivity|].
  rewrite IH. now destruct (existsb _ cs).
Qed.

Lemma increment_In c cs k n :
  In (k, n) (increment c cs) ->
  (k = c /\ n = 1) \/ In (k, n) cs \/ (k = c /\ exists n0, In (c, n0) cs /\ n = n0 + 1).
Proof.
  induction cs as [|[k0 n0] cs IH]; cbn [increment In].
  - intros [[= <- <-]|[]]. now left.
  - destruct (cat_eqb k0 c) eqn:E.
    + apply cat_eqb_eq in E. subst k0.
      intros [[= <- <-]|H]; [|right; left; now right].
      right; right. split; [reflexivity|]. exists n0. split; [now left|reflexivity].
    + intros [[= <- <-]|H]; [right; left; now left|].
      destruct (IH H) as [A|[A|[A [n1 [B C]]]]]; auto.
      right; right. split; [exact A|]. exists n1. split; [now right|exact C].
Qed.

Lemma increment_wellFormed c cs :
  NoDup (map fst cs) -> (forall k n, In (k, n) cs -> 1 <= n) ->
  increment c cs <> []
  /\ NoDup (map fst (increment c cs))
  /\ forall k n, In (k, n) (increment c cs) -> 1 <= n.
Proof.
  intros N P. split; [|split].
  - destruct cs as [|[k n] cs]; cbn [increment]; [discriminate|].
    destruct (cat_eqb k c); discriminate.
  - rewrite increment_keys.
    destruct (existsb (fun e => cat_eqb (fst e) c) cs) eqn:E; [exact N|].
    apply append_key_NoDup; [exact N|].
    intro Hin. apply in_map_iff in Hin as [[k n] [Ek Hin]]. cbn [fst] in Ek.
    subst k. assert (existsb (fun e => cat_eqb (fst e) c) cs = true).
    { apply existsb_exists. exists (c, n). split; [exact Hin|].
      apply cat_eqb_refl. }
    congruence.
  - intros k n H. apply increment_In in H as [[_ ->]|[H|[_ [n0 [H ->]]]]];
      [lia | now apply (P k) | lia].
Qed.

Lemma addMention_wellFormed c m loc :
  (forall id b, map_get id m = Some b -> wellFormedBucket id b) ->
  forall id b, map_get id (addMention c m loc) = Some b -> wellFormedBucket id b.
Proof.
  intros Inv id b. unfold addMention.
  destruct (String.eqb (bucketKey loc) id) eqn:E.
  - apply String.eqb_eq in E. subst id. rewrite map_get_set_same.
    intros [= <-].
    assert (W : wellFormedBucket (bucketKey loc)
                  match map_get (bucketKey loc) m with
                  | Some b0 => b0
                  | None => freshBucket loc
                  end
                \/ map_get (bucketKey loc) m = None).
    { destruct (map_get (bucketKey loc) m) eqn:G; [left; now apply Inv|now right]. }
    destruct W as [[K [_ [N P]]]|G].
    + split; [exact K|]. now apply increment_wellFormed.
    + rewrite G. split; [|apply increment_wellFormed].
      * unfold keyOfBucket, bucketKey. reflexivity.
      * constructor.
      * intros k n [].
  - apply String.eqb_neq in E. rewrite map_get_set_other by congruence.
    apply Inv.
Qed.

(** X8. Every bucket of the aggregation map is stored under the key that
    its own name, latitude and longitude give, and its counts have one
    entry per category, at least one entry, and no entry below 1. *)
Theorem aggregate_buckets_wellFormed (gkg : list EventFact) (id : string)
        (b : PlaceBucket) :
  In (id, b) (aggregate gkg) -> wellFormedBucket id b.
Proof.
  intro H. apply map_get_In in H.
  - revert id b H. rewrite aggregate_pairs.
    generalize (pairsOf gkg). intro ps.
    assert (G : forall m,
               (forall id b, map_get id m = Some b -> wellFormedBucket id b) ->
               forall id b, map_get id (fold_left addPair ps m) = Some b ->
                            wellFormedBucket id b).
    { induction ps as [|[c loc] ps IH]; intros m Inv; cbn [fold_left];
        [exact Inv|].
      apply IH. unfold addPair; cbn [fst snd]. now apply addMention_wellFormed. }
    apply G. intros id b. discriminate.
  - rewrite aggregate_pairs. apply keys_NoDup_fold. constructor.
Qed.

Lemma aggregate_buckets_wellFormed_witness :
  wellFormedBucket "50.450,30.520:Kyiv"
    {| p_name := "Kyiv"; p_lat := parseFloat "50.45";
       p_lon := parseFloat "30.52"; p_country := "UA";
       counts := [(war, 2)] |}.
Proof.
  apply (aggregate_buckets_wellFormed [kyivRow]).
  vm_compute. left. reflexivity.
Defined.

Lemma filter_length_Permutation {A : Type} (f : A -> bool) (l l' : list A) :
  Permutation l l' -> List.length (filter f l) = List.length (filter f l').
Proof.
  induction 1 as [|x l l' _ IH|x y l|l l' l'' _ IH1 _ IH2]; cbn [filter].
  - reflexivity.
  - destruct (f x); cbn [List.length]; congruence.
  - destruct (f x), (f y); reflexivity.
  - congruence.
Qed.

Lemma pairsOf_Permutation gkg gkg' :
  Permutation gkg gkg' -> Permutation (pairsOf gkg) (pairsOf gkg').
Proof. intro H. unfold pairsOf. now apply Permutation_flat_map. Qed.

Lemma key_present_iff id (ps : list (Category * GeoMention)) :
  In id (map fst (fold_left addPair ps [])) <->
  exists e, In e ps /\ bucketKey (snd e) = id.
Proof.
  pose proof (seedAt_fold id ps []) as S. cbn [seedAt map_get option_map] in S.
  unfold seedAt in S. split.
  - intro Hin.
    destruct (map_get id (fold_left addPair ps [])) eqn:G.
    + destruct (find (hasKey id) ps) as [e|] eqn:F; [|discriminate].
      apply find_some in F as [He Hk]. exists e. split; [exact He|].
      now apply String.eqb_eq.
    + apply map_get_None_keys in G. contradiction.
  - intros [e [He Hk]].
    destruct (map_get id (fold_left addPair ps [])) eqn:G.
    + destruct (in_dec string_dec id (map fst (fold_left addPair ps [])))
        as [Y|N]; [exact Y|].
      apply map_get_None_keys in N. congruence.
    + exfalso. destruct (find (hasKey id) ps) eqn:F; [discriminate|].
      apply find_none_all_false with (y := e) in F; [|exact He].
      unfold hasKey in F. rewrite Hk, String.eqb_refl in F. discriminate.
Qed.

(** X9. The counts do not depend on the order of the rows of the feed:
    two feeds with the same rows in different orders give, under every
    key and for every category, the same count, and the same set of
    keys. *)
Theorem aggregate_counts_order_free (gkg gkg' : list EventFact) :
  Permutation gkg gkg' ->
  (forall c id, countAt c id (aggregate gkg) = countAt c id (aggregate gkg'))
  /\ (forall id, In id (map fst (aggregate gkg)) <->
                 In id (map fst (aggregate gkg'))).
Proof.
  intro P. apply pairsOf_Permutation in P. rewrite !aggregate_pairs. split.
  - intros c id. rewrite !countAt_fold. f_equal.
    now apply filter_length_Permutation.
  - intro id. rewrite !key_present_iff.
    split; intros [e [He Hk]]; exists e; split; auto.
    + now apply (Permutation_in _ P).
    + now apply (Permutation_in _ (Permutation_sym P)).
Qed.

Lemma aggregate_counts_order_free_witness :
  countAt war (bucketKey kyiv) (aggregate [kyivRow; parisRow])
  = countAt war (bucketKey kyiv) (aggregate [parisRow; kyivRow]).
Proof.
  exact (proj1 (aggregate_counts_order_free
                  [kyivRow; parisRow] [parisRow; kyivRow] (perm_swap _ _ _))
               war (bucketKey kyiv)).
Defined.

(** ** More on the ranking *)

Lemma insertDesc_Permutation x l : Permutation (x :: l) (insertDesc x l).
Proof.
  induction l as [|y l IH]; cbn [insertDesc]; [reflexivity|].
  destruct (score y <=? score x); [reflexivity|].
  rewrite perm_swap. now constructor.
Qed.

Lemma orderByScoreDesc_Permutation l : Permutation l (orderByScoreDesc l).
Proof.
  induction l as [|x l IH]; cbn [orderByScoreDesc fold_right]; [constructor|].
  rewrite <- insertDesc_Permutation. now constructor.
Qed.


Lemma rankPlaces_In N places c l :
  In (c, l) (rankPlaces N places) ->
  l = firstn N (orderByScoreDesc (candidatesOf c places)).
Proof.
  unfold rankPlaces. intro H. apply in_map_iff in H as [[c0 l0] [E H]].
  cbn [fst snd] in E. injection E as -> <-.
  apply groupByCategory_In in H. now subst l0.
Qed.



Lemma keys_fold_pushEmission c (es : list (Category * RankedPlace)) m :
  In c (map fst (fold_left pushEmission es m)) <->
  In c (map fst m) \/ In c (map fst es).
Proof.
  revert m; induction es as [|[c' x] es IH]; intro m; cbn [fold_left map fst In].
  - tauto.
  - rewrite IH. unfold pushEmission; cbn [fst snd]. rewrite push_keys.
    destruct (lookup c' m) eqn:L.
    + split; [tauto|]. intros [H|[<-|H]]; auto.
      left. apply In_lookup in L. apply in_map_iff. now exists (c', l).
    + rewrite in_app_iff. cbn [In]. tauto.
Qed.

Lemma emissions_keys c places :
  In c (map fst (emissions places)) <->
  exists p n, In p places /\ In (c, n) (counts p).
Proof.
  unfold emissions. rewrite in_map_iff. split.
  - intros [[c0 x] [E H]]. cbn [fst] in E. subst c0.
    apply in_flat_map in H as [p [Hp H]]. apply in_map_iff in H as [[k n] [E H]].
    cbn [fst snd] in E. injection E as -> _. now exists p, n.
  - intros [p [n [Hp H]]]. exists (c, {| place := p; score := n |}).
    split; [reflexivity|]. apply in_flat_map. exists p. split; [exact Hp|].
    apply in_map_iff. now exists (c, n).
Qed.

Lemma candidatesOf_In c places x :
  In x (candidatesOf c places) <->
  In (place x) places /\ In (c, score x) (counts (place x)).
Proof.
  unfold candidatesOf, emissions. rewrite in_map_iff. split.
  - intros [[c0 y] [E H]]. cbn [snd] in E. subst y.
    apply filter_In in H as [H Ec]. cbn [fst] in Ec. apply cat_eqb_eq in Ec.
    subst c0. apply in_flat_map in H as [p [Hp H]].
    apply in_map_iff in H as [[k n] [E H]]. cbn [fst snd] in E.
    injection E as -> <-. cbn [place score]. auto.
  - intros [Hp H]. exists (c, x). split; [reflexivity|].
    apply filter_In. split; [|apply cat_eqb_refl].
    apply in_flat_map. exists (place x). split; [exact Hp|].
    apply in_map_iff. exists (c, score x). split; [|exact H].
    cbn [fst snd]. now destruct x.
Qed.

(** X11. The ranking has one list per category, and a category is there
    exactly when some bucket counts it; with [TOP_N] at least 1 no list of
    the ranking is empty. *)
Theorem rankPlaces_categories (TOP_N : nat) (places : list PlaceBucket) :
  NoDup (map fst (rankPlaces TOP_N places))
  /\ (forall c, In c (map fst (rankPlaces TOP_N places)) <->
                exists p n, In p places /\ In (c, n) (counts p))
  /\ (1 <= TOP_N ->
      forall c l, In (c, l) (rankPlaces TOP_N places) -> l <> []).
Proof.
  assert (K : map fst (rankPlaces TOP_N places) = map fst (groupByCategory places)).
  { unfold rankPlaces. rewrite map_map. reflexivity. }
  split; [|split].
  - rewrite K. apply groupByCategory_NoDup.
  - intro c. rewrite K, groupByCategory_emissions, keys_fold_pushEmission.
    rewrite <- emissions_keys. cbn [map In]. tauto.
  - intros N c l H.
    assert (Hk : In c (map fst (rankPlaces TOP_N places))).
    { apply in_map_iff. now exists (c, l). }
    rewrite K, groupByCategory_emissions, keys_fold_pushEmission in Hk.
    destruct Hk as [[]|Hk]. apply emissions_keys in Hk as [p [n [Hp Hn]]].
    apply rankPlaces_In in H. subst l.
    assert (Hin : In {| place := p; score := n |}
                     (orderByScoreDesc (candidatesOf c places))).
    { apply (Permutation_in _ (orderByScoreDesc_Permutation _)).
      apply candidatesOf_In. cbn [place score]. auto. }
    destruct (orderByScoreDesc (candidatesOf c places)) as [|y ys];
      [destruct Hin|].
    destruct TOP_N; [lia|]. discriminate.
Qed.

(** X12. Every place of the ranking is a bucket of the input with one of
    its own counts as score: the count that the bucket has for the
    category of the list. *)
Theorem rankPlaces_scores_are_counts (TOP_N : nat) (places : list PlaceBucket)
        (c : Category) (l : list RankedPlace) (x : RankedPlace) :
  In (c, l) (rankPlaces TOP_N places) -> In x l ->
  In (place x) places /\ In (c, score x) (counts (place x)).
Proof.
  intros H Hx. apply rankPlaces_In in H. subst l.
  apply candidatesOf_In.
  apply (Permutation_in _ (Permutation_sym (orderByScoreDesc_Permutation _))).
  rewrite <- (firstn_skipn TOP_N). apply in_or_app. now left.
Qed.

Lemma rankPlaces_scores_are_counts_witness :
  In (war, score kyivRanked) (counts (place kyivRanked)).
Proof.
  refine (proj2 (rankPlaces_scores_are_counts
                   8 (values (aggregate (parseGKG kyivFeed))) war
                   [kyivRanked] kyivRanked _ _)).
  - vm_compute. left. reflexivity.
  - now left.
Defined.

(** ** More on the enricher *)

Lemma uniqFrom_app seen a b :
  exists seen', uniqFrom seen (a ++ b) = uniqFrom seen a ++ uniqFrom seen' b.
Proof.
  revert seen; induction a as [|c a IH]; intro seen; cbn [app uniqFrom].
  - now exists seen.
  - destruct (existsb (jsval_eqb (identity c)) seen).
    + apply IH.
    + destruct (IH (identity c :: seen)) as [seen' E]. exists seen'.
      now rewrite E.
Qed.

Lemma uniqFrom_In seen l c :
  In c (uniqFrom seen l) <->
  exists pre post,
    l = pre ++ c :: post /\ ~ In (identity c) seen
    /\ forall x, In x pre -> identity x <> identity c.
Proof.
  revert seen; induction l as [|a l IH]; intro seen; cbn [uniqFrom].
  - split; [intros []|]. intros [pre [post [E _]]]. destruct pre; discriminate.
  - destruct (existsb (jsval_eqb (identity a)) seen) eqn:S.
    + apply seen_iff in S. rewrite IH. split.
      * intros [pre [post [-> [N F]]]]. exists (a :: pre), post.
        repeat split; auto. intros x [<-|Hx]; [congruence|auto].
      * intros [pre [post [E [N F]]]]. destruct pre as [|b pre]; cbn [app] in E.
        -- injection E as -> ->. contradiction.
        -- injection E as -> ->. exists pre, post. repeat split; auto.
           intros x Hx. apply F. now right.
    + assert (Na : ~ In (identity a) seen).
      { intro H. apply seen_iff in H. congruence. }
      cbn [In]. rewrite IH. split.
      * intros [<-|[pre [post [-> [N F]]]]].
        -- exists [], l. split; [reflexivity|]. split; [exact Na|]. intros x [].
        -- exists (a :: pre), post. repeat split.
           ++ intro H. apply N. now right.
           ++ intros x [<-|Hx]; [|auto]. intro E. apply N. left. exact E.
      * intros [pre [post [E [N F]]]]. destruct pre as [|b pre]; cbn [app] in E.
        -- injection E as -> ->. now left.
        -- injection E as -> ->. right. exists pre, post. repeat split.
           ++ intros [H|H]; [|contradiction].
              apply (F b); [now left | exact H].
           ++ intros x Hx. apply F. now right.
Qed.

Lemma uniqFrom_fixed seen l :
  NoDup (map identity l) -> (forall c, In c l -> ~ In (identity c) seen) ->
  uniqFrom seen l = l.
Proof.
  revert seen; induction l as [|a l IH]; intros seen N F; cbn [uniqFrom];
    [reflexivity|].
  cbn [map] in N. inversion N as [|? ? Ha N']; subst.
  destruct (existsb (jsval_eqb (identity a)) seen) eqn:S.
  - apply seen_iff in S. exfalso. apply (F a); [now left | exact S].
  - f_equal. apply IH; [exact N'|]. intros c Hc [E|H].
    + apply Ha. rewrite E. now apply in_map.
    + apply (F c); [now right | exact H].
Qed.

(** X13. Of the cameras that share an identity key the one collected
    first is the one kept: a camera is in the deduplicated list exactly
    when it stands in the collected list with no camera of its identity
    before it; and deduplicating twice changes nothing. *)
Theorem uniqBy_keeps_first (cams : list Camera) :
  (forall c, In c (uniqBy cams) <->
             exists pre post,
               cams = pre ++ c :: post
               /\ forall x, In x pre -> identity x <> identity c)
  /\ uniqBy (uniqBy cams) = uniqBy cams.
Proof.
  unfold uniqBy. split.
  - intro c. rewrite uniqFrom_In. split.
    + intros [pre [post [E [_ F]]]]. now exists pre, post.
    + intros [pre [post [E F]]]. exists pre, post. repeat split; auto.
  - apply uniqFrom_fixed; [apply uniqFrom_NoDup|]. intros c _ [].
Qed.

Section EnricherMore.
Variable World : Type.
Variable windyNearby : number -> number -> World -> result (list Camera) * World.
Variable ytSearch : string -> World -> result (list Camera) * World.
Variable MAX_CAMS : nat.

Lemma pushNew_grows more : forall cams,
  exists added, pushNew MAX_CAMS more cams = cams ++ added.
Proof.
  induction more as [|c more IH]; intro cams; cbn [pushNew].
  - exists []. now rewrite app_nil_r.
  - destruct (existsb _ cams).
    + destruct (MAX_CAMS <=? List.length cams); [|apply IH].
      exists []. now rewrite app_nil_r.
    + destruct (MAX_CAMS <=? List.length (cams ++ [c])); [now exists [c]|].
      destruct (IH (cams ++ [c])) as [added E]. exists (c :: added).
      now rewrite E, <- app_assoc.
Qed.

Lemma pushNew_bounded more : forall cams,
  List.length cams < MAX_CAMS ->
  List.length (pushNew MAX_CAMS more cams) <= MAX_CAMS.
Proof.
  induction more as [|c more IH]; intros cams L; cbn [pushNew]; [lia|].
  destruct (existsb _ cams).
  - destruct (MAX_CAMS <=? List.length cams) eqn:E; [lia | now apply IH].
  - destruct (MAX_CAMS <=? List.length (cams ++ [c])) eqn:E.
    + rewrite length_app. cbn [List.length]. lia.
    + apply IH. now apply Nat.leb_gt.
Qed.

Lemma url_seen_iff c cams :
  existsb (fun x => jsval_eqb (cam_url x) (cam_url c)) cams = true <->
  In (cam_url c) (map cam_url cams).
Proof.
  rewrite existsb_exists, in_map_iff. split.
  - intros [x [Hx E]]. apply jsval_eqb_eq in E. now exists x.
  - intros [x [E Hx]]. exists x. split; [exact Hx | now apply jsval_eqb_eq].
Qed.

Lemma pushNew_urls more : forall cams,
  NoDup (map cam_url cams) -> NoDup (map cam_url (pushNew MAX_CAMS more cams)).
Proof.
  induction more as [|c more IH]; intros cams N; cbn [pushNew]; [exact N|].
  destruct (existsb _ cams) eqn:S.
  - destruct (MAX_CAMS <=? List.length cams); [exact N | now apply IH].
  - assert (N1 : NoDup (map cam_url (cams ++ [c]))).
    { rewrite map_app. cbn [map]. apply NoDup_app; [exact N| |].
      - repeat constructor. intros [].
      - intros u Hu [<-|[]]. apply url_seen_iff in Hu. congruence. }
    destruct (MAX_CAMS <=? List.length (cams ++ [c])); [exact N1 | now apply IH].
Qed.

Lemma searchLoop_grows placeName kws : forall cams w,
  exists added,
    fst (searchLoop ytSearch MAX_CAMS placeName kws cams w) = cams ++ added.
Proof.
  induction kws as [|kw kws IH]; intros cams w; cbn [searchLoop fst].
  - exists []. now rewrite app_nil_r.
  - destruct (MAX_CAMS <=? List.length cams); cbn [fst].
    + exists []. now rewrite app_nil_r.
    + destruct (ytSearch (placeName ++ " " ++ kw)%string w) as [[more|e] w1];
        cbn [fst].
      * destruct (IH (pushNew MAX_CAMS more cams) w1) as [added A].
        destruct (pushNew_grows more cams) as [added0 G].
        exists (added0 ++ added). now rewrite A, G, <- app_assoc.
      * exists []. now rewrite app_nil_r.
Qed.

Lemma searchLoop_bounded_urls placeName kws : forall cams w,
  List.length (fst (searchLoop ytSearch MAX_CAMS placeName kws cams w))
  <= Nat.max (List.length cams) MAX_CAMS
  /\ (NoDup (map cam_url cams) ->
      NoDup (map cam_url (fst (searchLoop ytSearch MAX_CAMS placeName kws cams w)))).
Proof.
  induction kws as [|kw kws IH]; intros cams w; cbn [searchLoop fst].
  - split; [lia|auto].
  - destruct (MAX_CAMS <=? List.length cams) eqn:E; cbn [fst].
    + split; [lia|auto].
    + apply Nat.leb_gt in E.
      destruct (ytSearch (placeName ++ " " ++ kw)%string w) as [[more|e] w1];
        cbn [fst].
      * destruct (IH (pushNew MAX_CAMS more cams) w1) as [B C].
        pose proof (pushNew_bounded more cams E) as L.
        split; [lia|]. intro N. now apply C, pushNew_urls.
      * split; [lia|auto].
Qed.

(** X14. The loop over the phrases only appends to what is collected,
    and never a camera whose url is already there: the collected cameras
    stay in front, their number does not pass [MAX_CAMS] unless it did at
    the start, and urls that were pairwise different stay so. *)
Theorem searchLoop_appends (placeName : string) (kws : list string)
        (cams : list Camera) (w : World) :
  (exists added,
      fst (searchLoop ytSearch MAX_CAMS placeName kws cams w) = cams ++ added)
  /\ List.length (fst (searchLoop ytSearch MAX_CAMS placeName kws cams w))
     <= Nat.max (List.length cams) MAX_CAMS
  /\ (NoDup (map cam_url cams) ->
      NoDup (map cam_url (fst (searchLoop ytSearch MAX_CAMS placeName kws cams w)))).
Proof.
  split; [apply searchLoop_grows | apply searchLoop_bounded_urls].
Qed.

Lemma pushNew_all (P : Camera -> Prop) more : forall cams,
  Forall P more -> Forall P cams -> Forall P (pushNew MAX_CAMS more cams).
Proof.
  induction more as [|c more IH]; intros cams Hm Hc; cbn [pushNew]; [exact Hc|].
  inversion Hm as [|? ? Pc Hm']; subst.
  assert (H1 : Forall P (cams ++ [c])).
  { apply Forall_app. split; [exact Hc | now constructor]. }
  destruct (existsb _ cams).
  - destruct (MAX_CAMS <=? List.length cams); [exact Hc | now apply IH].
  - destruct (MAX_CAMS <=? List.length (cams ++ [c])); [exact H1 | now apply IH].
Qed.

Lemma searchLoop_all (P : Camera -> Prop) placeName kws :
  (forall q w more w1, ytSearch q w = (Ok more, w1) -> Forall P more) ->
  forall cams w,
    Forall P cams ->
    Forall P (fst (searchLoop ytSearch MAX_CAMS placeName kws cams w)).
Proof.
  intro Hy. induction kws as [|kw kws IH]; intros cams w Hc;
    cbn [searchLoop fst]; [exact Hc|].
  destruct (MAX_CAMS <=? List.length cams); [exact Hc|].
  destruct (ytSearch (placeName ++ " " ++ kw)%string w) as [[more|e] w1] eqn:Y;
    [|exact Hc].
  apply IH, pushNew_all; [|exact Hc]. exact (Hy _ _ _ _ Y).
Qed.

Lemma searchLoop_full placeName kws cams w :
  MAX_CAMS <= List.length cams ->
  searchLoop ytSearch MAX_CAMS placeName kws cams w = (cams, w).
Proof.
  intro H. destruct kws; cbn [searchLoop]; [reflexivity|].
  apply Nat.leb_le in H. now rewrite H.
Qed.

(** X15. The fallback asks only while fewer than [MAX_CAMS] cameras are
    collected: once the primary provider and the phrases searched so far
    have brought the number up to [MAX_CAMS], no further phrase is
    searched, whatever phrases remain, and the world is left as the last
    call left it. *)
Theorem findCamsForPlace_stops_when_full
        (p : RankedPlace) (w w0 w1 : World) (cams0 cams1 : list Camera)
        (pre post : list string) :
  KWS = pre ++ post ->
  primary windyNearby p w = (cams0, w0) ->
  searched ytSearch MAX_CAMS (p_name (place p)) pre cams0 w0 cams1 w1 ->
  MAX_CAMS <= List.length cams1 ->
  findCamsForPlace windyNearby ytSearch MAX_CAMS p w
  = (firstn MAX_CAMS (uniqBy cams1), w1).
Proof.
  intros HK Hp Hs L. unfold findCamsForPlace, findCamsWith. rewrite Hp, HK.
  destruct (List.length cams0 <? MAX_CAMS) eqn:E.
  - rewrite (searchLoop_after_searched _ _ _ _ _ _ _ _ _ Hs).
    now rewrite searchLoop_full.
  - apply Nat.ltb_ge in E. inversion Hs; subst; [reflexivity|lia].
Qed.

(** X16. The cameras of the primary provider come first: the result
    starts with the primary cameras, deduplicated and cut to [MAX_CAMS],
    and what the fallback adds comes after them. *)
Theorem findCamsForPlace_primary_first (p : RankedPlace) (w : World) :
  exists rest,
    fst (findCamsForPlace windyNearby ytSearch MAX_CAMS p w)
    = firstn MAX_CAMS (uniqBy (fst (primary windyNearby p w))) ++ rest.
Proof.
  unfold findCamsForPlace, findCamsWith.
  destruct (primary windyNearby p w) as [cams0 w0]. cbn [fst].
  destruct (List.length cams0 <? MAX_CAMS).
  - destruct (searchLoop_grows (p_name (place p)) KWS cams0 w0) as [added A].
    destruct (searchLoop ytSearch MAX_CAMS (p_name (place p)) KWS cams0 w0)
      as [cams2 w2]. cbn [fst] in *. subst cams2. unfold uniqBy.
    destruct (uniqFrom_app [] cams0 added) as [seen' E]. rewrite E, firstn_app.
    eauto.
  - cbn [fst]. exists []. now rewrite app_nil_r.
Qed.

End EnricherMore.

Lemma findCamsForPlace_stops_when_full_witness :
  findCamsForPlace windyThree ytRepeats 6 kyivRanked 0
  = (firstn 6 (uniqBy [ windyCam 1 "https://www.windy.com/webcams/1";
                        windyCam 2 "https://www.windy.com/webcams/2";
                        windyCam 3 "https://www.windy.com/webcams/3";
                        youtubeCam "v1"; youtubeCam "v2"; youtubeCam "v3" ]),
     2).
Proof.
  refine (findCamsForPlace_stops_when_full
            nat windyThree ytRepeats 6 kyivRanked 0 1 2 _ _
            ["live cam"] (tl KWS) eq_refl eq_refl _ _).
  - econstructor; [cbn; lia | reflexivity | constructor].
  - cbn. lia.
Defined.

(** ** The provider clients *)

Lemma isUpper_range c : isUpper c = true <-> (65 <= N_of_ascii c <= 90)%N.
Proof. unfold isUpper. rewrite andb_true_iff, !N.leb_le. tauto. Qed.

Lemma lowerChar_code c :
  isUpper c = true -> N_of_ascii (lowerChar c) = (N_of_ascii c + 32)%N.
Proof.
  intro H. unfold lowerChar. rewrite H. apply N_ascii_embedding.
  apply isUpper_range in H. lia.
Qed.

Lemma ascii_code_inj a b : N_of_ascii a = N_of_ascii b -> a = b.
Proof.
  intro E. rewrite <- (ascii_N_embedding a), <- (ascii_N_embedding b).
  now rewrite E.
Qed.

Lemma sameLetter_lower c d : sameLetter c d <-> lowerChar c = lowerChar d.
Proof.
  split.
  - intros [->|[[L E]|[L E]]]; [reflexivity| |]; apply isLower_range in L;
      apply ascii_code_inj.
    + assert (U : isUpper d = true) by (apply isUpper_range; lia).
      rewrite (lowerChar_code _ U). unfold lowerChar.
      destruct (isUpper c) eqn:Uc; [apply isUpper_range in Uc; lia | lia].
    + assert (U : isUpper c = true) by (apply isUpper_range; lia).
      rewrite (lowerChar_code _ U). unfold lowerChar.
      destruct (isUpper d) eqn:Ud; [apply isUpper_range in Ud; lia | lia].
  - intro E. apply (f_equal N_of_ascii) in E.
    destruct (isUpper c) eqn:Uc, (isUpper d) eqn:Ud.
    + rewrite (lowerChar_code _ Uc), (lowerChar_code _ Ud) in E.
      left. apply ascii_code_inj. lia.
    + rewrite (lowerChar_code _ Uc) in E. unfold lowerChar in E.
      rewrite Ud in E. apply isUpper_range in Uc.
      right; right. split; [apply isLower_range; lia | lia].
    + rewrite (lowerChar_code _ Ud) in E. unfold lowerChar in E at 1.
      rewrite Uc in E. apply isUpper_range in Ud.
      right; left. split; [apply isLower_range; lia | lia].
    + unfold lowerChar in E. rewrite Uc, Ud in E. left.
      now apply ascii_code_inj.
Qed.

Lemma equalCI_lower u k : equalCI u k <-> toLowerCase u = toLowerCase k.
Proof.
  split.
  - induction 1 as [|c d s t Hcd _ IH]; cbn [toLowerCase]; [reflexivity|].
    apply sameLetter_lower in Hcd. congruence.
  - revert k; induction u as [|c u IH]; intros [|d k] H; cbn [toLowerCase] in H;
      try discriminate.
    + constructor.
    + injection H as Hc Hk. constructor; [now apply sameLetter_lower | auto].
Qed.

Lemma isLive_true rc :
  isLive rc = Some true <->
  (exists s, ww_status rc = JStr s /\ equalCI s "active")
  /\ js_truthy (ww_available rc) = true.
Proof.
  unfold isLive, js_or. split.
  - destruct (ww_status rc) as [| |b|z|s] eqn:St; cbn [js_truthy];
      try discriminate.
    + destruct b; discriminate.
    + destruct (Z.eqb z 0); discriminate.
    + destruct (truthy s) eqn:T; intros [= H];
        apply andb_true_iff in H as [A B].
      split; [|exact B].
      exists s. split; [reflexivity|]. apply equalCI_lower.
      apply String.eqb_eq in A. exact A.
  - intros [[s [St E]] A]. rewrite St. cbn [js_truthy].
    apply equalCI_lower in E. change (toLowerCase "active") with "active" in E.
    destruct (truthy s) eqn:T.
    + rewrite E, A. reflexivity.
    + destruct s; [discriminate E | discriminate T].
Qed.

Lemma filterLive_In l live rc :
  filterLive l = Some live -> In rc live -> In rc l /\ isLive rc = Some true.
Proof.
  revert live; induction l as [|c l IH]; intros live; cbn [filterLive].
  - intros [= <-] [].
  - destruct (isLive c) as [b|] eqn:L; [|discriminate].
    destruct (filterLive l) as [r|]; [|discriminate].
    intros [= <-] Hin. destruct b.
    + destruct Hin as [<-|Hin]; [split; [now left | exact L]|].
      destruct (IH r eq_refl Hin). split; [now right | assumption].
    + destruct (IH r eq_refl Hin). split; [now right | assumption].
Qed.

Lemma mapItems_spec l cams :
  mapItems l = Some cams -> map Some cams = map ytCamera l.
Proof.
  revert cams; induction l as [|v l IH]; intros cams; cbn [mapItems].
  - intros [= <-]. reflexivity.
  - destruct (ytCamera v) as [c|] eqn:C; [|discriminate].
    destruct (mapItems l) as [r|]; [|discriminate].
    intros [= <-]. cbn [map]. rewrite C. f_equal. now apply IH.
Qed.

Section ClientFacts.
Variable World : Type.
Variable windyGet :
  number -> number -> World -> result (option (list WindyWebcam)) * World.
Variable ytGet : string -> World -> result (option (list YtItem)) * World.
Variable WINDY_KEY : string.
Variable YT_KEY : string.
Variable MAX_CAMS : nat.

(** X17. The primary client returns only webcams that are active and
    live: at most [MAX_CAMS] cameras, each made from a webcam of the
    response whose status is a string equal to active up to case and
    whose live availability is truthy. *)
Theorem windyNearby_only_live (lat lon : number) (w w1 : World)
        (cams : list Camera) :
  Providers.windyNearby windyGet WINDY_KEY MAX_CAMS lat lon w = (Ok cams, w1) ->
  List.length cams <= MAX_CAMS
  /\ forall c, In c cams ->
       exists webcams rc,
         windyGet lat lon w = (Ok (Some webcams), w1)
         /\ In rc webcams /\ c = windyCamera rc
         /\ (exists s, ww_status rc = JStr s /\ equalCI s "active")
         /\ js_truthy (ww_available rc) = true.
Proof.
  unfold Providers.windyNearby.
  destruct (negb (truthy WINDY_KEY)).
  - intros [= <- <-]. split; [cbn; lia | intros c []].
  - destruct (windyGet lat lon w) as [[webcams|e] w2]; [|discriminate].
    destruct (filterLive (orEmpty webcams)) as [live|] eqn:F; [|discriminate].
    intros [= <- <-]. split; [apply firstn_le_length|].
    intros c Hc.
    assert (Hm : In c (map windyCamera live)).
    { rewrite <- (firstn_skipn MAX_CAMS). apply in_or_app. now left. }
    apply in_map_iff in Hm as [rc [<- Hrc]].
    destruct (filterLive_In _ _ _ F Hrc) as [Hin L].
    apply isLive_true in L as [S A].
    destruct webcams as [webcams|]; [|destruct Hin].
    exists webcams, rc. auto.
Qed.

(** X18. The search client makes one camera per item of the response, in
    order, or throws; every camera has the watch page of its video as
    url, which is never empty, so that its identity key is its url. *)
Theorem ytSearch_one_camera_per_item (q : string) (w w1 : World)
        (cams : list Camera) :
  Providers.ytSearch ytGet YT_KEY q w = (Ok cams, w1) ->
  (forall c, In c cams ->
             cam_url c
             = JStr ("https://www.youtube.com/watch?v=" ++ toStringJs (cam_id c))
             /\ identity c = cam_url c
             /\ cam_source c = "youtube")
  /\ (YT_KEY <> EmptyString ->
      exists items,
        ytGet q w = (Ok items, w1)
        /\ map Some cams = map ytCamera (orEmpty items)).
Proof.
  unfold Providers.ytSearch.
  destruct (truthy YT_KEY) eqn:T; cbn [negb].
  - destruct (ytGet q w) as [[items|e] w2]; [|discriminate].
    destruct (mapItems (orEmpty items)) as [cs|] eqn:M; [|discriminate].
    intros [= <- <-]. apply mapItems_spec in M. split.
    + intros c Hc. apply (in_map Some) in Hc. rewrite M in Hc.
      apply in_map_iff in Hc as [v [Hv _]]. unfold ytCamera in Hv.
      destruct (yt_videoId v) as [vid|]; [|discriminate].
      destruct (yt_snippet v) as [[title thumb]|]; [|discriminate].
      injection Hv as <-. cbn [cam_url cam_id cam_source]. repeat split.
    + intros _. now exists items.
  - intros [= <- <-]. split; [intros c []|].
    intro N. destruct YT_KEY; [contradiction | discriminate].
Qed.

End ClientFacts.

Lemma windyNearby_only_live_witness :
  List.length [windyCamera liveWebcam] <= 10.
Proof.
  exact (proj1 (windyNearby_only_live
                  nat windyGetTwo "key" 10
                  (S754_zero false) (S754_zero false) 0 1 _ eq_refl)).
Defined.

Lemma ytSearch_one_camera_per_item_witness :
  identity (youtubeCam "abc123") = cam_url (youtubeCam "abc123").
Proof.
  refine (proj1 (proj2 (proj1 (ytSearch_one_camera_per_item
                                 nat ytGetOne "key" "Kyiv live cam" 0 1
                                 [youtubeCam "abc123"] eq_refl)
                              (youtubeCam "abc123") _))).
  now left.
Defined.

(** A numeric video id is printed as JavaScript prints a number: the
    shortest digits that read back as the number, then zeros. *)
Example toStringJs_large_integer :
  toStringJs (JNum (2 ^ 60)) = "1152921504606847000"
  /\ toStringJs (JNum 42) = "42"
  /\ toStringJs (JNum (10 ^ 21)) = "1e+21".
Proof. repeat split; vm_compute; reflexivity. Qed.

(** ** Providers and pipeline together *)

Section Together.
Variable World : Type.
Variable axiosGetFeed : World -> result string * World.
Variable windyNearby : number -> number -> World -> result (list Camera) * World.
Variable ytSearch : string -> World -> result (list Camera) * World.
Variable now : World -> string.
Variable TOP_N : nat.
Variable MAX_CAMS : nat.

Lemma findCamsWith_ok kws p w :
  NoDup (map identity (fst (findCamsWith windyNearby ytSearch MAX_CAMS kws p w)))
  /\ List.length (fst (findCamsWith windyNearby ytSearch MAX_CAMS kws p w))
     <= MAX_CAMS.
Proof.
  unfold findCamsWith.
  destruct (primary windyNearby p w) as [cams w1].
  destruct (if List.length cams <? MAX_CAMS
            then searchLoop ytSearch MAX_CAMS (p_name (place p)) kws cams w1
            else (cams, w1)) as [cams2 w2].
  cbn [fst]. split; [|apply firstn_le_length].
  rewrite <- firstn_map. apply firstn_NoDup, uniqFrom_NoDup.
Qed.

Lemma recordOk_more c p l r :
  recordOk MAX_CAMS c l r -> recordOk MAX_CAMS c (p :: l) r.
Proof.
  intros [A [B C]]. split; [exact A|]. split; [now right | exact C].
Qed.

Lemma enrichPlaces_shape c l : forall front es places w,
  ~ In c (map fst front) ->
  exists recs w',
    enrichPlaces windyNearby ytSearch MAX_CAMS c l
                 (front ++ [(c, es)]) places w
    = (front ++ [(c, es ++ map entryPart recs)], places ++ recs, w')
    /\ Forall (recordOk MAX_CAMS c l) recs
    /\ List.length recs <= List.length l.
Proof.
  induction l as [|p l IH]; intros front es places w N; cbn [enrichPlaces].
  - exists [], w. cbn [map]. rewrite !app_nil_r.
    split; [reflexivity|]. split; [constructor | cbn [List.length]; lia].
  - destruct (findCamsForPlace windyNearby ytSearch MAX_CAMS p w)
      as [cams w1] eqn:F.
    destruct cams as [|cam cams].
    + destruct (IH front es places w1 N) as [recs [w' [E [R L]]]].
      exists recs, w'. rewrite E. split; [reflexivity|]. split.
      * eapply Forall_impl; [|exact R]. intro r. apply recordOk_more.
      * cbn [List.length]. lia.
    + rewrite push_last by exact N.
      destruct (IH front
                   (es ++ [{| e_place := placeView p;
                              e_cams := map camView (cam :: cams) |}])
                   (places ++ [{| r_category := c; r_place := p;
                                  r_cams := cam :: cams |}]) w1 N)
        as [recs [w' [E [R L]]]].
      exists ({| r_category := c; r_place := p; r_cams := cam :: cams |} :: recs),
        w'.
      rewrite E. cbn [map]. rewrite <- !app_assoc. split; [reflexivity|]. split.
      * constructor.
        -- pose proof (findCamsWith_ok KWS p w) as [ND LE].
           unfold findCamsForPlace in F. rewrite F in ND, LE. cbn [fst] in ND, LE.
           split; [reflexivity|]. split; [now left|].
           cbn [r_cams List.length] in *. split; [lia | exact ND].
        -- eapply Forall_impl; [|exact R]. intro r. apply recordOk_more.
      * cbn [List.length]. lia.
Qed.

Lemma enrichAll_shape ranked : forall cats places w,
  NoDup (map fst ranked) ->
  (forall c, In c (map fst ranked) -> ~ In c (map fst cats)) ->
  exists groups w',
    enrichAll windyNearby ytSearch MAX_CAMS ranked cats places w
    = (cats ++ map groupEntry (combine ranked groups),
       places ++ List.concat groups, w')
    /\ Forall2 (groupOk MAX_CAMS) ranked groups.
Proof.
  induction ranked as [|[c l] ranked IH]; intros cats places w N Fresh;
    cbn [enrichAll].
  - exists [], w. cbn [combine map List.concat]. rewrite !app_nil_r.
    split; [reflexivity | constructor].
  - cbn [map fst] in N. inversion N as [|? ? Hc N']; subst.
    rewrite setEmpty_fresh by (apply Fresh; now left).
    destruct (enrichPlaces_shape c l cats [] places w) as [recs [w1 [E [R L]]]];
      [apply Fresh; now left|].
    rewrite E. cbn [app].
    destruct (IH (cats ++ [(c, map entryPart recs)]) (places ++ recs) w1 N')
      as [groups [w' [E2 G]]].
    { intros c' Hin. rewrite map_app, in_app_iff. cbn [map fst In].
      intros [H|[H|[]]].
      - apply (Fresh c'); [now right | exact H].
      - subst c'. contradiction. }
    exists (recs :: groups), w'. rewrite E2.
    cbn [combine map List.concat]. rewrite <- !app_assoc. split; [reflexivity|].
    constructor; [|exact G]. split; [exact R | exact L].
Qed.

Lemma allEntries_groups ranked groups :
  Forall2 (groupOk MAX_CAMS) ranked groups ->
  allEntries (map groupEntry (combine ranked groups))
  = map entryOfRecord (List.concat groups).
Proof.
  unfold allEntries.
  induction 1 as [|[c l] recs ranked groups [R _] _ IH];
    cbn [combine map flat_map List.concat]; [reflexivity|].
  rewrite map_app, IH. f_equal. unfold groupEntry. cbn [fst snd].
  rewrite map_map. apply map_ext_in. intros r Hr. rewrite Forall_forall in R.
  cbn [fst snd] in R. destruct (R r Hr) as [<- _].
  unfold entryPart, entryOfRecord. reflexivity.
Qed.

Lemma ranked_NoDup data :
  NoDup (map fst (rankPlaces TOP_N (values (aggregate (parseGKG data))))).
Proof.
  unfold rankPlaces. rewrite map_map. apply groupByCategory_NoDup.
Qed.

(** X19. The two views of a published snapshot agree: the entries of
    [categories], taken category by category in order, are the records of
    [places] in order, each entry showing the place and the cameras of its
    record under the record's category. *)
Theorem ingestOnce_views_agree (w w1 : World) (st : State) (data : string) :
  axiosGetFeed w = (Ok data, w1) ->
  allEntries
    (categories
       (snd (ingestOnce axiosGetFeed windyNearby ytSearch now TOP_N MAX_CAMS w st)))
  = map entryOfRecord
      (places
         (snd (ingestOnce axiosGetFeed windyNearby ytSearch now TOP_N MAX_CAMS
                          w st))).
Proof.
  intro H. unfold ingestOnce, fetchGKGLastHour. rewrite H.
  destruct (enrichAll_shape _ [] [] w1 (ranked_NoDup data) (fun _ _ F => F))
    as [groups [w' [E G]]].
  rewrite E. cbn [snd categories places app]. now apply allEntries_groups.
Qed.

Lemma Forall2_combine_In {A B : Type} (R : A -> B -> Prop) la lb a b :
  Forall2 R la lb -> In (a, b) (combine la lb) -> R a b.
Proof.
  induction 1 as [|x y la lb Rxy _ IH]; cbn [combine In]; [intros []|].
  intros [[= <- <-]|H]; auto.
Qed.

Lemma Forall2_In_right {A B : Type} (R : A -> B -> Prop) la lb b :
  Forall2 R la lb -> In b lb -> exists a, In a la /\ R a b.
Proof.
  induction 1 as [|x y la lb Rxy _ IH]; cbn [In]; [intros []|].
  intros [<-|H]; [exists x; auto|].
  destruct (IH H) as [a [Ha Ra]]. exists a. auto.
Qed.

(** X20. A published snapshot respects both limits: no category has more
    than [TOP_N] entries, and every record of [places] belongs to a
    ranked place of its category and carries between 1 and [MAX_CAMS]
    cameras with pairwise different identity keys. *)
Theorem ingestOnce_snapshot_bounds (w w1 : World) (st : State) (data : string) :
  axiosGetFeed w = (Ok data, w1) ->
  (forall c es,
      In (c, es)
         (categories
            (snd (ingestOnce axiosGetFeed windyNearby ytSearch now TOP_N MAX_CAMS
                             w st))) ->
      List.length es <= TOP_N)
  /\ (forall r,
         In r (places
                 (snd (ingestOnce axiosGetFeed windyNearby ytSearch now TOP_N
                                  MAX_CAMS w st))) ->
         exists l,
           In (r_category r, l)
              (rankPlaces TOP_N (values (aggregate (parseGKG data))))
           /\ recordOk MAX_CAMS (r_category r) l r).
Proof.
  intro H. unfold ingestOnce, fetchGKGLastHour. rewrite H.
  destruct (enrichAll_shape _ [] [] w1 (ranked_NoDup data) (fun _ _ F => F))
    as [groups [w' [E G]]].
  rewrite E. cbn [snd categories places app]. split.
  - intros c es Hin. apply in_map_iff in Hin as [[[c0 l] recs] [Eg Hin]].
    unfold groupEntry in Eg. cbn [fst snd] in Eg. injection Eg as -> <-.
    pose proof (Forall2_combine_In _ _ _ _ _ G Hin) as [_ L].
    apply in_combine_l, rankPlaces_In in Hin. cbn [snd] in L.
    rewrite length_map. subst l. rewrite length_firstn in L. lia.
  - intros r Hr. apply in_concat in Hr as [recs [Hg Hr]].
    destruct (Forall2_In_right _ _ _ _ G Hg) as [[c l] [Hin [R _]]].
    rewrite Forall_forall in R. specialize (R r Hr). cbn [fst snd] in R.
    exists l. destruct R as [<- R]. split; [exact Hin|]. split; [reflexivity|exact R].
Qed.

End Together.

Lemma ingestOnce_views_agree_witness :
  allEntries
    (categories (snd (ingestOnce feedOk windyThree ytNone clock 8 10 0 oldState)))
  = map entryOfRecord
      (places (snd (ingestOnce feedOk windyThree ytNone clock 8 10 0 oldState))).
Proof.
  exact (ingestOnce_views_agree nat feedOk windyThree ytNone clock 8 10
                                0 1 oldState kyivFeed eq_refl).
Defined.

Lemma ingestOnce_snapshot_bounds_witness :
  List.length
    (entriesOf war
       (categories
          (snd (ingestOnce feedOk windyThree ytNone clock 8 10 0 oldState))))
  <= 8.
Proof.
  assert (H : In (war,
                  entriesOf war
                    (categories
                       (snd (ingestOnce feedOk windyThree ytNone clock 8 10
                                        0 oldState))))
                 (categories
                    (snd (ingestOnce feedOk windyThree ytNone clock 8 10
                                     0 oldState))))
    by (vm_compute; left; reflexivity).
  exact (proj1 (ingestOnce_snapshot_bounds nat feedOk windyThree ytNone clock
                                           8 10 0 1 oldState kyivFeed eq_refl)
               war _ H).
Defined.

Section WithClients.
Variable World : Type.
Variable axiosGetFeed : World -> result string * World.
Variable windyGet :
  number -> number -> World -> result (option (list WindyWebcam)) * World.
Variable ytGet : string -> World -> result (option (list YtItem)) * World.
Variable now : World -> string.
Variable WINDY_KEY : string.
Variable YT_KEY : string.
Variable TOP_N : nat.
Variable MAX_CAMS : nat.

Local Abbreviation windy := (Providers.windyNearby windyGet WINDY_KEY MAX_CAMS).
Local Abbreviation yt := (Providers.ytSearch ytGet YT_KEY).

Lemma ytSearch_cameras q w more w1 :
  yt q w = (Ok more, w1) -> Forall (fun c => identity c = cam_url c) more.
Proof.
  unfold Providers.ytSearch.
  destruct (negb (truthy YT_KEY)); [intros [= <- <-]; constructor|].
  destruct (ytGet q w) as [[items|e] w2]; [|discriminate].
  destruct (mapItems (orEmpty items)) as [cs|] eqn:M; [|discriminate].
  intros [= <- <-]. apply mapItems_spec in M. apply Forall_forall. intros c Hc.
  apply (in_map Some) in Hc. rewrite M in Hc.
  apply in_map_iff in Hc as [v [Hv _]]. unfold ytCamera in Hv.
  destruct (yt_videoId v) as [vid|]; [|discriminate].
  destruct (yt_snippet v) as [[title thumb]|]; [|discriminate].
  injection Hv as <-. reflexivity.
Qed.

(** X21. Without a Windy key the last deduplication and the last cut
    change nothing: what [findCamsForPlace] returns is exactly what the
    loop over the search phrases collected, because every camera of the
    search client has its url as identity key and the loop already keeps
    urls apart and stops at [MAX_CAMS]. *)
Theorem findCamsForPlace_search_only (p : RankedPlace) (w : World) :
  WINDY_KEY = EmptyString ->
  findCamsForPlace windy yt MAX_CAMS p w
  = searchLoop yt MAX_CAMS (p_name (place p)) KWS [] w.
Proof.
  intro K. unfold findCamsForPlace, findCamsWith, primary, Providers.windyNearby.
  rewrite K. cbn [truthy negb app List.length].
  assert (F : forall l : list Camera,
             List.length l <= MAX_CAMS -> NoDup (map cam_url l) ->
             Forall (fun c => identity c = cam_url c) l ->
             firstn MAX_CAMS (uniqBy l) = l).
  { intros l L N I. unfold uniqBy. rewrite uniqFrom_fixed.
    - now apply firstn_all2.
    - rewrite (map_ext_in identity cam_url); [exact N|].
      now apply Forall_forall.
    - intros c _ []. }
  destruct (0 <? MAX_CAMS) eqn:E.
  - pose proof (searchLoop_bounded_urls World yt MAX_CAMS (p_name (place p))
                                        KWS [] w) as [B U].
    pose proof (searchLoop_all World yt MAX_CAMS
                               (fun c => identity c = cam_url c)
                               (p_name (place p)) KWS ytSearch_cameras [] w
                               (Forall_nil _)) as A.
    destruct (searchLoop yt MAX_CAMS (p_name (place p)) KWS [] w) as [l w2].
    cbn [fst List.length] in *. f_equal. apply F; [lia | apply U; constructor | exact A].
  - apply Nat.ltb_ge in E. assert (MAX_CAMS = 0) as -> by lia. reflexivity.
Qed.

Lemma searchLoop_without_key placeName kws w :
  YT_KEY = EmptyString ->
  searchLoop yt MAX_CAMS placeName kws [] w = ([], w).
Proof.
  intro K. assert (T : truthy YT_KEY = false) by now rewrite K.
  induction kws as [|kw kws IH]; cbn [searchLoop]; [reflexivity|].
  destruct (MAX_CAMS <=? List.length (@nil Camera)); [reflexivity|].
  unfold Providers.ytSearch at 1. rewrite T. cbn [negb pushNew].
  exact IH.
Qed.

Lemma findCams_without_keys p w :
  WINDY_KEY = EmptyString -> YT_KEY = EmptyString ->
  findCamsForPlace windy yt MAX_CAMS p w = ([], w).
Proof.
  intros K1 K2.
  unfold findCamsForPlace, findCamsWith, primary, Providers.windyNearby.
  rewrite K1. cbn [truthy negb app].
  rewrite (searchLoop_without_key _ _ _ K2).
  destruct (List.length (@nil Camera) <? MAX_CAMS); cbn [uniqBy uniqFrom];
    now rewrite firstn_nil.
Qed.

Lemma enrichPlaces_without_keys c l : forall cats places w,
  WINDY_KEY = EmptyString -> YT_KEY = EmptyString ->
  enrichPlaces windy yt MAX_CAMS c l cats places w = (cats, places, w).
Proof.
  induction l as [|p l IH]; intros cats places w K1 K2; cbn [enrichPlaces];
    [reflexivity|].
  rewrite findCams_without_keys by assumption. now apply IH.
Qed.

Lemma enrichAll_without_keys ranked : forall cats places w,
  WINDY_KEY = EmptyString -> YT_KEY = EmptyString ->
  NoDup (map fst ranked) ->
  (forall c, In c (map fst ranked) -> ~ In c (map fst cats)) ->
  enrichAll windy yt MAX_CAMS ranked cats places w
  = (cats ++ map (fun e => (fst e, @nil Entry)) ranked, places, w).
Proof.
  induction ranked as [|[c l] ranked IH]; intros cats places w K1 K2 N Fresh;
    cbn [enrichAll map].
  - now rewrite app_nil_r.
  - cbn [map fst] in N. apply NoDup_cons_iff in N as [Hc N'].
    rewrite enrichPlaces_without_keys by assumption.
    rewrite setEmpty_fresh by (apply Fresh; now left).
    rewrite IH; [now rewrite <- app_assoc | assumption | assumption | exact N' |].
    intros c' Hin. rewrite map_app, in_app_iff. cbn [map fst In].
    intros [H|[H|[]]].
    + apply (Fresh c'); [now right | exact H].
    + subst c'. contradiction.
Qed.

(** X22. Without credentials a run asks no provider and still publishes:
    with both keys empty, the snapshot has every category of the ranking,
    in order, each with an empty list, and no place; the world is the one
    the feed request left. *)
Theorem ingestOnce_without_keys (w w1 : World) (st : State) (data : string) :
  WINDY_KEY = EmptyString -> YT_KEY = EmptyString ->
  axiosGetFeed w = (Ok data, w1) ->
  ingestOnce axiosGetFeed windy yt now TOP_N MAX_CAMS w st
  = (Ok tt, w1,
     {| updatedAt := Some (now w1);
        categories :=
          map (fun e => (fst e, []))
              (rankPlaces TOP_N (values (aggregate (parseGKG data))));
        places := [] |}).
Proof.
  intros K1 K2 H. unfold ingestOnce, fetchGKGLastHour. rewrite H.
  rewrite enrichAll_without_keys; [reflexivity | assumption | assumption | |].
  - unfold rankPlaces. rewrite map_map. apply groupByCategory_NoDup.
  - intros c _ [].
Qed.

End WithClients.

Lemma findCamsForPlace_search_only_witness :
  findCamsForPlace
    (Providers.windyNearby windyGetTwo EmptyString 10)
    (Providers.ytSearch ytGetOne "key") 10 kyivRanked 0
  = searchLoop (Providers.ytSearch ytGetOne "key") 10 "Kyiv" KWS [] 0.
Proof.
  exact (findCamsForPlace_search_only nat windyGetTwo ytGetOne EmptyString "key"
                                      10 kyivRanked 0 eq_refl).
Defined.

Lemma ingestOnce_without_keys_witness :
  snd (ingestOnce feedOk
                  (Providers.windyNearby windyGetTwo EmptyString 10)
                  (Providers.ytSearch ytGetOne EmptyString)
                  clock 8 10 0 oldState)
  = {| updatedAt := Some "2024-01-01T00:00:00.000Z";
       categories := [(war, [])]; places := [] |}.
Proof.
  rewrite (ingestOnce_without_keys nat feedOk windyGetTwo ytGetOne clock
                                   EmptyString EmptyString 8 10
                                   0 1 oldState kyivFeed eq_refl eq_refl eq_refl).
  vm_compute. reflexivity.
Defined.

(** ** When a coordinate is not a number *)

Lemma shr_1_nonneg mrs : (0 <= shr_m mrs)%Z -> (0 <= shr_m (shr_1 mrs))%Z.
Proof.
  destruct mrs as [m r s]. cbn [shr_m shr_1].
  destruct m as [|[p|p|]|[p|p|]]; cbn [shr_m]; lia.
Qed.

Lemma iter_shr_1_nonneg p : forall mrs,
  (0 <= shr_m mrs)%Z -> (0 <= shr_m (iter_pos shr_1 p mrs))%Z.
Proof.
  induction p as [p IH|p IH|]; intros mrs H; cbn [iter_pos].
  - apply IH, IH, shr_1_nonneg, H.
  - apply IH, IH, H.
  - apply shr_1_nonneg, H.
Qed.

Lemma shr_fexp_nonneg m e l :
  (0 <= m)%Z -> (0 <= shr_m (fst (shr_fexp prec emax m e l)))%Z.
Proof.
  intro H. unfold shr_fexp, shr.
  assert (H0 : (0 <= shr_m (shr_record_of_loc m l))%Z).
  { destruct l as [|[]]; exact H. }
  destruct (fexp prec emax (Zdigits2 m + e) - e)%Z; cbn [fst]; auto.
  now apply iter_shr_1_nonneg.
Qed.

Lemma round_nearest_even_nonneg m l :
  (0 <= m)%Z -> (0 <= round_nearest_even m l)%Z.
Proof.
  intro H. unfold round_nearest_even.
  destruct l as [|[]]; try lia. destruct (Z.even m); lia.
Qed.

Lemma binary_round_aux_not_nan s m e l :
  (0 <= m)%Z -> isNaN (binary_round_aux prec emax s m e l) = false.
Proof.
  intro H. unfold binary_round_aux.
  pose proof (shr_fexp_nonneg m e l H) as H1.
  destruct (shr_fexp prec emax m e l) as [mrs' e']. cbn [fst] in H1.
  pose proof (shr_fexp_nonneg _ e' loc_Exact
                (round_nearest_even_nonneg _ (loc_of_shr_record mrs') H1)) as H2.
  destruct (shr_fexp prec emax _ e' loc_Exact) as [mrs'' e'']. cbn [fst] in H2.
  destruct (shr_m mrs'') as [|q|q]; [reflexivity| |lia].
  now destruct (e'' <=? emax - prec)%Z.
Qed.

Lemma ofDecimal_not_nan s m e10 : isNaN (ofDecimal s m e10) = false.
Proof.
  unfold ofDecimal. destruct m as [|p|p]; try reflexivity.
  destruct (0 <=? e10)%Z eqn:E; [|apply Z.leb_gt in E].
  - unfold binary_round.
    destruct (shl_align _ _ _) as [mz ez]. now apply binary_round_aux_not_nan.
  - unfold SFdiv_core_binary.
    set (s0 := (0 - 0 - _)%Z).
    set (m' := match s0 with
               | Z0 => Zpos p
               | Zpos _ => Z.shiftl (Zpos p) s0
               | Zneg _ => 0%Z
               end).
    assert (Hm : (0 <= m')%Z).
    { unfold m'. destruct s0; try lia. apply Z.shiftl_nonneg. lia. }
    assert (Hd : (0 < 10 ^ (- e10))%Z) by (apply Z.pow_pos_nonneg; lia).
    pose proof (Z.div_pos m' (10 ^ (- e10)) Hm Hd) as Hq.
    unfold Z.div in Hq.
    destruct (Z.div_eucl m' (10 ^ (- e10))) as [q r]. cbn [fst] in Hq.
    now apply binary_round_aux_not_nan.
Qed.

Lemma digits_count s : forall acc n,
  let '(_, n', rest) := digits s acc n in
  (n <= n')%Z /\ (startsWithDigit s = true -> (n < n')%Z)
  /\ (startsWithDigit s = false -> n' = n /\ rest = s).
Proof.
  induction s as [|c s IH]; intros acc n; cbn [digits startsWithDigit].
  - split; [lia|]. split; [discriminate|]. intros _. split; reflexivity.
  - destruct (isDigit c) eqn:D.
    + specialize (IH (10 * acc + digitVal c)%Z (n + 1)%Z).
      destruct (digits s _ _) as [[v n'] rest]. destruct IH as [L _].
      split; [lia|]. split; [intros _; lia | discriminate].
    + split; [lia|]. split; [discriminate|]. intros _. split; reflexivity.
Qed.

Lemma unsignedLiteral_nan sg u :
  isNaN (unsignedLiteral sg u)
  = negb (String.prefix "Infinity" u || startsWithDigit u
          || match u with
             | String "." r => startsWithDigit r
             | _ => false
             end).
Proof.
  unfold unsignedLiteral.
  destruct (String.prefix "Infinity" u); [reflexivity|]. cbn [orb].
  pose proof (digits_count u 0 0) as D.
  destruct (digits u 0 0) as [[ip ni] r1].
  destruct D as [L [D1 D0]].
  destruct (startsWithDigit u) eqn:S; cbn [orb].
  - specialize (D1 eq_refl).
    destruct (match r1 with
              | String "." r => digits r ip 0
              | _ => (ip, 0%Z, r1)
              end) as [[m nf] r2].
    replace (ni =? 0)%Z with false by (symmetry; apply Z.eqb_neq; lia).
    cbn [andb negb]. apply ofDecimal_not_nan.
  - destruct (D0 eq_refl) as [-> ->]. cbn [Z.eqb andb].
    destruct u as [|c r]; [reflexivity|].
    destruct (Ascii.eqb c ".") eqn:P.
    + apply Ascii.eqb_eq in P. subst c.
      pose proof (digits_count r ip 0) as E.
      destruct (digits r ip 0) as [[m nf] r2]. destruct E as [_ [E1 E0]].
      destruct (startsWithDigit r) eqn:Sr.
      * specialize (E1 eq_refl).
        replace (nf =? 0)%Z with false by (symmetry; apply Z.eqb_neq; lia).
        cbn [negb]. apply ofDecimal_not_nan.
      * destruct (E0 eq_refl) as [-> _]. reflexivity.
    + assert (N : c <> "."%char) by (intro; subst; now rewrite Ascii.eqb_refl in P).
      destruct c as [[] [] [] [] [] [] [] []]; try reflexivity. contradiction.
Qed.

Lemma parseFloat_nan_iff (s : string) :
  isNaN (parseFloat s) = negb (numericPrefix s).
Proof.
  unfold parseFloat, numericPrefix.
  destruct (trimStart s) as [|c r]; [reflexivity|].
  destruct (Ascii.eqb c "+") eqn:P.
  - apply Ascii.eqb_eq in P. subst c. apply unsignedLiteral_nan.
  - destruct (Ascii.eqb c "-") eqn:M.
    + apply Ascii.eqb_eq in M. subst c. apply unsignedLiteral_nan.
    + assert (Np : c <> "+"%char) by (intro; subst; now rewrite Ascii.eqb_refl in P).
      assert (Nm : c <> "-"%char) by (intro; subst; now rewrite Ascii.eqb_refl in M).
      destruct c as [[] [] [] [] [] [] [] []];
        try apply unsignedLiteral_nan; contradiction.
Qed.

(** X23. A token is dropped exactly when it has no name or one of its
    coordinate texts (the text 0 standing in for a missing or empty one)
    has no numeric prefix: after leading white space and one optional
    sign, neither [Infinity], nor a digit, nor a point followed by a
    digit.  What comes after the prefix never matters. *)
Theorem parseToken_dropped_iff (tok : string) :
  parseToken tok = None <->
  nth 0 (split "#" tok) EmptyString = EmptyString
  \/ numericPrefix (or_else (nth 4 (split "#" tok) EmptyString) "0") = false
  \/ numericPrefix (or_else (nth 5 (split "#" tok) EmptyString) "0") = false.
Proof.
  unfold parseToken, at_or_empty. rewrite !parseFloat_nan_iff.
  destruct (nth 0 (split "#" tok) EmptyString) as [|c r]; cbn [truthy negb orb].
  - split; auto.
  - destruct (numericPrefix (or_else (nth 4 (split "#" tok) EmptyString) "0"));
      destruct (numericPrefix (or_else (nth 5 (split "#" tok) EmptyString) "0"));
      cbn [negb orb]; split; auto; try discriminate;
      intros [H|[H|H]]; discriminate.
Qed.

(** A coordinate text may start with any white space that [parseFloat]
    skips, such as a no-break space. *)
Example parseToken_no_break_space :
  parseToken ("Nice#1#FR#FR00#" ++ utf8 0xA0 ++ "43.7#7.26")
  = Some {| name := "Nice"; lat := parseFloat "43.7"; lon := parseFloat "7.26";
            country := "FR" |}.
Proof. vm_compute. reflexivity. Qed.

(** ** The snapshot between runs *)

Section Schedule.
Variable World : Type.
Variable axiosGetFeed : World -> result string * World.
Variable windyNearby : number -> number -> World -> result (list Camera) * World.
Variable ytSearch : string -> World -> result (list Camera) * World.
Variable now : World -> string.
Variable TOP_N : nat.
Variable MAX_CAMS : nat.

Local Abbreviation job :=
  (runIngest axiosGetFeed windyNearby ytSearch now TOP_N MAX_CAMS).

Lemma runIngest_servable w st :
  servable TOP_N st -> servable TOP_N (snd (job w st)).
Proof.
  intro Inv. unfold runIngest, ingestOnce, fetchGKGLastHour.
  destruct (axiosGetFeed w) as [[data|e] w1]; [|exact Inv].
  destruct (enrichAll_shape World windyNearby ytSearch MAX_CAMS
              (rankPlaces TOP_N (values (aggregate (parseGKG data))))
              [] [] w1 (ranked_NoDup TOP_N data) (fun _ _ F => F))
    as [groups [w' [E G]]].
  rewrite E. cbn [snd app]. split; [discriminate|]. split.
  - cbn [categories places]. now apply (allEntries_groups MAX_CAMS).
  - cbn [categories]. intros c es Hin.
    apply in_map_iff in Hin as [[[c0 l] recs] [Eg Hin]].
    unfold groupEntry in Eg. cbn [fst snd] in Eg. injection Eg as -> <-.
    pose proof (Forall2_combine_In _ _ _ _ _ G Hin) as [_ L].
    apply in_combine_l, rankPlaces_In in Hin. cbn [snd] in L.
    rewrite length_map. subst l. rewrite length_firstn in L. lia.
Qed.

(** X24. Whatever the runs that follow one another do, the snapshot that
    is served stays sound: after any number of runs from the initial
    state it is still the initial empty snapshot as long as [updatedAt]
    is not set, its [categories] and [places] agree entry by entry, and
    no category has more than [TOP_N] entries. *)
Theorem afterRuns_servable (n : nat) (w : World) :
  servable TOP_N (snd (afterRuns job n w STATE0)).
Proof.
  assert (G : forall st w0, servable TOP_N st ->
                            servable TOP_N (snd (afterRuns job n w0 st))).
  { induction n as [|k IH]; intros st w0 Inv; cbn [afterRuns]; [exact Inv|].
    pose proof (runIngest_servable w0 st Inv) as Inv1.
    destruct (job w0 st) as [w1 st1]. now apply IH. }
  apply G. split; [reflexivity|]. split; [reflexivity|]. intros c es [].
Qed.

End Schedule.
